(** * Brand-ad generator: the request orchestration of
      [src/services/openaiService.ts] and of the [Home] component
      (generation, rating and regeneration of ads), as a shallow embedding.

    The program is TypeScript that runs in a browser.  Values that come
    from the outside (HTTP bodies, the remote prompt configuration) are
    untyped at run time, so they are modelled as JavaScript values with
    the language's own coercions.  Effects (network calls, the clock,
    timers, React state) are threaded through a small state, error and
    log monad. *)

From Stdlib Require Import String Ascii List ZArith Bool Lia Arith.
From Stdlib Require Import DecimalString DecimalZ DecimalPos DecimalNat.
From Stdlib Require Import SpecFloat.
Import ListNotations.
Set Warnings "-register-all".
Local Open Scope list_scope.
Local Open Scope string_scope.

(* ================================================================== *)
(** ** The JavaScript platform: strings, values, coercions            *)
(* ================================================================== *)

Module JS.

(** A string is a sequence of UTF-16 code units.  The model holds it as
    bytes, each code unit in its UTF-8 form (one to three bytes; a
    surrogate half is encoded by itself, as [JSON.utf8] does), so that
    ASCII text is itself and concatenation, equality and prefixes are
    those of the code units. *)

Definition chr (n : nat) : string := String (ascii_of_nat n) EmptyString.
Definition dquote : string := chr 34.
Definition backslash : string := chr 92.
Definition nl : string := chr 10.

Definition code (c : ascii) : nat := nat_of_ascii c.

(** White space of [String.prototype.trim] and of the regular
    expression class [\s]: TAB, LF, VT, FF, CR and SPACE, which take
    one byte; U+00A0, which takes two; U+1680, U+2000 to U+200A, U+2028,
    U+2029, U+202F, U+205F, U+3000 and U+FEFF, which take three. *)
Definition space1 (a : ascii) : bool :=
  let n := code a in (n =? 32)%nat || ((9 <=? n)%nat && (n <=? 13)%nat).

Definition space2 (a b : ascii) : bool :=
  (code a =? 194)%nat && (code b =? 160)%nat.

Definition space3 (a b c : ascii) : bool :=
  let x := code a in
  let y := code b in
  let z := code c in
  ((x =? 225)%nat && (y =? 154)%nat && (z =? 128)%nat)
  || ((x =? 226)%nat && (y =? 128)%nat
      && (((128 <=? z)%nat && (z <=? 138)%nat)
          || (z =? 168)%nat || (z =? 169)%nat || (z =? 175)%nat))
  || ((x =? 226)%nat && (y =? 129)%nat && (z =? 159)%nat)
  || ((x =? 227)%nat && (y =? 128)%nat && (z =? 128)%nat)
  || ((x =? 239)%nat && (y =? 187)%nat && (z =? 191)%nat).

Fixpoint trimStart (s : string) : string :=
  match s with
  | EmptyString => EmptyString
  | String a r1 =>
      if space1 a then trimStart r1
      else
        match r1 with
        | EmptyString => s
        | String b r2 =>
            if space2 a b then trimStart r2
            else
              match r2 with
              | EmptyString => s
              | String c r3 => if space3 a b c then trimStart r3 else s
              end
        end
  end.

(** Nothing but white space. *)
Fixpoint blank (s : string) : bool :=
  match s with
  | EmptyString => true
  | String a r1 =>
      if space1 a then blank r1
      else
        match r1 with
        | EmptyString => false
        | String b r2 =>
            if space2 a b then blank r2
            else
              match r2 with
              | EmptyString => false
              | String c r3 => if space3 a b c then blank r3 else false
              end
        end
  end.

Fixpoint trimEnd (s : string) : string :=
  match s with
  | EmptyString => EmptyString
  | String a r => if blank s then EmptyString else String a (trimEnd r)
  end.

(** [s.trim()] *)
Definition trim (s : string) : string := trimEnd (trimStart s).

(** [s.replace(/\s+/g, "-")]: every maximal run of white space becomes
    one dash.  [in_run] tells that the previous character was white. *)
Fixpoint dash_runs (in_run : bool) (s : string) : string :=
  match s with
  | EmptyString => EmptyString
  | String a r1 =>
      if space1 a
      then (if in_run then dash_runs true r1 else String "-" (dash_runs true r1))
      else
        match r1 with
        | EmptyString => s
        | String b r2 =>
            if space2 a b
            then (if in_run then dash_runs true r2 else String "-" (dash_runs true r2))
            else
              match r2 with
              | EmptyString => String a (dash_runs false r1)
              | String c r3 =>
                  if space3 a b c
                  then (if in_run then dash_runs true r3
                        else String "-" (dash_runs true r3))
                  else String a (dash_runs false r1)
              end
        end
  end.

Definition replace_spaces_by_dash (s : string) : string := dash_runs false s.

(** [s.startsWith(p)] *)
Definition startsWith (s p : string) : bool := String.prefix p s.

Fixpoint strip_prefix (p s : string) : option string :=
  match p with
  | EmptyString => Some s
  | String a p' =>
      match s with
      | EmptyString => None
      | String b s' => if Ascii.eqb a b then strip_prefix p' s' else None
      end
  end.

(** First occurrence of [p] in [s]: the text before it and after it. *)
Fixpoint find_first (p s : string) : option (string * string) :=
  match strip_prefix p s with
  | Some rest => Some (EmptyString, rest)
  | None =>
      match s with
      | EmptyString => None
      | String c s' =>
          match find_first p s' with
          | Some (before, after) => Some (String c before, after)
          | None => None
          end
      end
  end.

(** The replacement text of [String.prototype.replace] with a string
    pattern (ECMAScript GetSubstitution without captures): [$$] is a
    dollar, [$&] the match, [$`] the text before it, [$'] the text after
    it; any other dollar stands for itself. *)
Fixpoint substitution (matched before after r : string) : string :=
  match r with
  | EmptyString => EmptyString
  | String c r' =>
      if Ascii.eqb c "$" then
        match r' with
        | EmptyString => String c EmptyString
        | String d r'' =>
            if Ascii.eqb d "$" then String "$" (substitution matched before after r'')
            else if Ascii.eqb d "&" then matched ++ substitution matched before after r''
            else if Ascii.eqb d "`" then before ++ substitution matched before after r''
            else if Ascii.eqb d "'" then after ++ substitution matched before after r''
            else String c (substitution matched before after r')
        end
      else String c (substitution matched before after r')
  end.

(** [s.replace(pattern, replacement)], both strings: the first
    occurrence only. *)
Definition replace (s pattern replacement : string) : string :=
  match find_first pattern s with
  | None => s
  | Some (before, after) =>
      before ++ substitution pattern before after replacement ++ after
  end.

(** Decimal text of an integer, as a template literal prints it. *)
Definition dec (z : Z) : string := NilZero.string_of_int (Z.to_int z).
Definition dec_nat (n : nat) : string := NilZero.string_of_uint (Nat.to_uint n).

Fixpoint join (sep : string) (l : list string) : string :=
  match l with
  | [] => EmptyString
  | [x] => x
  | x :: l' => x ++ sep ++ join sep l'
  end.

(** Values in the image of JSON, plus [undefined].  Numbers are the
    integers (status codes, counts); an object is its own enumerable
    properties in enumeration order. *)
Inductive value : Type :=
| Undefined
| Null
| Boolean (b : bool)
| Number (z : Z)
| Str (s : string)
| Arr (items : list value)
| Obj (props : list (string * value)).

(** ToBoolean *)
Definition truthy (v : value) : bool :=
  match v with
  | Undefined | Null => false
  | Boolean b => b
  | Number z => negb (z =? 0)%Z
  | Str s => negb (String.eqb s EmptyString)
  | Arr _ | Obj _ => true
  end.

Definition isArray (v : value) : bool :=
  match v with Arr _ => true | _ => false end.

Definition is_string (v : value) : bool :=
  match v with Str _ => true | _ => false end.

Fixpoint indexed {A : Type} (i : nat) (l : list A) : list (string * A) :=
  match l with
  | [] => []
  | x :: l' => (dec_nat i, x) :: indexed (S i) l'
  end.

Fixpoint chars (s : string) : list value :=
  match s with
  | EmptyString => []
  | String c s' => Str (String c EmptyString) :: chars s'
  end.

(** [Object.entries(v)] for a value that is not null or undefined. *)
Definition entries (v : value) : list (string * value) :=
  match v with
  | Obj props => props
  | Arr items => indexed 0 items
  | Str s => indexed 0 (chars s)
  | _ => []
  end.

(** [Object.keys(v)] *)
Definition keys (v : value) : list string := map fst (entries v).

Fixpoint lookup (k : string) (l : list (string * value)) : option value :=
  match l with
  | [] => None
  | (k', v) :: l' => if String.eqb k k' then Some v else lookup k l'
  end.

(** [v[k]] for a value that is not null or undefined.  Only own
    properties and [length] are data; methods are modelled where they are
    called. *)
Definition own (v : value) (k : string) : value :=
  match lookup k (entries v) with
  | Some x => x
  | None =>
      if String.eqb k "length" then
        match v with
        | Arr items => Number (Z.of_nat (List.length items))
        | Str s => Number (Z.of_nat (String.length s))
        | _ => Undefined
        end
      else Undefined
  end.

(** What a [throw] carries: an [Error] (with its message) or some other
    object, such as the event a failing FileReader rejects with. *)
Inductive exn : Type :=
| JsError (message : string)
| NotAnError.

Inductive completion (A : Type) : Type :=
| Normal (a : A)
| Throw (e : exn).
Arguments Normal {A} a.
Arguments Throw {A} e.

(** Messages of the engine's own TypeErrors (V8's wording). *)
Definition cannot_read (v : value) (k : string) : exn :=
  JsError ("Cannot read properties of "
           ++ match v with Null => "null" | _ => "undefined" end
           ++ " (reading '" ++ k ++ "')").
Definition not_a_function (expr : string) : exn :=
  JsError (expr ++ " is not a function").
Definition cannot_convert : exn :=
  JsError "Cannot convert object to primitive value".

(** [v.k] *)
Definition get (v : value) (k : string) : completion value :=
  match v with
  | Undefined | Null => Throw (cannot_read v k)
  | _ => Normal (own v k)
  end.

(** [v?.k] *)
Definition get_opt (v : value) (k : string) : value :=
  match v with
  | Undefined | Null => Undefined
  | _ => own v k
  end.

(** ToString, as a template literal or [+] with a string applies it.
    An array joins its elements (null and undefined as empty text); an
    object prints as [[object Object]] unless an own [toString] property,
    which is never callable here, hides the inherited method. *)
Fixpoint to_string (v : value) : option string :=
  match v with
  | Undefined => Some "undefined"
  | Null => Some "null"
  | Boolean true => Some "true"
  | Boolean false => Some "false"
  | Number z => Some (dec z)
  | Str s => Some s
  | Arr items =>
      option_map (join ",")
      ((fix elems (l : list value) : option (list string) :=
         match l with
         | [] => Some []
         | x :: l' =>
             match (match x with
                    | Undefined | Null => Some EmptyString
                    | _ => to_string x
                    end), elems l' with
             | Some s, Some r => Some (s :: r)
             | _, _ => None
             end
         end) items)
  | Obj props =>
      match lookup "toString" props with
      | Some _ => None
      | None => Some "[object Object]"
      end
  end.

Definition toString (v : value) : completion string :=
  match to_string v with
  | Some s => Normal s
  | None => Throw cannot_convert
  end.

End JS.

(* ================================================================== *)
(** ** [JSON.stringify] and [JSON.parse]                              *)
(* ================================================================== *)

Module JSON.
Import JS.

Definition hex_digit (n : nat) : string :=
  chr (if (n <? 10)%nat then 48 + n else 87 + n).

Definition escape_char (c : ascii) : string :=
  let n := code c in
  if (n =? 34)%nat then backslash ++ dquote
  else if (n =? 92)%nat then backslash ++ backslash
  else if (n =? 8)%nat then backslash ++ "b"
  else if (n =? 12)%nat then backslash ++ "f"
  else if (n =? 10)%nat then backslash ++ "n"
  else if (n =? 13)%nat then backslash ++ "r"
  else if (n =? 9)%nat then backslash ++ "t"
  else if (n <? 32)%nat
       then backslash ++ "u00" ++ hex_digit (n / 16) ++ hex_digit (n mod 16)
  else String c EmptyString.

Fixpoint escape (s : string) : string :=
  match s with
  | EmptyString => EmptyString
  | String c s' => escape_char c ++ escape s'
  end.

Definition quote (s : string) : string := dquote ++ escape s ++ dquote.

(** The text of a value.  [undefined] prints as [null] inside an array
    and drops its property from an object. *)
Fixpoint ser (v : value) : string :=
  match v with
  | Undefined | Null => "null"
  | Boolean true => "true"
  | Boolean false => "false"
  | Number z => dec z
  | Str s => quote s
  | Arr items =>
      "[" ++ join "," ((fix elems (l : list value) : list string :=
                          match l with
                          | [] => []
                          | x :: l' => ser x :: elems l'
                          end) items) ++ "]"
  | Obj props =>
      "{" ++ join "," ((fix members (l : list (string * value)) : list string :=
                          match l with
                          | [] => []
                          | (k, Undefined) :: l' => members l'
                          | (k, x) :: l' => (quote k ++ ":" ++ ser x) :: members l'
                          end) props) ++ "}"
  end.

(** [JSON.stringify(v)]; [None] is the [undefined] it returns for
    [undefined]. *)
Definition stringify (v : value) : option string :=
  match v with
  | Undefined => None
  | _ => Some (ser v)
  end.

Definition is_ws (c : ascii) : bool :=
  let n := code c in
  (n =? 32)%nat || (n =? 9)%nat || (n =? 10)%nat || (n =? 13)%nat.

Fixpoint skip_ws (s : string) : string :=
  match s with
  | EmptyString => EmptyString
  | String c s' => if is_ws c then skip_ws s' else s
  end.

Definition is_digit (c : ascii) : bool :=
  let n := code c in (48 <=? n)%nat && (n <=? 57)%nat.

(** The longest prefix of digits, and what follows it. *)
Fixpoint digits (s : string) : string * string :=
  match s with
  | EmptyString => (EmptyString, EmptyString)
  | String c s' =>
      if is_digit c then let (d, r) := digits s' in (String c d, r)
      else (EmptyString, s)
  end.

Fixpoint digits_value (acc : N) (d : string) : N :=
  match d with
  | EmptyString => acc
  | String c d' => digits_value (acc * 10 + N.of_nat (code c - 48)) d'
  end.

Definition hex_value (c : ascii) : option nat :=
  let n := code c in
  if (48 <=? n)%nat && (n <=? 57)%nat then Some (n - 48)
  else if (97 <=? n)%nat && (n <=? 102)%nat then Some (n - 87)
  else if (65 <=? n)%nat && (n <=? 70)%nat then Some (n - 55)
  else None.

Definition hex4 (a b c d : ascii) : option nat :=
  match hex_value a, hex_value b, hex_value c, hex_value d with
  | Some x, Some y, Some z, Some w => Some (((x * 16 + y) * 16 + z) * 16 + w)
  | _, _, _, _ => None
  end.

(** UTF-8 bytes of a code unit written as [\uXXXX] (a surrogate half is
    encoded by itself). *)
Definition utf8 (cp : nat) : string :=
  if (cp <? 128)%nat then chr cp
  else if (cp <? 2048)%nat then chr (192 + cp / 64) ++ chr (128 + cp mod 64)
  else chr (224 + cp / 4096) ++ chr (128 + (cp / 64) mod 64) ++ chr (128 + cp mod 64).

Definition unescape (e : ascii) : option nat :=
  let m := code e in
  if (m =? 34)%nat || (m =? 92)%nat || (m =? 47)%nat then Some m
  else if (m =? 98)%nat then Some 8
  else if (m =? 102)%nat then Some 12
  else if (m =? 110)%nat then Some 10
  else if (m =? 114)%nat then Some 13
  else if (m =? 116)%nat then Some 9
  else None.

(** A string literal after its opening quote: the text it denotes and
    the input after its closing quote. *)
Fixpoint string_body (s : string) : option (string * string) :=
  match s with
  | EmptyString => None
  | String c s' =>
      let n := code c in
      if (n =? 34)%nat then Some (EmptyString, s')
      else if (n =? 92)%nat then
        match s' with
        | EmptyString => None
        | String e s'' =>
            if (code e =? 117)%nat then
              match s'' with
              | String h1 (String h2 (String h3 (String h4 r))) =>
                  match hex4 h1 h2 h3 h4, string_body r with
                  | Some cp, Some (t, r') => Some (utf8 cp ++ t, r')
                  | _, _ => None
                  end
              | _ => None
              end
            else
              match unescape e, string_body s'' with
              | Some x, Some (t, r') => Some (chr x ++ t, r')
              | _, _ => None
              end
        end
      else if (n <? 32)%nat then None
      else
        match string_body s' with
        | Some (t, r') => Some (String c t, r')
        | None => None
        end
  end.

(** A number literal.  Only integers are values of this model: a
    literal with a fraction or an exponent is not read. *)
Definition number (s : string) : option (Z * string) :=
  let (negative, s1) :=
    match s with
    | String c r => if Ascii.eqb c "-" then (true, r) else (false, s)
    | EmptyString => (false, s)
    end in
  let (d, rest) := digits s1 in
  match d with
  | EmptyString => None
  | String hd tl =>
      if Ascii.eqb hd "0" && negb (String.eqb tl EmptyString) then None
      else
        let z := Z.of_N (digits_value 0 d) in
        let z := if negative then (- z)%Z else z in
        match rest with
        | String c _ =>
            if Ascii.eqb c "." || Ascii.eqb c "e" || Ascii.eqb c "E" then None
            else Some (z, rest)
        | EmptyString => Some (z, rest)
        end
  end.

(** An array index: a canonical numeral below 2^32 - 1.  Such keys are
    enumerated first, in ascending order. *)
Definition array_index (k : string) : option N :=
  match digits k with
  | (String hd tl, EmptyString) =>
      if Ascii.eqb hd "0" && negb (String.eqb tl EmptyString) then None
      else
        let n := digits_value 0 k in
        if (n <? 4294967295)%N then Some n else None
  | _ => None
  end.

Fixpoint replace_prop (k : string) (v : value) (l : list (string * value))
  : list (string * value) :=
  match l with
  | [] => []
  | (k', v') :: l' =>
      if String.eqb k k' then (k', v) :: l' else (k', v') :: replace_prop k v l'
  end.

Fixpoint place_index (n : N) (k : string) (v : value) (l : list (string * value))
  : list (string * value) :=
  match l with
  | [] => [(k, v)]
  | (k', v') :: l' =>
      match array_index k' with
      | Some m => if (m <? n)%N then (k', v') :: place_index n k v l' else (k, v) :: l
      | None => (k, v) :: l
      end
  end.

(** CreateDataProperty on the object under construction: a repeated
    key keeps its place and takes the later value. *)
Definition define (k : string) (v : value) (l : list (string * value))
  : list (string * value) :=
  match lookup k l with
  | Some _ => replace_prop k v l
  | None =>
      match array_index k with
      | Some n => place_index n k v l
      | None => (l ++ [(k, v)])%list
      end
  end.

Definition literal (word : string) (v : value) (s : string) : option (value * string) :=
  match strip_prefix word s with
  | Some r => Some (v, r)
  | None => None
  end.

(** Recursive descent; [fuel] bounds the depth of calls. *)
Fixpoint parse_value (fuel : nat) (s : string) : option (value * string) :=
  match fuel with
  | O => None
  | S fuel' =>
      match skip_ws s with
      | EmptyString => None
      | String c r as t =>
          let n := code c in
          if (n =? 110)%nat then literal "null" Null t
          else if (n =? 116)%nat then literal "true" (Boolean true) t
          else if (n =? 102)%nat then literal "false" (Boolean false) t
          else if (n =? 34)%nat then
            match string_body r with
            | Some (x, r') => Some (Str x, r')
            | None => None
            end
          else if (n =? 91)%nat then
            match skip_ws r with
            | EmptyString => None
            | String c2 r2 =>
                if (code c2 =? 93)%nat then Some (Arr [], r2)
                else
                  match parse_elements fuel' r with
                  | Some (items, r') => Some (Arr items, r')
                  | None => None
                  end
            end
          else if (n =? 123)%nat then
            match skip_ws r with
            | EmptyString => None
            | String c2 r2 =>
                if (code c2 =? 125)%nat then Some (Obj [], r2)
                else
                  match parse_members fuel' [] r with
                  | Some (props, r') => Some (Obj props, r')
                  | None => None
                  end
            end
          else
            match number t with
            | Some (z, r') => Some (Number z, r')
            | None => None
            end
      end
  end
with parse_elements (fuel : nat) (s : string) : option (list value * string) :=
  match fuel with
  | O => None
  | S fuel' =>
      match parse_value fuel' s with
      | None => None
      | Some (v, r) =>
          match skip_ws r with
          | EmptyString => None
          | String c r' =>
              if (code c =? 44)%nat then
                match parse_elements fuel' r' with
                | Some (vs, r'') => Some (v :: vs, r'')
                | None => None
                end
              else if (code c =? 93)%nat then Some ([v], r')
              else None
          end
      end
  end
with parse_members (fuel : nat) (acc : list (string * value)) (s : string)
  : option (list (string * value) * string) :=
  match fuel with
  | O => None
  | S fuel' =>
      match skip_ws s with
      | EmptyString => None
      | String c r =>
          if negb (code c =? 34)%nat then None
          else
            match string_body r with
            | None => None
            | Some (k, r1) =>
                match skip_ws r1 with
                | EmptyString => None
                | String c1 r2 =>
                    if negb (code c1 =? 58)%nat then None
                    else
                      match parse_value fuel' r2 with
                      | None => None
                      | Some (v, r3) =>
                          let acc' := define k v acc in
                          match skip_ws r3 with
                          | EmptyString => None
                          | String c3 r4 =>
                              if (code c3 =? 44)%nat then parse_members fuel' acc' r4
                              else if (code c3 =? 125)%nat then Some (acc', r4)
                              else None
                          end
                      end
                end
            end
      end
  end.

(** [JSON.parse(s)]; [None] is the SyntaxError.  Every call in the
    chain consumes a character at least every second step, so twice the
    length is fuel enough. *)
Definition parse (s : string) : option value :=
  match parse_value (2 * String.length s + 2) s with
  | Some (v, r) =>
      match skip_ws r with
      | EmptyString => Some v
      | _ => None
      end
  | None => None
  end.

End JSON.


(* ================================================================== *)
(** ** Numbers, and the progress animation of [Home]                  *)
(* ================================================================== *)

Module Animation.

(** JavaScript numbers here are IEEE 754 binary64 values, rounded to
    nearest-even by every operation. *)
Definition number : Type := spec_float.

Definition prec : Z := 53.
Definition emax : Z := 1024.

(** The number [m * 2^e]. *)
Definition scaled (m e : Z) : number := binary_normalize prec emax m e false.
Definition integer (z : Z) : number := scaled z 0.

Definition plus : number -> number -> number := SFadd prec emax.
Definition minus : number -> number -> number := SFsub prec emax.
Definition divide : number -> number -> number := SFdiv prec emax.

(** [a < b] and [a >= b]; both are false when an operand is NaN. *)
Definition lt (a b : number) : bool := SFltb a b.
Definition ge (a b : number) : bool := SFleb b a.

Definition is_nan (x : number) : bool :=
  match x with S754_nan => true | _ => false end.

(** [Math.max(a, b)] and [Math.min(a, b)]: NaN if an operand is NaN;
    of two zeros, the positive one is the larger. *)
Definition Math_max (a b : number) : number :=
  if is_nan a || is_nan b then S754_nan
  else if lt a b then b
  else if lt b a then a
  else match a with S754_zero true => b | _ => a end.

Definition Math_min (a b : number) : number :=
  if is_nan a || is_nan b then S754_nan
  else if lt b a then b
  else if lt a b then a
  else match a with S754_zero false => b | _ => a end.

(** The table [messages] of [startProgressAnimation]. *)
Definition messages : list (number * string) :=
  [ (integer 0, "Uploading your image");
    (integer 20, "Doing science");
    (integer 40, "Doing quality assessment");
    (integer 60, "Almost done...");
    (integer 80, "Anytime now...") ].

Definition maxProgress : number := integer 95.

(** [for (let i = messages.length - 1; i >= 0; i--)]: the message of
    the last threshold reached, if any. *)
Fixpoint last_reached (descending : list (number * string)) (currentProgress : number)
  : option string :=
  match descending with
  | [] => None
  | (threshold, message) :: rest =>
      if ge currentProgress threshold then Some message
      else last_reached rest currentProgress
  end.

(** What one call of the interval callback does: it clears the
    interval, or it calls [setProgressValue] and possibly
    [setProgressMessage]. *)
Inductive Painting : Type :=
| Cleared
| Painted (progressValue : number) (progressMessage : option string).

(** The callback of [setInterval], on the variable [currentProgress] of
    its closure: the new value of the variable and what was done. *)
Definition callback (currentProgress : number) : number * Painting :=
  if ge currentProgress maxProgress then (currentProgress, Cleared)
  else
    let increment :=
      Math_max (scaled 1 (-1)) (divide (minus maxProgress currentProgress) (integer 20)) in
    let currentProgress := Math_min maxProgress (plus currentProgress increment) in
    (currentProgress, Painted currentProgress (last_reached (rev messages) currentProgress)).

(** The first [k] calls of the callback, every 200 ms, from the value
    [currentProgress] of the variable. *)
Fixpoint calls (k : nat) (currentProgress : number) : list Painting :=
  match k with
  | O => []
  | S k' =>
      let (next, painting) := callback currentProgress in
      painting :: calls k' next
  end.

(** The variable [currentProgress] after [k] calls. *)
Fixpoint progressed (k : nat) (currentProgress : number) : number :=
  match k with
  | O => currentProgress
  | S k' => progressed k' (fst (callback currentProgress))
  end.

(** The run of an interval nothing else clears: [let currentProgress =
    0] and then the calls. *)
Definition animation (k : nat) : list Painting := calls k (integer 0).

Definition painted_message (p : Painting) : option string :=
  match p with
  | Painted _ m => m
  | Cleared => None
  end.

Fixpoint increasing (l : list number) : bool :=
  match l with
  | a :: ((b :: _) as rest) => lt a b && increasing rest
  | _ => true
  end.

Fixpoint values (l : list Painting) : list number :=
  match l with
  | [] => []
  | Painted v _ :: rest => v :: values rest
  | Cleared :: rest => values rest
  end.

End Animation.

(* ================================================================== *)
(** ** The world outside and the monad of effects                     *)
(* ================================================================== *)

Module Eff.
Import JS.

(** An uploaded file, by its name. *)
Definition File : Type := string.

Record Blob : Type := { blob_type : string }.

(** An HTTP response: its status and its body read as JSON ([None]: the
    body is not JSON). *)
Record Response : Type := { status : Z; json : option value }.

(** [response.ok] *)
Definition ok (r : Response) : bool :=
  (200 <=? status r)%Z && (status r <=? 299)%Z.

(** The multipart form of one image-edit request. *)
Record FormData : Type := {
  form_model : string;
  form_prompt : string;
  form_n : string;
  form_size : string;
  form_image : Blob
}.

(** Everything the program cannot decide itself.  Each answer may
    depend on the request and on [tick], the number of questions asked so
    far.  Three fields belong to the platform rather than to the network:
    [toLowerCase] is [String.prototype.toLowerCase], whose Unicode tables
    are not part of the program; [body_used] is the message of the
    TypeError with which [response.text()] rejects once the body has been
    read, which every engine words in its own way; [interval_calls i j] is
    the number of times the callback of the interval with handle [i] is
    called during the [j]-th wait of the handler that started it. *)
Record Env : Type := {
  VITE_OPENAI_API_KEY : option string;
  chat_completions_create : nat -> string -> completion value;
  readAsDataURL : nat -> File -> completion string;
  fetch_blob : nat -> string -> completion (option Blob);
  fetch_post : nat -> FormData -> completion Response;
  fetch_get : nat -> string -> completion Response;
  Date_now : nat -> Z;
  Math_random : nat -> string;
  toLowerCase : string -> string;
  body_used : string;
  interval_calls : nat -> nat -> nat
}.

(** What an observer of the network and of the timers sees. *)
Inductive Event : Type :=
| ChatRequested (content : string)
| FileRead (f : File)
| BlobFetched (url : string)
| Posted (form : FormData) (answer : completion Response)
| Got (url : string)
| Slept (ms : Z).

Inductive Step : Type := INPUT | GENERATION.

Record GeneratedAd : Type := {
  id : string;
  imageUrl : value;
  rating : option Z;
  adType : option string;
  isRegenerating : option bool
}.

(** The timers the component has started, in the order of their
    start; the place of a timer in the list is its handle.  A running
    interval of [startProgressAnimation] holds the variable
    [currentProgress] of its closure; a timeout that is pending will
    clear the loading flag; [Done] is a timeout that has fired or an
    interval that has cleared itself. *)
Inductive Timer : Type :=
| ProgressAnimation (currentProgress : Animation.number)
| ClearLoading (ms : Z)
| Done.

(** The React state of [Home]. *)
Record Session : Type := {
  currentStep : Step;
  productDescription : string;
  productImage : option File;
  generatedAds : list GeneratedAd;
  generationError : option string;
  isGenerating : bool;
  progressValue : Animation.number;
  progressMessage : string;
  timers : list Timer
}.

Record State : Type := { tick : nat; ui : Session }.

Record Outcome (A : Type) : Type := Out {
  result : completion A;
  final : State;
  log : list Event
}.
Arguments Out {A} result final log.
Arguments result {A} o.
Arguments final {A} o.
Arguments log {A} o.

Definition M (A : Type) : Type := State -> Outcome A.

Definition ret {A : Type} (a : A) : M A := fun s => Out (Normal a) s [].

Definition throw {A : Type} (e : exn) : M A := fun s => Out (Throw e) s [].

Definition lift {A : Type} (c : completion A) : M A := fun s => Out c s [].

Definition bind {A B : Type} (m : M A) (k : A -> M B) : M B :=
  fun s =>
    let o := m s in
    match result o with
    | Normal a =>
        let o' := k a (final o) in
        Out (result o') (final o') (log o ++ log o')%list
    | Throw e => Out (Throw e) (final o) (log o)
    end.

(** [try { m } catch (e) { h e }] *)
Definition try_catch {A : Type} (m : M A) (h : exn -> M A) : M A :=
  fun s =>
    let o := m s in
    match result o with
    | Normal a => o
    | Throw e =>
        let o' := h e (final o) in
        Out (result o') (final o') (log o ++ log o')%list
    end.

Declare Scope eff_scope.
Delimit Scope eff_scope with eff.
Bind Scope eff_scope with M.
Notation "x <- m ;; k" := (bind m (fun x => k))
  (at level 61, m at next level, right associativity) : eff_scope.
Notation "m ;;; k" := (bind m (fun _ => k))
  (at level 61, right associativity) : eff_scope.

(** One question to the world: answered by [tick], which then
    advances; [ev] is what an observer sees of it. *)
Definition ask {A : Type} (answer : nat -> completion A)
  (ev : completion A -> list Event) : M A :=
  fun s =>
    let a := answer (tick s) in
    Out a {| tick := S (tick s); ui := ui s |} (ev a).

Definition update (f : Session -> Session) : M unit :=
  fun s => Out (Normal tt) {| tick := tick s; ui := f (ui s) |} [].

Definition session : M Session := fun s => Out (Normal (ui s)) s [].

(** The completion monad of pure code that may throw. *)
Definition and_then {A B : Type} (c : completion A) (k : A -> completion B)
  : completion B :=
  match c with
  | Normal a => k a
  | Throw e => Throw e
  end.

End Eff.

(* ================================================================== *)
(** ** [src/services/openaiService.ts]                                *)
(* ================================================================== *)

Module OpenaiService.
Import JS Eff.
Local Open Scope eff_scope.

Section Service.
Variable env : Env.

(** [!apiKey] is false *)
Definition configured (apiKey : option string) : bool :=
  match apiKey with
  | Some k => negb (String.eqb k EmptyString)
  | None => false
  end.

Definition not_configured : exn := JsError "OpenAI API key is not configured".

Definition enhance_instruction : string :=
  "Explain this prompt in more detail, to help an image model create a high quality image. This prompt will be fed into the image model for creation. Only return your detailed prompt and nothing else."
  ++ nl ++ nl.

(** [openai.chat.completions.create({...})] *)
Definition create_completion (content : string) : M value :=
  ask (fun t => chat_completions_create env t content)
      (fun _ => [ChatRequested content]).

(** [content?.trim()] *)
Definition trim_opt (content : value) : completion value :=
  match content with
  | Undefined | Null => Normal Undefined
  | Str s => Normal (Str (trim s))
  | _ => Throw (not_a_function "response.choices[0]?.message?.content?.trim")
  end.

Definition enhancePrompt (userPrompt : string) : M string :=
  let apiKey := VITE_OPENAI_API_KEY env in
  if negb (configured apiKey) then throw not_configured
  else
    try_catch
      (response <- create_completion (enhance_instruction ++ userPrompt) ;;
       choices <- lift (get response "choices") ;;
       choice <- lift (get choices "0") ;;
       trimmed <- lift (trim_opt (get_opt (get_opt choice "message") "content")) ;;
       let enhancedPrompt :=
         match trimmed with
         | Str s => if truthy trimmed then s else userPrompt
         | _ => userPrompt
         end in
       ret enhancedPrompt)
      (fun error => ret userPrompt).

(** [(await fetch(url)).blob()] *)
Definition fetch_as_blob (url : string) : M (option Blob) :=
  ask (fun t => fetch_blob env t url) (fun _ => [BlobFetched url]).

Definition fetchImageBlob (dataUrl : string) : M (option Blob) :=
  if startsWith dataUrl "data:" then fetch_as_blob dataUrl
  else if startsWith dataUrl "http" then fetch_as_blob dataUrl
  else fetch_as_blob ("data:image/png;base64," ++ dataUrl).

(** [typeof v === "string" && (v.startsWith("http") || v.startsWith("data:"))] *)
Definition looks_like_url (v : value) : bool :=
  match v with
  | Str s => startsWith s "http" || startsWith s "data:"
  | _ => false
  end.

(** The local [findUrls]; its [path] argument only feeds the console. *)
Fixpoint findUrls (obj : value) : list string :=
  match obj with
  | Arr items =>
      (fix each (l : list value) : list string :=
         match l with
         | [] => []
         | v :: l' =>
             (match v with
              | Str s => if looks_like_url v then [s] else []
              | Arr _ | Obj _ => findUrls v
              | _ => []
              end ++ each l')%list
         end) items
  | Obj props =>
      (fix each (l : list (string * value)) : list string :=
         match l with
         | [] => []
         | (_, v) :: l' =>
             (match v with
              | Str s => if looks_like_url v then [s] else []
              | Arr _ | Obj _ => findUrls v
              | _ => []
              end ++ each l')%list
         end) props
  | _ => []
  end.

Definition empty_data_array : exn :=
  JsError "API response contains empty data array".
Definition no_url_or_base64 : exn :=
  JsError "API response missing image data - no URL or base64 found".
Definition no_urls_in_response : exn :=
  JsError "API response missing image data - no URLs found in response".

(** The parser of a successful response (lines 244-340): the image it
    pushes on [imageUrls], or the error it throws. *)
Definition extractImage (data : value) : completion value :=
  and_then (get data "data") (fun d =>
  if truthy d && isArray d then
    let firstItem := own d "0" in
    if truthy firstItem then
      if truthy (own firstItem "url") then Normal (own firstItem "url")
      else if truthy (own firstItem "b64_json") then
        and_then (toString (own firstItem "b64_json")) (fun b64 =>
        Normal (Str ("data:image/png;base64," ++ b64)))
      else
        let possibleUrlProps :=
          filter (fun key => looks_like_url (own firstItem key)) (keys firstItem) in
        match possibleUrlProps with
        | key :: _ => Normal (own firstItem key)
        | [] => Throw no_url_or_base64
        end
    else Throw empty_data_array
  else
    match findUrls data with
    | url :: _ => Normal (Str url)
    | [] => Throw no_urls_in_response
    end).

(** The TypeError of [response.text()] on a body that [response.json()]
    has read already, in the wording of the platform. *)
Definition body_already_read : exn := JsError (body_used env).

(** The [try] around [response.json()] of a response that is not OK:
    the message and the details of the error to raise.  Its [catch]
    reads the body a second time, which the platform refuses. *)
Definition error_envelope (response : Response) : completion (value * value) :=
  let errorMessage := Str ("API request failed with status " ++ dec (status response)) in
  match
    match json response with
    | None => Throw (JsError "Unexpected token in JSON")
    | Some errorData =>
        and_then (get errorData "error") (fun e =>
        let m := get_opt e "message" in
        Normal (if truthy m then m else errorMessage, errorData))
    end
  with
  | Normal r => Normal r
  | Throw parseError => Throw body_already_read
  end.

Definition structured_error (message : value) (response : Response) (details : value)
  : exn :=
  JsError
    match JSON.stringify
            (Obj [("message", message);
                  ("status", Number (status response));
                  ("details", details)]) with
    | Some text => text
    | None => EmptyString
    end.

(** [Date.now()] *)
Definition now : M Z := ask (fun t => Normal (Date_now env t)) (fun _ => []).

(** [fetch(url, { method: "POST", headers, body: formData })] *)
Definition fetch_edits (form : FormData) : M Response :=
  ask (fun t => fetch_post env t form) (fun answer => [Posted form answer]).

Definition sleep (ms : Z) : M unit := fun s => Out (Normal tt) s [Slept ms].

(** One turn of the loop of [generateImages], up to the delay. *)
Definition requestImage (prompt originalImageUrl size : string) (i n : Z) : M value :=
  let variedPrompt :=
    prompt ++ " (Variation " ++ dec (i + 1) ++ " of " ++ dec n ++ ")" in
  try_catch
    (startTime <- now ;;
     imageBlob <- fetchImageBlob originalImageUrl ;;
     match imageBlob with
     | None => throw (JsError "Failed to convert image to blob")
     | Some blob =>
         response <- fetch_edits {| form_model := "gpt-image-1";
                                    form_prompt := variedPrompt;
                                    form_n := "1";
                                    form_size := size;
                                    form_image := blob |} ;;
         responseTime <- now ;;
         if negb (ok response) then
           envelope <- lift (error_envelope response) ;;
           throw (structured_error (fst envelope) response (snd envelope))
         else
           match json response with
           | None => throw (JsError "Failed to parse API response")
           | Some data => lift (extractImage data)
           end
     end)
    (fun error => throw error).

(** [for (let i = 0; i < n; i++)], with [k] turns left. *)
Fixpoint requests (k : nat) (prompt originalImageUrl size : string) (i n : Z)
  (imageUrls : list value) : M (list value) :=
  match k with
  | O => ret imageUrls
  | S k' =>
      image <- requestImage prompt originalImageUrl size i n ;;
      (if (i <? n - 1)%Z then sleep 1000 else ret tt) ;;;
      requests k' prompt originalImageUrl size (i + 1)%Z n (imageUrls ++ [image])%list
  end.

(** The message of the error [generateImages] finally throws. *)
Definition final_message (error : exn) : string :=
  match error with
  | JsError message =>
      match JSON.parse message with
      | Some parsedError =>
          match
            and_then (get parsedError "message") (fun m =>
            and_then (toString m) (fun mtext =>
            and_then (get parsedError "status") (fun st =>
            and_then (toString st) (fun sttext =>
            Normal (mtext ++ " (Status: " ++ sttext ++ ")")))))
          with
          | Normal text => text
          | Throw _ => message
          end
      | None => message
      end
  | NotAnError => "Failed to generate images"
  end.

Definition generateImages (prompt originalImageUrl : string) (n : Z)
  (size quality : string) : M (list value) :=
  let apiKey := VITE_OPENAI_API_KEY env in
  if negb (configured apiKey) then throw not_configured
  else
    try_catch
      (imageUrls <- requests (Z.to_nat n) prompt originalImageUrl size 0 n [] ;;
       if (List.length imageUrls =? 0)%nat
       then throw (JsError "Failed to generate any images")
       else ret imageUrls)
      (fun error => throw (JsError (final_message error))).

(** [fileToDataUrl(file)] *)
Definition fileToDataUrl (file : File) : M string :=
  ask (fun t => readAsDataURL env t file) (fun _ => [FileRead file]).

End Service.
End OpenaiService.


(* ================================================================== *)
(** ** The [Home] component: generation, rating, regeneration         *)
(* ================================================================== *)

Module Home.
Import JS Eff OpenaiService.
Local Open Scope eff_scope.

(** *** React state setters *)

Definition withGeneratedAds (f : list GeneratedAd -> list GeneratedAd) (u : Session)
  : Session :=
  {| currentStep := currentStep u;
     productDescription := productDescription u;
     productImage := productImage u;
     generatedAds := f (generatedAds u);
     generationError := generationError u;
     isGenerating := isGenerating u;
     progressValue := progressValue u;
     progressMessage := progressMessage u;
     timers := timers u |}.

Definition withInput (description : string) (image : File) (u : Session) : Session :=
  {| currentStep := currentStep u;
     productDescription := description;
     productImage := Some image;
     generatedAds := generatedAds u;
     generationError := generationError u;
     isGenerating := isGenerating u;
     progressValue := progressValue u;
     progressMessage := progressMessage u;
     timers := timers u |}.

Definition withCurrentStep (step : Step) (u : Session) : Session :=
  {| currentStep := step;
     productDescription := productDescription u;
     productImage := productImage u;
     generatedAds := generatedAds u;
     generationError := generationError u;
     isGenerating := isGenerating u;
     progressValue := progressValue u;
     progressMessage := progressMessage u;
     timers := timers u |}.

Definition withGenerationError (e : option string) (u : Session) : Session :=
  {| currentStep := currentStep u;
     productDescription := productDescription u;
     productImage := productImage u;
     generatedAds := generatedAds u;
     generationError := e;
     isGenerating := isGenerating u;
     progressValue := progressValue u;
     progressMessage := progressMessage u;
     timers := timers u |}.

Definition withIsGenerating (b : bool) (u : Session) : Session :=
  {| currentStep := currentStep u;
     productDescription := productDescription u;
     productImage := productImage u;
     generatedAds := generatedAds u;
     generationError := generationError u;
     isGenerating := b;
     progressValue := progressValue u;
     progressMessage := progressMessage u;
     timers := timers u |}.

Definition withProgress (v : Animation.number) (u : Session) : Session :=
  {| currentStep := currentStep u;
     productDescription := productDescription u;
     productImage := productImage u;
     generatedAds := generatedAds u;
     generationError := generationError u;
     isGenerating := isGenerating u;
     progressValue := v;
     progressMessage := progressMessage u;
     timers := timers u |}.

Definition withProgressMessage (m : string) (u : Session) : Session :=
  {| currentStep := currentStep u;
     productDescription := productDescription u;
     productImage := productImage u;
     generatedAds := generatedAds u;
     generationError := generationError u;
     isGenerating := isGenerating u;
     progressValue := progressValue u;
     progressMessage := m;
     timers := timers u |}.

Definition withTimers (f : list Timer -> list Timer) (u : Session) : Session :=
  {| currentStep := currentStep u;
     productDescription := productDescription u;
     productImage := productImage u;
     generatedAds := generatedAds u;
     generationError := generationError u;
     isGenerating := isGenerating u;
     progressValue := progressValue u;
     progressMessage := progressMessage u;
     timers := f (timers u) |}.

(** [setGeneratedAds(ads)] and [setGeneratedAds((prevAds) => f prevAds)] *)
Definition setGeneratedAds (f : list GeneratedAd -> list GeneratedAd) : M unit :=
  update (withGeneratedAds f).
Definition setCurrentStep (step : Step) : M unit := update (withCurrentStep step).
Definition setGenerationError (e : option string) : M unit :=
  update (withGenerationError e).
Definition setIsGenerating (b : bool) : M unit := update (withIsGenerating b).
Definition setProgressValue (v : Z) : M unit :=
  update (withProgress (Animation.integer v)).
Definition setProgressMessage (m : string) : M unit := update (withProgressMessage m).

(** [startProgressAnimation]: [let currentProgress = 0] and
    [setInterval(callback, 200)].  The function returns the clean-up of
    the interval, which its caller drops; the model returns the handle of
    the interval, by which the waits of the caller name it. *)
Definition startProgressAnimation : M nat :=
  u <- session ;;
  update (withTimers (fun l => l ++ [ProgressAnimation (Animation.integer 0)])%list) ;;;
  ret (List.length (timers u)).

(** [setTimeout(() => setIsGenerating(false), ms)] *)
Definition setTimeout_clearLoading (ms : Z) : M unit :=
  update (withTimers (fun l => l ++ [ClearLoading ms])%list).

Fixpoint replace_timer (i : nat) (t : Timer) (l : list Timer) : list Timer :=
  match l, i with
  | [], _ => []
  | _ :: rest, O => t :: rest
  | x :: rest, S i' => x :: replace_timer i' t rest
  end.

(** One call of the callback of the timer with handle [i].  An
    interval runs the callback of [startProgressAnimation] on its
    variable: it clears itself, or it paints the value and, when a
    threshold is reached, the message.  A timeout clears the loading
    flag.  A handle that is free or done does nothing. *)
Definition fire (i : nat) (u : Session) : Session :=
  match nth_error (timers u) i with
  | Some (ProgressAnimation currentProgress) =>
      match Animation.callback currentProgress with
      | (_, Animation.Cleared) => withTimers (replace_timer i Done) u
      | (next, Animation.Painted progressValue progressMessage) =>
          withTimers (replace_timer i (ProgressAnimation next))
            (match progressMessage with
             | Some message => withProgressMessage message
             | None => fun u' => u'
             end (withProgress progressValue u))
      end
  | Some (ClearLoading _) =>
      withTimers (replace_timer i Done) (withIsGenerating false u)
  | Some Done | None => u
  end.

(** The React state after the callbacks of the timers named in
    [schedule] have been called in that order, while no handler runs. *)
Definition elapse (schedule : list nat) (u : Session) : Session :=
  fold_left (fun u' i => fire i u') schedule u.

(** *** Built-in prompt configuration *)

Definition lines (l : list string) : string := join nl l.

Definition defaultBasePrompt (enhancedDescription : string) : string :=
  "Create a professional ecommerce ad for this product. The product description is: "
  ++ dquote ++ enhancedDescription ++ dquote
  ++ ". CRITICAL INSTRUCTION: The product must be the central focus of the ad and must maintain its exact appearance, colors, and design. Do not change any text on the product image uploaded.".

Definition generalRules : list string :=
  [ "";
    "General Rules:";
    "";
    "- Ensure the product is centered or attractively placed in the visual.";
    "- The image should be 1080x1080px.";
    "- Keep text concise and legible.";
    "- Use a font style that is unique to this ad." ].

Definition adTypeSpec (type prompt : string) : value :=
  Obj [("type", Str type); ("prompt", Str prompt)].

Definition creativeConcept : value :=
  adTypeSpec "Creative Concept Ad"
    (lines ([ ""; "";
              "1. Creative Concept Ad:";
              "- Generate a bold, imaginative visual concept using the product image.";
              "- The background and design should align with the product's theme and aesthetic.";
              "- Add a short, catchy headline or tagline that evokes curiosity or emotion.";
              "- Use a unique font style that fits the vibe of the concept." ]
            ++ generalRules)).

Definition benefitHighlight : value :=
  adTypeSpec "Benefit Highlight Ad"
    (lines ([ ""; "";
              "1. Benefit Highlight Ad:";
              "- Focus on showcasing 2–3 key benefits or features of the product.";
              "- Integrate supporting graphics or icons (if relevant) in the design.";
              "- Make the product the visual hero.";
              "- Use a clean and legible font style different from other ads." ]
            ++ generalRules)).

Definition ecommerceStyle : value :=
  adTypeSpec "Ecommerce-Style Ad"
    (lines ([ ""; "";
              "1. Ecommerce-Style Ad:";
              "- Make it suitable for a Shopify or Amazon-style ecommerce setting.";
              "- Use color palettes that complement the product (auto-match to image).";
              ("- Add CTA like " ++ dquote ++ "Buy Now" ++ dquote ++ " or "
                ++ dquote ++ "Limited Offer" ++ dquote ++ ".")%string;
              "- Do not add pricing, unless explicitly mentioned in the USER_DESCRIPTION.";
              "- Use a modern, commerce-friendly font style." ]
            ++ generalRules)).

Definition defaultAdTypes : list value :=
  [creativeConcept; benefitHighlight; ecommerceStyle].

(** The literal URL of the remote prompt configuration. *)
Definition gistUrl : string :=
  "https://gist.githubusercontent.com/sapsonic/b23aaf0bfd2d0c409364996e63ac8da4/raw/de27b05fbcec2bfe71f4179c50f43a6e16b5eb22/ad_prompt".

Definition fallbackAds : list GeneratedAd :=
  [ {| id := "1";
       imageUrl := Str "https://images.unsplash.com/photo-1542744173-8e7e53415bb0?w=800&q=80";
       rating := None;
       adType := Some "Creative Concept Ad";
       isRegenerating := None |};
    {| id := "2";
       imageUrl := Str "https://images.unsplash.com/photo-1557804506-669a67965ba0?w=800&q=80";
       rating := None;
       adType := Some "Benefit Highlight Ad";
       isRegenerating := None |};
    {| id := "3";
       imageUrl := Str "https://images.unsplash.com/photo-1661956602926-db6b25f75947?w=800&q=80";
       rating := None;
       adType := Some "Ecommerce-Style Ad";
       isRegenerating := None |} ].

(** *** Updaters of one ad, as the handlers write them with the spread
    syntax *)

Definition rated (r : Z) (ad : GeneratedAd) : GeneratedAd :=
  {| id := id ad; imageUrl := imageUrl ad; rating := Some r;
     adType := adType ad; isRegenerating := isRegenerating ad |}.

Definition marked (b : bool) (ad : GeneratedAd) : GeneratedAd :=
  {| id := id ad; imageUrl := imageUrl ad; rating := rating ad;
     adType := adType ad; isRegenerating := Some b |}.

Definition renewed (url : value) (ad : GeneratedAd) : GeneratedAd :=
  {| id := id ad; imageUrl := url; rating := None;
     adType := adType ad; isRegenerating := Some false |}.

(** [prevAds.map((ad) => (ad.id === id ? f ad : ad))] *)
Definition mapAd (target : string) (f : GeneratedAd -> GeneratedAd)
  (prevAds : list GeneratedAd) : list GeneratedAd :=
  map (fun ad => if String.eqb (id ad) target then f ad else ad) prevAds.

(** [handleRateAd] *)
Definition handleRateAd (target : string) (r : Z) : M unit :=
  setGeneratedAds (mapAd target (rated r)).

Section Component.
Variable env : Env.

(** The URL the regeneration reads the remote configuration from.  The
    source holds both sides of an unresolved merge here (lines 377-382
    and 429-434): [import.meta.env.VITE_PROMPT_CONFIG_URL], which may be
    unset, or the literal [gistUrl].  Either is an instance. *)
Variable regenerationPromptUrl : option string.

(** [fetch(url)] *)
Definition fetch (url : string) : M Response :=
  ask (fun t => fetch_get env t url) (fun _ => [Got url]).

(** [Math.random()] inside a template literal: its decimal text. *)
Definition random : M string :=
  ask (fun t => Normal (Math_random env t)) (fun _ => []).

(** [await response.json()] *)
Definition response_json (response : Response) : M value :=
  match json response with
  | Some v => ret v
  | None => throw (JsError "Unexpected token in JSON")
  end.

(** [if (externalConfig.basePrompt) basePrompt =
    externalConfig.basePrompt.replace("{DESCRIPTION}", description)] *)
Definition overrideBasePrompt (externalConfig : value) (description basePrompt : string)
  : completion string :=
  and_then (get externalConfig "basePrompt") (fun b =>
  if truthy b then
    match b with
    | Str template => Normal (replace template "{DESCRIPTION}" description)
    | _ => Throw (not_a_function "externalConfig.basePrompt.replace")
    end
  else Normal basePrompt).

(** [if (externalConfig.adTypes && Array.isArray(externalConfig.adTypes))
    adTypes = externalConfig.adTypes] *)
Definition overrideAdTypes (externalConfig : value) (adTypes : list value)
  : completion (list value) :=
  and_then (get externalConfig "adTypes") (fun a =>
  if truthy a && isArray a then
    match a with
    | Arr items => Normal items
    | _ => Normal adTypes
    end
  else Normal adTypes).

(** The two assignments of lines 212-223 on the local variables
    [basePrompt] and [adTypes]; an assignment made before a throw
    stays. *)
Definition overlay (externalConfig : value) (description : string)
  (config : string * list value) : completion (string * list value) * (string * list value) :=
  match overrideBasePrompt externalConfig description (fst config) with
  | Throw e => (Throw e, config)
  | Normal basePrompt =>
      match overrideAdTypes externalConfig (snd config) with
      | Throw e => (Throw e, (basePrompt, snd config))
      | Normal adTypes => (Normal (basePrompt, adTypes), (basePrompt, adTypes))
      end
  end.

(** Lines 181-231 of [generateAdVariations]: the built-in configuration
    and the [try] that lays the remote one over it.  The result is the
    pair of the local variables [basePrompt] and [adTypes] after the
    [try]; its [catch] only writes a warning. *)
Definition resolvePromptConfig (enhancedDescription : string)
  : M (string * list value) :=
  let builtin := (defaultBasePrompt enhancedDescription, defaultAdTypes) in
  try_catch
    (response <- fetch gistUrl ;;
     if ok response then
       externalConfig <- response_json response ;;
       ret (snd (overlay externalConfig enhancedDescription builtin))
     else ret builtin)
    (fun error => ret builtin).

(** [adType.type.toLowerCase()] *)
Definition lowered (type : value) : completion string :=
  match type with
  | Str s => Normal (toLowerCase env s)
  | Undefined | Null => Throw (cannot_read type "toLowerCase")
  | _ => Throw (not_a_function "adType.type.toLowerCase")
  end.

(** The text of [adType.type] once it is known to be a string. *)
Definition label (type : value) : string :=
  match type with Str s => s | _ => EmptyString end.

(** [`gen-${Date.now()}-${adType.type.toLowerCase().replace(/\s+/g, "-")}`] *)
Definition ad_id (timestamp : Z) (lowercase : string) : string :=
  "gen-" ++ dec timestamp ++ "-" ++ replace_spaces_by_dash lowercase.

(** One turn of the loop over [adTypes] (lines 240-260): the ad it
    pushes, if any. *)
Definition generateAd (basePrompt imageDataUrl : string) (adType : value)
  : M (option GeneratedAd) :=
  type <- lift (get adType "type") ;;
  lift (toString type) ;;;
  prompt <- lift (and_then (get adType "prompt") toString) ;;
  let fullPrompt := basePrompt ++ prompt in
  generatedImageUrls <- generateImages env fullPrompt imageDataUrl 1 "1024x1024" "hd" ;;
  if (0 <? List.length generatedImageUrls)%nat then
    timestamp <- now env ;;
    lowercase <- lift (lowered type) ;;
    ret (Some {| id := ad_id timestamp lowercase;
                 imageUrl := nth 0 generatedImageUrls Undefined;
                 rating := None;
                 adType := Some (label type);
                 isRegenerating := None |})
  else ret None.

(** [for (const adType of adTypes)] *)
Fixpoint generateAds (basePrompt imageDataUrl : string) (adTypes : list value)
  (generatedAds : list GeneratedAd) : M (list GeneratedAd) :=
  match adTypes with
  | [] => ret generatedAds
  | adType :: rest =>
      ad <- generateAd basePrompt imageDataUrl adType ;;
      generateAds basePrompt imageDataUrl rest
        (generatedAds ++ match ad with Some a => [a] | None => [] end)%list
  end.

(** [error instanceof Error ? error.message : otherwise] *)
Definition message_or (otherwise : string) (error : exn) : string :=
  match error with
  | JsError message => message
  | NotAnError => otherwise
  end.

(** What an [await] of [generateAdVariations] lets happen: while the
    handler waits for [m], the callback of its interval is called as
    often as the world says.  A call that asked nothing of the world
    settles in a microtask, before any timer can fire; timers left by
    earlier handlers are not followed while a handler runs. *)
Definition awaiting {A : Type} (interval j : nat) (m : M A) : M A :=
  fun s =>
    let o := m s in
    if (tick (final o) =? tick s)%nat then o
    else
      Out (result o)
          {| tick := tick (final o);
             ui := Nat.iter (interval_calls env interval j) (fire interval) (ui (final o)) |}
          (log o).

(** [await import("../services/openaiService")]: the module is taken
    to load; the interval runs meanwhile. *)
Definition imported (interval : nat) : M unit :=
  update (Nat.iter (interval_calls env interval 0) (fire interval)).

Definition generateAdVariations (description : string) (image : File) : M unit :=
  try_catch
    (setIsGenerating true ;;;
     setGenerationError None ;;;
     setCurrentStep GENERATION ;;;
     setProgressValue 0 ;;;
     setProgressMessage "Enhancing your prompt" ;;;
     interval <- startProgressAnimation ;;
     imported interval ;;;
     setProgressMessage "Enhancing your description with AI" ;;;
     enhancedDescription <- awaiting interval 1 (enhancePrompt env description) ;;
     setProgressMessage "Uploading your image" ;;;
     imageDataUrl <- awaiting interval 2 (fileToDataUrl env image) ;;
     config <- awaiting interval 3 (resolvePromptConfig enhancedDescription) ;;
     try_catch
       (generatedAds <- awaiting interval 4
                          (generateAds (fst config) imageDataUrl (snd config) []) ;;
        setGeneratedAds (fun _ => generatedAds))
       (fun apiError =>
          let errorMessage :=
            message_or "Failed to generate images with OpenAI API" apiError in
          setGenerationError (Some errorMessage) ;;;
          setGeneratedAds (fun _ => fallbackAds)) ;;;
     setProgressValue 100 ;;;
     setProgressMessage "Complete!" ;;;
     setTimeout_clearLoading 500)
    (fun error =>
       setGenerationError (Some (message_or "Failed to generate ad variations" error)) ;;;
       setIsGenerating false).

Definition handleInputSubmit (description : string) (image : File) : M unit :=
  update (withInput description image) ;;;
  generateAdVariations description image.

(** *** Regeneration *)

(** [if (promptUrl) { const response = await fetch(promptUrl);
    if (response.ok) { const externalConfig = await response.json(); k } }]
    inside its [try]/[catch]: the value [k] assigns, or [current]. *)
Definition refetch {A : Type} (current : A) (k : value -> completion A) : M A :=
  match regenerationPromptUrl with
  | Some promptUrl =>
      if String.eqb promptUrl EmptyString then ret current
      else
        try_catch
          (response <- fetch promptUrl ;;
           if ok response then
             externalConfig <- response_json response ;;
             lift (k externalConfig)
           else ret current)
          (fun error => ret current)
  | None => ret current
  end.

(** [currentAdTypes.find((at) => at.type === adType)] *)
Fixpoint findAdType (adType : string) (currentAdTypes : list value)
  : completion (option value) :=
  match currentAdTypes with
  | [] => Normal None
  | at_ :: rest =>
      and_then (get at_ "type") (fun t =>
      match t with
      | Str s => if String.eqb s adType then Normal (Some at_) else findAdType adType rest
      | _ => findAdType adType rest
      end)
  end.

Definition creativity : string :=
  nl ++ nl ++ "- Make it slightly more creative.".

(** The [try] block of lines 345-485: [true] when it ends in the
    [return] after a successful update. *)
Definition regenerateWithApi (target : string) (adToRegenerate : GeneratedAd)
  (productImage : File) (productDescription : string) : M bool :=
  imageDataUrl <- fileToDataUrl env productImage ;;
  let adType :=
    match adType adToRegenerate with
    | Some t => if String.eqb t EmptyString then "Creative Concept Ad" else t
    | None => "Creative Concept Ad"
    end in
  currentAdTypes <- refetch defaultAdTypes
                      (fun externalConfig => overrideAdTypes externalConfig defaultAdTypes) ;;
  found <- lift (findAdType adType currentAdTypes) ;;
  let adTypeConfig :=
    match found with
    | Some at_ => at_
    | None => adTypeSpec adType EmptyString
    end in
  configured_prompt <- lift (toString (own adTypeConfig "prompt")) ;;
  let adTypeWithCreativity_prompt := configured_prompt ++ creativity in
  enhancedProductDescription <- enhancePrompt env productDescription ;;
  let builtin := defaultBasePrompt enhancedProductDescription in
  currentBasePrompt <- refetch builtin
                         (fun externalConfig =>
                            overrideBasePrompt externalConfig
                              enhancedProductDescription builtin) ;;
  let specificPrompt := currentBasePrompt ++ adTypeWithCreativity_prompt in
  generatedImageUrls <- generateImages env specificPrompt imageDataUrl 1 "1024x1024" "hd" ;;
  if (0 <? List.length generatedImageUrls)%nat then
    setGeneratedAds (mapAd target (renewed (nth 0 generatedImageUrls Undefined))) ;;;
    ret true
  else ret false.

Definition placeholderUrl (r : string) : value :=
  Str ("https://images.unsplash.com/photo-1611162617213-7d7a39e9b1d7?w=800&q=80&random=" ++ r).

(** The fallback updater of lines 493-505; [Math.random()] is drawn
    inside the callback, once for every ad it rewrites. *)
Fixpoint placeholders (target : string) (prevAds : list GeneratedAd)
  : M (list GeneratedAd) :=
  match prevAds with
  | [] => ret []
  | ad :: rest =>
      ad' <- (if String.eqb (id ad) target
              then r <- random ;; ret (renewed (placeholderUrl r) ad)
              else ret ad) ;;
      rest' <- placeholders target rest ;;
      ret (ad' :: rest')
  end.

Definition handleRegenerateAd (target : string) : M unit :=
  try_catch
    (closure <- session ;;
     match List.find (fun ad => String.eqb (id ad) target) (generatedAds closure) with
     | None => ret tt
     | Some adToRegenerate =>
         setGeneratedAds (mapAd target (marked true)) ;;;
         returned <-
           match productImage closure with
           | Some image =>
               if negb (String.eqb (productDescription closure) EmptyString) then
                 try_catch
                   (regenerateWithApi target adToRegenerate image
                      (productDescription closure))
                   (fun error => ret false)
               else ret false
           | None => ret false
           end ;;
         if returned then ret tt
         else
           now_ <- session ;;
           ads <- placeholders target (generatedAds now_) ;;
           setGeneratedAds (fun _ => ads)
     end)
    (fun error => setGeneratedAds (mapAd target (marked false))).

End Component.
End Home.

(* ================================================================== *)
(** ** [src/components/GenerationGallery.tsx]                         *)
(* ================================================================== *)

Module GenerationGallery.
Import JS Eff.

(** The state [hoveredRatings]: a [Record<string, number>], held as its
    own properties.  The component reads it by key only, so the order of
    the properties is never seen. *)
Definition HoveredRatings : Type := list (string * Z).

(** [{ ...prev, [adId]: rating }] *)
Fixpoint assign (adId : string) (rating : Z) (prev : HoveredRatings) : HoveredRatings :=
  match prev with
  | [] => [(adId, rating)]
  | (k, r) :: rest =>
      if String.eqb k adId then (k, rating) :: rest
      else (k, r) :: assign adId rating rest
  end.

(** [delete newState[adId]] on the copy [{ ...prev }] *)
Definition without (adId : string) (prev : HoveredRatings) : HoveredRatings :=
  filter (fun entry => negb (String.eqb (fst entry) adId)) prev.

(** [handleRatingHover] and [handleRatingLeave], as the updaters they
    pass to [setHoveredRatings]. *)
Definition handleRatingHover (adId : string) (rating : Z) (prev : HoveredRatings)
  : HoveredRatings := assign adId rating prev.

Definition handleRatingLeave (adId : string) (prev : HoveredRatings) : HoveredRatings :=
  without adId prev.

(** The property names every plain object inherits from
    [Object.prototype]. *)
Definition object_prototype : list string :=
  [ "constructor"; "hasOwnProperty"; "isPrototypeOf"; "propertyIsEnumerable";
    "toLocaleString"; "toString"; "valueOf"; "__proto__";
    "__defineGetter__"; "__defineSetter__"; "__lookupGetter__"; "__lookupSetter__" ].

Definition inherited (k : string) : bool := existsb (String.eqb k) object_prototype.

(** [hoveredRatings[ad.id]]: an own property, a function or object of
    the prototype, or [undefined]. *)
Inductive Reading : Type :=
| Hovered (rating : Z)
| Inherited
| Missing.

Fixpoint own_rating (k : string) (h : HoveredRatings) : option Z :=
  match h with
  | [] => None
  | (k', r) :: rest => if String.eqb k' k then Some r else own_rating k rest
  end.

Definition read (h : HoveredRatings) (k : string) : Reading :=
  match own_rating k h with
  | Some r => Hovered r
  | None => if inherited k then Inherited else Missing
  end.

(** [ad.rating || 0] *)
Definition rating_or_zero (ad : GeneratedAd) : Z :=
  match rating ad with
  | Some r => if (r =? 0)%Z then 0%Z else r
  | None => 0%Z
  end.

(** The test that paints a star yellow:
    [hoveredRatings[ad.id] !== undefined ? star <= hoveredRatings[ad.id]
                                         : star <= (ad.rating || 0)].
    A number never is at most a function or an object of the
    prototype. *)
Definition starFilled (h : HoveredRatings) (ad : GeneratedAd) (star : Z) : bool :=
  match read h (id ad) with
  | Hovered r => (star <=? r)%Z
  | Inherited => false
  | Missing => (star <=? rating_or_zero ad)%Z
  end.

(** [[1, 2, 3, 4, 5].map((star) => ...)] *)
Definition stars : list Z := [1; 2; 3; 4; 5]%Z.

Definition filledStars (h : HoveredRatings) (ad : GeneratedAd) : list Z :=
  filter (starFilled h ad) stars.

(** [disabled={ad.isRegenerating}] of the two buttons of a card; the
    same test draws the spinner over the image. *)
Definition buttonsDisabled (ad : GeneratedAd) : bool :=
  match isRegenerating ad with
  | Some b => b
  | None => false
  end.

(** [handleRatingClick]: the click goes to the handler the parent
    passed as [onRateAd]. *)
Definition handleRatingClick {Handler : Type} (onRateAd : string -> Z -> Handler)
  (adId : string) (rating : Z) : Handler :=
  onRateAd adId rating.

End GenerationGallery.

(* ================================================================== *)
(** ** The [InputSection] component (with [AnalysisProgress.tsx])     *)
(* ================================================================== *)

Module InputSection.
Import JS Eff.

(** A dropped file: the handle the service reads later, with the two
    properties the validation looks at. *)
Record Dropped : Type := {
  file : File;
  file_type : string;
  file_size : Z
}.

(** The React state of the component. *)
Record Form : Type := {
  description : string;
  image : option Dropped;
  error : option string
}.

Definition empty : Form :=
  {| description := EmptyString; image := None; error := None |}.

(** [type.match("image/png")]: the string becomes a regular expression
    without special characters, which matches wherever the text
    occurs. *)
Definition matches (type pattern : string) : bool :=
  match find_first pattern type with
  | Some _ => true
  | None => false
  end.

Definition setError (e : option string) (st : Form) : Form :=
  {| description := description st; image := image st; error := e |}.

Definition setImage (f : Dropped) (st : Form) : Form :=
  {| description := description st; image := Some f; error := error st |}.

Definition setDescription (d : string) (st : Form) : Form :=
  {| description := d; image := image st; error := error st |}.

(** [15 * 1024 * 1024] *)
Definition sizeLimit : Z := (15 * 1024 * 1024)%Z.

(** [onDrop(acceptedFiles)]: the completion of the callback and the
    state it leaves. *)
Definition onDrop (acceptedFiles : list Dropped) (st : Form) : completion unit * Form :=
  let st := setError None st in
  match acceptedFiles with
  | [] => (Throw (cannot_read Undefined "type"), st)
  | f :: _ =>
      if negb (matches (file_type f) "image/png")
         && negb (matches (file_type f) "image/jpeg")
         && negb (matches (file_type f) "image/jpg")
      then (Normal tt, setError (Some "Please upload a valid PNG or JPEG image") st)
      else if (sizeLimit <? file_size f)%Z
      then (Normal tt, setError (Some "Image size must be less than 15MB") st)
      else (Normal tt, setImage f st)
  end.

(** [handleDescriptionChange] *)
Definition handleDescriptionChange (text : string) (st : Form) : Form :=
  setError None (setDescription text st).

(** [handleSubmit]: the state it leaves and the call of [onSubmit] it
    makes, if any. *)
Definition handleSubmit (st : Form) : Form * option (string * Dropped) :=
  if String.eqb (description st) EmptyString || String.eqb (trim (description st)) EmptyString
  then (setError (Some "Please enter a product description") st, None)
  else
    match image st with
    | None => (setError (Some "Please upload a product image") st, None)
    | Some f => (st, Some (description st, f))
    end.

(** What a user can do to the form. *)
Inductive event : Type :=
| Drop (acceptedFiles : list Dropped)
| Type_ (text : string)
| Press.

Definition handle (e : event) (st : Form) : Form * option (string * Dropped) :=
  match e with
  | Drop acceptedFiles => (snd (onDrop acceptedFiles st), None)
  | Type_ text => (handleDescriptionChange text st, None)
  | Press => handleSubmit st
  end.

(** The state after a sequence of events, and the calls of [onSubmit]
    made on the way, in order. *)
Fixpoint play (events : list event) (st : Form) : Form * list (string * Dropped) :=
  match events with
  | [] => (st, [])
  | e :: rest =>
      let (st1, call) := handle e st in
      let (st2, calls) := play rest st1 in
      (st2, match call with Some c => c :: calls | None => calls end)
  end.

(** A file the validation of [onDrop] lets through. *)
Definition acceptable (f : Dropped) : bool :=
  (matches (file_type f) "image/png"
   || matches (file_type f) "image/jpeg"
   || matches (file_type f) "image/jpg")
  && (file_size f <=? sizeLimit)%Z.

End InputSection.


(* ================================================================== *)
(** ** [src/components/AnalysisProgress.tsx]                          *)
(* ================================================================== *)

Module AnalysisProgress.

(** The ids of the four entries of [steps]. *)
Definition steps : list Z := [0; 1; 2; 3]%Z.

(** How the card of a step is drawn: with the check mark
    ([currentStep > step.id]), with the spinning loader
    ([currentStep === step.id]), or with its number. *)
Inductive Mark : Type := Checked | Loading | Numbered.

Definition mark (currentStep id : Z) : Mark :=
  if (id <? currentStep)%Z then Checked
  else if (currentStep =? id)%Z then Loading
  else Numbered.

(** The border of the card, chosen by the other chain of tests:
    [currentStep === step.id ? "border-primary"
     : currentStep > step.id ? "border-green-500" : "border-muted"]. *)
Inductive Border : Type := Primary | Green | Muted.

Definition border (currentStep id : Z) : Border :=
  if (currentStep =? id)%Z then Primary
  else if (id <? currentStep)%Z then Green
  else Muted.

(** [currentStep >= steps.length]: the closing line is shown. *)
Definition complete (currentStep : Z) : bool :=
  (Z.of_nat (List.length steps) <=? currentStep)%Z.

(** One run of the effect followed by what it schedules, for integer
    props: while analysing, the timeout of 20 ms adds one percent as long
    as the bar is behind [progress]; otherwise the bar jumps to 100. *)
Definition effect (isAnalyzing : bool) (progress animatedProgress : Z) : Z :=
  if isAnalyzing then
    if (animatedProgress <? progress)%Z then Z.min (animatedProgress + 1) 100
    else animatedProgress
  else 100%Z.

(** The bar after a sequence of renders, each with its props
    [(isAnalyzing, progress)]. *)
Fixpoint renders (props : list (bool * Z)) (animatedProgress : Z) : Z :=
  match props with
  | [] => animatedProgress
  | (isAnalyzing, progress) :: rest =>
      renders rest (effect isAnalyzing progress animatedProgress)
  end.

End AnalysisProgress.

(* ================================================================== *)
(** ** What [Home] hands to the gallery: the download handler         *)
(* ================================================================== *)

Module HomeView.
Import JS Eff Home.

(** The anchor element the handler builds and clicks. *)
Record Link : Type := {
  href : value;
  download : string
}.

(** [ad.adType?.toLowerCase().replace(/\s+/g, "-") || id] *)
Definition slug_or_id (env : Env) (ad : GeneratedAd) (id : string) : string :=
  match adType ad with
  | Some type =>
      let slug := replace_spaces_by_dash (toLowerCase env type) in
      if String.eqb slug EmptyString then id else slug
  | None => id
  end.

(** [`ad-variation-${...}.png`] *)
Definition downloadName (env : Env) (ad : GeneratedAd) (id : string) : string :=
  "ad-variation-" ++ slug_or_id env ad id ++ ".png".

(** [onDownloadAd] (lines 624-634): the link it clicks, if the ad is
    found.  Appending, removing and looking up the element in the
    document are not modelled. *)
Definition onDownloadAd (env : Env) (generatedAds : list GeneratedAd) (target : string)
  : option Link :=
  match List.find (fun ad => String.eqb (id ad) target) generatedAds with
  | Some ad => Some {| href := imageUrl ad; download := downloadName env ad target |}
  | None => None
  end.

End HomeView.
(* ================================================================== *)
(** ** Notions the properties are stated with                         *)
(* ================================================================== *)

Module Spec.
Import JS Eff OpenaiService Home.

(** *** The prompt enhancer *)

(** [response.choices[0]?.message?.content] of a completion. *)
Definition first_choice_content (response : value) : value :=
  get_opt (get_opt (own (own response "choices") "0") "message") "content".

(** *** The response parser, as the specification words it

    "primary path expects a [data] list whose first entry has a [url] or
    a base64 payload field; if absent, the parser performs a generic
    recursive scan of the response object for any string value that looks
    like a URL or embedded-data reference and uses the first match found.
    If nothing is found, the call fails with a missing image data
    error."  [None] is that failure. *)
Definition spec_primary (data : value) : option value :=
  match own data "data" with
  | Arr (first :: _) =>
      if truthy (own first "url") then Some (own first "url")
      else if truthy (own first "b64_json") then
        match to_string (own first "b64_json") with
        | Some b64 => Some (Str ("data:image/png;base64," ++ b64))
        | None => None
        end
      else None
  | _ => None
  end.

Definition spec_extract (data : value) : option value :=
  match spec_primary data with
  | Some image => Some image
  | None =>
      match findUrls data with
      | url :: _ => Some (Str url)
      | [] => None
      end
  end.

(** What a completion of the parser locates. *)
Definition located (c : completion value) : option value :=
  match c with
  | Normal image => Some image
  | Throw _ => None
  end.

(** *** The prompt configuration, as the specification words it

    "if the response is not retrievable or not parseable as JSON,
    silently retain built-in defaults; if parseable, override
    [basePrompt] (substituting a description placeholder token) when
    present, and override the full [adTypes] sequence when present and is
    a non-empty ordered list." *)
Definition substitute_placeholder (template description : string) : string :=
  match find_first "{DESCRIPTION}" template with
  | Some (before, after) => before ++ description ++ after
  | None => template
  end.

(** No dollar sign, the one character [String.prototype.replace]
    reads specially in a replacement text. *)
Fixpoint dollar_free (s : string) : bool :=
  match s with
  | EmptyString => true
  | String c s' => negb (Ascii.eqb c "$") && dollar_free s'
  end.

(** [v === null || v === undefined] *)
Definition nullish (v : value) : bool :=
  match v with
  | Undefined | Null => true
  | _ => false
  end.

Definition spec_resolve (answer : completion Response) (description : string)
  : string * list value :=
  let builtin := (defaultBasePrompt description, defaultAdTypes) in
  match answer with
  | Throw _ => builtin
  | Normal response =>
      if ok response then
        match json response with
        | None => builtin
        | Some externalConfig =>
            (match own externalConfig "basePrompt" with
             | Str template => substitute_placeholder template description
             | _ => fst builtin
             end,
             match own externalConfig "adTypes" with
             | Arr (first :: rest) => first :: rest
             | _ => snd builtin
             end)
        end
      else builtin
  end.

(** *** Requests and delays on the wire *)

Inductive Wire : Type :=
| Request
| Delay (ms : Z).

Fixpoint wire (l : list Event) : list Wire :=
  match l with
  | [] => []
  | Posted _ _ :: l' => Request :: wire l'
  | Slept ms :: l' => Delay ms :: wire l'
  | _ :: l' => wire l'
  end.

(** [k] requests with the fixed delay between neighbours and none at
    the end. *)
Fixpoint alternate (k : nat) : list Wire :=
  match k with
  | O => []
  | S k' =>
      match k' with
      | O => [Request]
      | S _ => Request :: Delay 1000 :: alternate k'
      end
  end.

Definition delays (l : list Wire) : nat :=
  List.length (filter (fun w => match w with Delay _ => true | Request => false end) l).

Definition posts (l : list Wire) : nat :=
  List.length (filter (fun w => match w with Request => true | Delay _ => false end) l).

(** *** Sessions of use *)

(** What the presentation layer can ask of the component. *)
Inductive action : Type :=
| Submit (description : string) (image : File)
| Rate (target : string) (r : Z)
| Regenerate (target : string).

Definition perform (env : Env) (regenerationPromptUrl : option string) (a : action)
  : M unit :=
  match a with
  | Submit description image => handleInputSubmit env description image
  | Rate target r => handleRateAd target r
  | Regenerate target => handleRegenerateAd env regenerationPromptUrl target
  end.

Fixpoint run (env : Env) (regenerationPromptUrl : option string) (l : list action)
  (s : State) : State :=
  match l with
  | [] => s
  | a :: l' =>
      run env regenerationPromptUrl l' (final (perform env regenerationPromptUrl a s))
  end.

Definition ids (s : State) : list string := map id (generatedAds (ui s)).

(** [ads'] is [ads] after a regeneration of [target]: every ad with
    that identifier has a new image, no rating and a cleared flag, and
    every other ad is as it was. *)
Definition regenerated (target : string) (ads ads' : list GeneratedAd) : Prop :=
  Forall2 (fun ad ad' =>
             if String.eqb (id ad) target
             then exists image, ad' = renewed image ad
             else ad' = ad) ads ads'.

(** The React state while [generateAdVariations] runs from the state
    [u]: the progress bar shows [value] and [message], and [own] is the
    interval the run has started. *)
Definition running (value : Animation.number) (message : string) (own : Timer)
  (u : Session) : Session :=
  {| currentStep := GENERATION;
     productDescription := productDescription u;
     productImage := productImage u;
     generatedAds := generatedAds u;
     generationError := None;
     isGenerating := true;
     progressValue := value;
     progressMessage := message;
     timers := (timers u ++ [own])%list |}.

(** The React state in which a run ends that fails before its batch. *)
Definition aborted (e : exn) (value : Animation.number) (message : string) (own : Timer)
  (u : Session) : Session :=
  withIsGenerating false
    (withGenerationError (Some (message_or "Failed to generate ad variations" e))
       (running value message own u)).

(** The React state in which a run ends whose batch completed as
    [batch]. *)
Definition finished (batch : completion (list GeneratedAd)) (own : Timer) (u : Session)
  : Session :=
  withTimers (fun l => l ++ [ClearLoading 500])%list
    (withProgressMessage "Complete!"
       (withProgress (Animation.integer 100)
          match batch with
          | Normal ads =>
              withGeneratedAds (fun _ => ads)
                (running (Animation.integer 0) "Uploading your image" own u)
          | Throw e =>
              withGeneratedAds (fun _ => fallbackAds)
                (withGenerationError
                   (Some (message_or "Failed to generate images with OpenAI API" e))
                   (running (Animation.integer 0) "Uploading your image" own u))
          end)).

(** What one call of the callback of the interval [own] makes of the
    value and the message the progress bar shows, and of the interval. *)
Definition repaint (shown : Animation.number * string * Timer)
  : Animation.number * string * Timer :=
  let '(value, message, own) := shown in
  match own with
  | ProgressAnimation currentProgress =>
      match Animation.callback currentProgress with
      | (_, Animation.Cleared) => (value, message, Done)
      | (next, Animation.Painted value' message') =>
          (value', match message' with Some m => m | None => message end,
           ProgressAnimation next)
      end
  | _ => shown
  end.

(** The interval [own] of a progress animation after [k] calls of its
    callback in all, with the value it has painted last: running on that
    value, or done at the end of its course. *)
Definition tracked (k : nat) (value : Animation.number) (own : Timer) : Prop :=
  value = Animation.progressed k (Animation.integer 0)
  /\ (own = ProgressAnimation value
      \/ (own = Done /\ Animation.ge value Animation.maxProgress = true)).

(** The state with the same tick and the React state [u]. *)
Definition at_tick (t : nat) (u : Session) : State := {| tick := t; ui := u |}.

(** Every ad of [ads] carries a timestamp read before [tick] reached
    [t]. *)
Definition stamped (env : Env) (t : nat) (ads : list GeneratedAd) : Prop :=
  Forall (fun ad => exists k lowercase,
                      (k < t)%nat /\ id ad = ad_id (Date_now env k) lowercase) ads.

Fixpoint all_digits (s : string) : bool :=
  match s with
  | EmptyString => true
  | String c s' => JSON.is_digit c && all_digits s'
  end.

(** [Date.now()] never gives the same millisecond twice. *)
Definition clock_advances (env : Env) : Prop :=
  forall i j : nat, (i < j)%nat -> (Date_now env i < Date_now env j)%Z.

(** The label of an ad type as an id carries it: lower case, runs of
    white space as one dash.  An ad type without a string label makes no
    ad. *)
Definition label_slug (env : Env) (adType : value) : option string :=
  match get adType "type" with
  | Normal (Str type) => Some (replace_spaces_by_dash (toLowerCase env type))
  | _ => None
  end.

Fixpoint slugs (env : Env) (adTypes : list value) : list string :=
  match adTypes with
  | [] => []
  | adType :: rest =>
      match label_slug env adType with
      | Some slug => slug :: slugs env rest
      | None => slugs env rest
      end
  end.

(** The ads made so far carry labels that no ad type still to come
    has. *)
Definition labelled_apart (pending : list string) (ads : list GeneratedAd) : Prop :=
  Forall (fun ad => exists t lowercase,
                      id ad = ad_id t lowercase
                      /\ ~ In (replace_spaces_by_dash lowercase) pending) ads.

(** Whenever the prompt configuration is resolved, no two of its ad
    types have the same label in an id. *)
Definition labels_differ (env : Env) : Prop :=
  forall (description : string) (s : State) (config : string * list value),
    result (resolvePromptConfig env description s) = Normal config ->
    NoDup (slugs env (snd config)).

(** The uploaded file can be read. *)
Definition readable (env : Env) (image : File) : Prop :=
  forall t : nat, exists url : string, readAsDataURL env t image = Normal url.

(** The image-edit answer of the example: HTTP 400 with the body
    [{"error":{"message":"invalid image"}}]. *)
Definition invalid_image_400 : Response :=
  {| status := 400;
     json := Some (Obj [("error", Obj [("message", Str "invalid image")])]) |}.

(** The error one turn of the loop of [generateImages] raises on that
    answer: its message is the JSON text of the message, the status and
    the body. *)
Definition refused : exn :=
  structured_error (Str "invalid image") invalid_image_400
    (Obj [("error", Obj [("message", Str "invalid image")])]).

(** The image-edit endpoint gave that answer to a request of the log. *)
Definition refusal (l : list Event) : Prop :=
  exists form, In (Posted form (Normal invalid_image_400)) l.

(** The component as it is first rendered. *)
Definition initial : State :=
  {| tick := 0;
     ui := {| currentStep := INPUT;
              productDescription := EmptyString;
              productImage := None;
              generatedAds := [];
              generationError := None;
              isGenerating := false;
              progressValue := Animation.integer 0;
              progressMessage := "Uploading your image";
              timers := [] |} |}.

End Spec.

(* ================================================================== *)
(** ** Notions for reasoning about computations                       *)
(* ================================================================== *)

Module Logic.
Import JS Eff.

(** [post m s Q]: the run of [m] from [s] ends in a completion, a
    state and a log that satisfy [Q]. *)
Definition post {A : Type} (m : M A) (s : State)
  (Q : completion A -> State -> list Event -> Prop) : Prop :=
  Q (result (m s)) (final (m s)) (log (m s)).

(** A computation that leaves the React state alone, and only lets
    [tick] grow. *)
Definition frame {A : Type} (m : M A) : Prop :=
  forall s, post m s (fun _ s' _ => ui s' = ui s /\ (tick s <= tick s')%nat).

(** No request to the image-edit endpoint is in the log. *)
Definition no_posts (l : list Event) : Prop :=
  forall form answer, ~ In (Posted form answer) l.

(** A computation that sees of the state only [tick]: its completion,
    its log and the questions it asks are the same from two states with
    the same tick. *)
Definition blind {A : Type} (m : M A) : Prop :=
  forall s1 s2,
    tick s1 = tick s2 ->
    result (m s1) = result (m s2)
    /\ log (m s1) = log (m s2)
    /\ tick (final (m s1)) = tick (final (m s2)).

Definition quiet {A : Type} (m : M A) : Prop :=
  forall s, post m s (fun _ _ l => no_posts l).

End Logic.

(* ================================================================== *)
(** ** Concrete worlds and inputs                                     *)
(* ================================================================== *)

Module Examples.
Import JS Eff OpenaiService Home Spec.

(** Lower case of ASCII text, where every [toLowerCase] agrees. *)
Definition lower (c : ascii) : ascii :=
  let n := code c in
  if (65 <=? n)%nat && (n <=? 90)%nat then ascii_of_nat (n + 32) else c.

Fixpoint lowercase (s : string) : string :=
  match s with
  | EmptyString => EmptyString
  | String c s' => String (lower c) (lowercase s')
  end.

(** The wording of Chrome. *)
Definition chrome_body_used : string :=
  "Failed to execute 'text' on 'Response': body stream already read".

(** A chat completion with one choice. *)
Definition completion_of (content : string) : value :=
  Obj [("id", Str "chatcmpl-1");
       ("choices",
        Arr [Obj [("index", Number 0);
                  ("message", Obj [("role", Str "assistant");
                                   ("content", Str content)])]])].

Definition answer_200 (body : value) : Response :=
  {| status := 200; json := Some body |}.

(** A world: the credential, the answer of the configuration URL, the
    answer of the image-edit endpoint and the clock are given; the
    completion, the file reader and the blob conversion work. *)
Definition world (key : option string) (config edit : completion Response)
  (clock : nat -> Z) : Env :=
  {| VITE_OPENAI_API_KEY := key;
     chat_completions_create := fun _ _ =>
       Normal (completion_of "  A glossy blue ceramic mug on an oak table.  ");
     readAsDataURL := fun _ _ => Normal "data:image/png;base64,iVBORw0KGgo=";
     fetch_blob := fun _ _ => Normal (Some {| blob_type := "image/png" |});
     fetch_post := fun _ _ => edit;
     fetch_get := fun _ _ => config;
     Date_now := clock;
     Math_random := fun _ => "0.4217";
     toLowerCase := lowercase;
     body_used := chrome_body_used;
     interval_calls := fun _ _ => O |}.

(** The same world with a slower network: the callback of the
    progress animation is called [k] times during every wait. *)
Definition slow (k : nat) (env : Env) : Env :=
  {| VITE_OPENAI_API_KEY := VITE_OPENAI_API_KEY env;
     chat_completions_create := chat_completions_create env;
     readAsDataURL := readAsDataURL env;
     fetch_blob := fetch_blob env;
     fetch_post := fetch_post env;
     fetch_get := fetch_get env;
     Date_now := Date_now env;
     Math_random := Math_random env;
     toLowerCase := toLowerCase env;
     body_used := body_used env;
     interval_calls := fun _ _ => k |}.

Definition key : option string := Some "sk-proj-0000".

Definition unreachable : completion Response := Throw (JsError "Failed to fetch").

Definition wall_clock (t : nat) : Z := (1714000000000 + 1500 * Z.of_nat t)%Z.

Definition frozen_clock (t : nat) : Z := 1714000000000%Z.

(** The usual answer of the image-edit endpoint. *)
Definition image_b64 : completion Response :=
  Normal (answer_200 (Obj [("created", Number 1714000000);
                           ("data", Arr [Obj [("b64_json", Str "iVBORw0KGgoAAAANSUhEUg==")]])])).

Definition image_url : completion Response :=
  Normal (answer_200 (Obj [("created", Number 1714000000);
                           ("data", Arr [Obj [("url", Str "https://oaidalle.example/img-1.png")]])])).

(** A successful answer whose first [data] entry carries no image, with
    an image elsewhere in the body. *)
Definition stray_body : value :=
  Obj [("data", Arr [Obj [("revised_prompt", Str "a blue mug")]]);
       ("output", Obj [("image", Str "https://cdn.example/ad.png")])].

(** A successful answer with an empty [data] list and an image
    elsewhere. *)
Definition empty_list_body : value :=
  Obj [("data", Arr []); ("url", Str "https://cdn.example/ad.png")].

(** A successful answer without [data]: the image is found by the
    scan. *)
Definition nested_body : value :=
  Obj [("created", Number 1714000000);
       ("result", Obj [("note", Str "ok");
                       ("images", Arr [Obj [("href", Str "https://cdn.example/a.png")];
                                       Obj [("href", Str "https://cdn.example/b.png")]])])].

(** Remote configurations. *)
Definition config_empty_list : completion Response :=
  Normal (answer_200 (Obj [("adTypes", Arr [])])).

Definition config_one_type : completion Response :=
  Normal (answer_200 (Obj [("adTypes", Arr [adTypeSpec "X" "Y"])])).

Definition config_full : completion Response :=
  Normal (answer_200
            (Obj [("basePrompt", Str "Advertise {DESCRIPTION} boldly.");
                  ("adTypes", Arr [adTypeSpec "Poster" " As a poster."])])).

(** Two ad types with one label. *)
Definition config_twins : completion Response :=
  Normal (answer_200
            (Obj [("adTypes", Arr [adTypeSpec "Story Ad" " Tall.";
                                   adTypeSpec "Story Ad" " Wide."])])).

(** A world whose image-edit endpoint answers the first request made
    before tick [t] with an image and every later one with [refusal]. *)
Definition world_failing_from (t : nat) (refusal : completion Response) : Env :=
  {| VITE_OPENAI_API_KEY := key;
     chat_completions_create := fun _ _ =>
       Normal (completion_of "  A glossy blue ceramic mug on an oak table.  ");
     readAsDataURL := fun _ _ => Normal "data:image/png;base64,iVBORw0KGgo=";
     fetch_blob := fun _ _ => Normal (Some {| blob_type := "image/png" |});
     fetch_post := fun tick _ => if (tick <? t)%nat then image_url else refusal;
     fetch_get := fun _ _ => unreachable;
     Date_now := wall_clock;
     Math_random := fun _ => "0.4217";
     toLowerCase := lowercase;
     body_used := chrome_body_used;
     interval_calls := fun _ _ => O |}.

(** HTTP 502 with a body that is not JSON. *)
Definition gateway_error : completion Response :=
  Normal {| status := 502; json := None |}.

(** HTTP 429 with the body
    [{"error":{"message":"Rate limit reached","type":"requests"}}]. *)
Definition rate_limited : Response :=
  {| status := 429;
     json := Some (Obj [("error", Obj [("message", Str "Rate limit reached");
                                       ("type", Str "requests")])]) |}.

Definition mug : string := "Blue ceramic mug".
Definition photo : File := "mug.png".

(** A batch with ratings, one ad in regeneration. *)
Definition rated_batch : list GeneratedAd :=
  [ {| id := "gen-1714000010500-creative-concept-ad";
       imageUrl := Str "https://oaidalle.example/img-1.png";
       rating := Some 4%Z;
       adType := Some "Creative Concept Ad";
       isRegenerating := None |};
    {| id := "gen-1714000018000-benefit-highlight-ad";
       imageUrl := Str "https://oaidalle.example/img-2.png";
       rating := Some 2%Z;
       adType := Some "Benefit Highlight Ad";
       isRegenerating := None |};
    {| id := "gen-1714000025500-ecommerce-style-ad";
       imageUrl := Str "https://oaidalle.example/img-3.png";
       rating := None;
       adType := Some "Ecommerce-Style Ad";
       isRegenerating := None |} ].

Definition showing (ads : list GeneratedAd) : State :=
  {| tick := 40;
     ui := {| currentStep := GENERATION;
              productDescription := mug;
              productImage := Some photo;
              generatedAds := ads;
              generationError := None;
              isGenerating := false;
              progressValue := Animation.integer 100;
              progressMessage := "Complete!";
              timers := [ProgressAnimation (Animation.integer 0)] |} |}.

End Examples.

(* ================================================================== *)
(** ** What a log shows, and what a response is worth                 *)
(* ================================================================== *)

Module Traces.
Import JS Eff OpenaiService Home Spec.

(** The forms posted to the image-edit endpoint, in order. *)
Fixpoint forms (l : list Event) : list FormData :=
  match l with
  | [] => []
  | Posted form _ :: l' => form :: forms l'
  | _ :: l' => forms l'
  end.

(** The answers to them. *)
Fixpoint answers (l : list Event) : list (completion Response) :=
  match l with
  | [] => []
  | Posted _ answer :: l' => answer :: answers l'
  | _ :: l' => answers l'
  end.

(** The URLs converted to blobs. *)
Fixpoint blobs (l : list Event) : list string :=
  match l with
  | [] => []
  | BlobFetched url :: l' => url :: blobs l'
  | _ :: l' => blobs l'
  end.

(** The contents sent to the chat completion. *)
Fixpoint chats (l : list Event) : list string :=
  match l with
  | [] => []
  | ChatRequested content :: l' => content :: chats l'
  | _ :: l' => chats l'
  end.

(** [`${prompt} (Variation ${i + 1} of ${n})`] *)
Definition variation (prompt : string) (i n : Z) : string :=
  prompt ++ " (Variation " ++ dec (i + 1) ++ " of " ++ dec n ++ ")".

(** The form of turn [i] of the loop (lines 164-174). *)
Definition form_of (prompt size : string) (i n : Z) (blob : Blob) : FormData :=
  {| form_model := "gpt-image-1";
     form_prompt := variation prompt i n;
     form_n := "1";
     form_size := size;
     form_image := blob |}.

(** The error thrown for a response that is not OK (lines 198-223). *)
Definition rejection (env : Env) (response : Response) : exn :=
  match error_envelope env response with
  | Normal envelope => structured_error (fst envelope) response (snd envelope)
  | Throw e => e
  end.

(** What one turn of the loop makes of the answer to its request (lines
    177-340): the image it pushes, or the error it throws. *)
Definition imageOf (env : Env) (answer : completion Response) : completion value :=
  match answer with
  | Throw e => Throw e
  | Normal response =>
      if negb (ok response) then Throw (rejection env response)
      else
        match json response with
        | None => Throw (JsError "Failed to parse API response")
        | Some data => extractImage data
        end
  end.

(** A text that is no JSON text for certain: after the white space
    of JSON it does not begin with a character that begins a value. *)
Definition unlike_json (text : string) : bool :=
  match JSON.skip_ws text with
  | EmptyString => true
  | String c _ =>
      let n := code c in
      negb ((n =? 123)%nat || (n =? 91)%nat || (n =? 34)%nat || (n =? 45)%nat
            || ((48 <=? n)%nat && (n <=? 57)%nat)
            || (n =? 116)%nat || (n =? 102)%nat || (n =? 110)%nat)
  end.

(** Every event of the log of [m] satisfies [P]. *)
Definition within {A : Type} (P : Event -> Prop) (m : M A) : Prop :=
  forall s, Logic.post m s (fun _ _ l => Forall P l).

(** The constants of a form, and the size it asks for. *)
Definition standard (size : string) (form : FormData) : Prop :=
  form_model form = "gpt-image-1" /\ form_n form = "1" /\ form_size form = size.

(** The URL [fetchImageBlob] hands to [fetch] for the image
    [dataUrl]: the reference itself when it starts with [data:] or
    [http], and otherwise the reference taken as base64 text. *)
Definition blob_url (dataUrl u : string) : Prop :=
  u = (if startsWith dataUrl "data:" || startsWith dataUrl "http"
       then dataUrl
       else "data:image/png;base64," ++ dataUrl).

(** An ad as the loop of [generateAdVariations] pushes it for the ad
    type [adType], with the image [image]. *)
Definition made_of (env : Env) (adType_ image : value) (ad : GeneratedAd) : Prop :=
  imageUrl ad = image
  /\ (exists label_, own adType_ "type" = Str label_
                    /\ adType ad = Some label_
                    /\ exists timestamp, id ad = ad_id timestamp (toLowerCase env label_))
  /\ rating ad = None
  /\ isRegenerating ad = None.

(** The prompt posted for an ad type: the base prompt, the prompt of
    the type and the words of the only variation. *)
Definition prompted (basePrompt : string) (adType_ : value) (form : FormData) : Prop :=
  exists prompt,
    and_then (get adType_ "prompt") toString = Normal prompt
    /\ form_prompt form = variation (basePrompt ++ prompt) 0 1.

(** Events of a component that asks for one image at a time: no delay,
    and every form asks for the first variation of one, at 1024x1024. *)
Definition single (e : Event) : Prop :=
  match e with
  | Slept _ => False
  | Posted form _ =>
      standard "1024x1024" form
      /\ exists prompt, form_prompt form = prompt ++ " (Variation 1 of 1)"
  | BlobFetched u => (startsWith u "data:" || startsWith u "http") = true
  | _ => True
  end.

(** Events before the image request: reading the file, fetching the
    prompt configuration, asking for the enhanced description. *)
Definition prelude (e : Event) : Prop :=
  match e with
  | FileRead _ | Got _ | ChatRequested _ => True
  | _ => False
  end.

(** Events that need no credential: reading the file and fetching the
    prompt configuration. *)
Definition free (e : Event) : Prop :=
  match e with
  | FileRead _ | Got _ => True
  | _ => False
  end.

(** The inputs of the last submission of a sequence of actions. *)
Fixpoint last_submit (actions : list action) : option (string * File) :=
  match actions with
  | [] => None
  | a :: rest =>
      match last_submit rest with
      | Some input => Some input
      | None =>
          match a with
          | Submit description image => Some (description, image)
          | _ => None
          end
      end
  end.

End Traces.

(* ================================================================== *)
(** ** What [JSON.parse] reads in the text of [JSON.stringify]        *)
(* ================================================================== *)

Module Reparse.
Import JS JSON.

(** The value [JSON.parse(JSON.stringify(v))]: [undefined] has become
    [null] in an array and has left an object with its key; the
    properties of an object are defined again one by one, so a repeated
    key keeps the later value and index keys come first. *)
Fixpoint reparsed (v : value) : value :=
  match v with
  | Undefined => Null
  | Arr items => Arr (map reparsed items)
  | Obj props =>
      Obj ((fix defined (l : list (string * value)) (acc : list (string * value))
              : list (string * value) :=
              match l with
              | [] => acc
              | (k, Undefined) :: l' => defined l' acc
              | (k, x) :: l' => defined l' (define k (reparsed x) acc)
              end) props [])
  | _ => v
  end.

(** The properties read back from the members of [l], after [acc]. *)
Fixpoint defined (l : list (string * value)) (acc : list (string * value))
  : list (string * value) :=
  match l with
  | [] => acc
  | (k, Undefined) :: l' => defined l' acc
  | (k, x) :: l' => defined l' (define k (reparsed x) acc)
  end.

(** The texts of the members of an object, as [ser] joins them. *)
Fixpoint members (l : list (string * value)) : list string :=
  match l with
  | [] => []
  | (k, Undefined) :: l' => members l'
  | (k, x) :: l' => (quote k ++ ":" ++ ser x) :: members l'
  end.

(** What may follow the text of a value: nothing, or the delimiter of
    the array or object it is in. *)
Definition delimited (rest : string) : Prop :=
  match rest with
  | EmptyString => True
  | String c _ => c = ","%char \/ c = "]"%char \/ c = "}"%char
  end.

(** A character that opens the text of a value. *)
Definition opens (c : ascii) : Prop :=
  is_ws c = false /\ (code c =? 93)%nat = false /\ (code c =? 125)%nat = false
  /\ (code c =? 44)%nat = false.

End Reparse.
(* ================================================================== *)
(** ** Rules for reasoning about computations                         *)
(* ================================================================== *)

Module LogicFacts.
Import JS Eff Logic.
Local Open Scope eff_scope.

Lemma post_ret {A : Type} (a : A) s (Q : completion A -> State -> list Event -> Prop) :
  Q (Normal a) s [] -> post (ret a) s Q.
Proof. exact (fun H => H). Qed.

Lemma post_throw {A : Type} e s (Q : completion A -> State -> list Event -> Prop) :
  Q (Throw e) s [] -> post (throw e) s Q.
Proof. exact (fun H => H). Qed.

Lemma post_lift {A : Type} (c : completion A) s
  (Q : completion A -> State -> list Event -> Prop) :
  Q c s [] -> post (lift c) s Q.
Proof. exact (fun H => H). Qed.

Lemma post_ask {A : Type} (answer : nat -> completion A) ev s
  (Q : completion A -> State -> list Event -> Prop) :
  Q (answer (tick s)) {| tick := S (tick s); ui := ui s |} (ev (answer (tick s))) ->
  post (ask answer ev) s Q.
Proof. exact (fun H => H). Qed.

Lemma post_update f s (Q : completion unit -> State -> list Event -> Prop) :
  Q (Normal tt) {| tick := tick s; ui := f (ui s) |} [] -> post (update f) s Q.
Proof. exact (fun H => H). Qed.

Lemma post_session s (Q : completion Session -> State -> list Event -> Prop) :
  Q (Normal (ui s)) s [] -> post session s Q.
Proof. exact (fun H => H). Qed.

Lemma post_bind {A B : Type} (m : M A) (k : A -> M B) s
  (Q : completion B -> State -> list Event -> Prop) :
  post m s (fun r s' l =>
              match r with
              | Normal a => post (k a) s' (fun r' s'' l' => Q r' s'' (l ++ l')%list)
              | Throw e => Q (Throw e) s' l
              end) ->
  post (bind m k) s Q.
Proof.
  unfold post, bind. cbv zeta.
  destruct (result (m s)); auto.
Qed.

Lemma post_try {A : Type} (m : M A) (h : exn -> M A) s
  (Q : completion A -> State -> list Event -> Prop) :
  post m s (fun r s' l =>
              match r with
              | Normal a => Q (Normal a) s' l
              | Throw e => post (h e) s' (fun r' s'' l' => Q r' s'' (l ++ l')%list)
              end) ->
  post (try_catch m h) s Q.
Proof.
  unfold post, try_catch. cbv zeta.
  destruct (result (m s)) eqn:E; auto.
  intros H. rewrite E. exact H.
Qed.

Lemma post_weaken {A : Type} (m : M A) s
  (Q Q' : completion A -> State -> list Event -> Prop) :
  post m s Q -> (forall r s' l, Q r s' l -> Q' r s' l) -> post m s Q'.
Proof. unfold post. auto. Qed.

Lemma post_and {A : Type} (m : M A) s
  (Q Q' : completion A -> State -> list Event -> Prop) :
  post m s Q -> post m s Q' -> post m s (fun r s' l => Q r s' l /\ Q' r s' l).
Proof. unfold post. auto. Qed.

Lemma post_result {A : Type} (m : M A) s :
  post m s (fun r _ _ => r = result (m s)).
Proof. reflexivity. Qed.

Lemma frame_ret {A : Type} (a : A) : frame (ret a).
Proof. intros s. apply post_ret. auto. Qed.

Lemma frame_throw {A : Type} e : frame (@throw A e).
Proof. intros s. apply post_throw. auto. Qed.

Lemma frame_lift {A : Type} (c : completion A) : frame (lift c).
Proof. intros s. apply post_lift. auto. Qed.

Lemma frame_ask {A : Type} (answer : nat -> completion A) ev : frame (ask answer ev).
Proof. intros s. apply post_ask. simpl. auto. Qed.

Lemma frame_bind {A B : Type} (m : M A) (k : A -> M B) :
  frame m -> (forall a, frame (k a)) -> frame (bind m k).
Proof.
  intros Hm Hk s. apply post_bind.
  eapply post_weaken; [apply Hm|].
  intros r s' l [Hu Ht]. destruct r as [a|e].
  - eapply post_weaken; [apply Hk|].
    cbv beta. intros _ s'' _ [Hu' Ht']. split; [congruence|lia].
  - auto.
Qed.

Lemma frame_try {A : Type} (m : M A) (h : exn -> M A) :
  frame m -> (forall e, frame (h e)) -> frame (try_catch m h).
Proof.
  intros Hm Hh s. apply post_try.
  eapply post_weaken; [apply Hm|].
  intros r s' l [Hu Ht]. destruct r as [a|e].
  - auto.
  - eapply post_weaken; [apply Hh|].
    cbv beta. intros _ s'' _ [Hu' Ht']. split; [congruence|lia].
Qed.

Lemma no_posts_nil : no_posts [].
Proof. intros f a H. inversion H. Qed.

Lemma no_posts_app l1 l2 : no_posts l1 -> no_posts l2 -> no_posts (l1 ++ l2).
Proof.
  intros H1 H2 f a H. apply in_app_or in H. destruct H as [H|H].
  - exact (H1 f a H).
  - exact (H2 f a H).
Qed.

Lemma quiet_bind {A B : Type} (m : M A) (k : A -> M B) :
  quiet m -> (forall a, quiet (k a)) -> quiet (bind m k).
Proof.
  intros Hm Hk s. apply post_bind.
  eapply post_weaken; [apply Hm|].
  intros r s' l Hl. destruct r as [a|e]; [|exact Hl].
  eapply post_weaken; [apply Hk|].
  cbv beta. intros _ _ l' Hl'. apply no_posts_app; assumption.
Qed.

Lemma quiet_try {A : Type} (m : M A) (h : exn -> M A) :
  quiet m -> (forall e, quiet (h e)) -> quiet (try_catch m h).
Proof.
  intros Hm Hh s. apply post_try.
  eapply post_weaken; [apply Hm|].
  intros r s' l Hl. destruct r as [a|e]; [exact Hl|].
  eapply post_weaken; [apply Hh|].
  cbv beta. intros _ _ l' Hl'. apply no_posts_app; assumption.
Qed.

Lemma quiet_silent {A : Type} (m : M A) :
  (forall s, log (m s) = []) -> quiet m.
Proof. intros H s. unfold post. rewrite H. apply no_posts_nil. Qed.

(** One rule, chosen by the head of the computation. *)
Ltac step :=
  match goal with
  | |- post (bind _ _) _ _ => apply post_bind
  | |- post (try_catch _ _) _ _ => apply post_try
  | |- post (ret _) _ _ => apply post_ret
  | |- post (throw _) _ _ => apply post_throw
  | |- post (lift _) _ _ => apply post_lift
  | |- post (ask _ _) _ _ => apply post_ask
  | |- post (update _) _ _ => apply post_update
  | |- post session _ _ => apply post_session
  end.

Ltac steps := repeat (cbv beta iota; step).

End LogicFacts.
(* ================================================================== *)
(** ** Facts about the service                                        *)
(* ================================================================== *)

Module ServiceFacts.
Import JS Eff OpenaiService Logic LogicFacts Spec.
Local Open Scope eff_scope.

Ltac framed :=
  repeat first
    [ apply frame_bind
    | apply frame_try
    | apply frame_ret
    | apply frame_throw
    | apply frame_lift
    | apply frame_ask
    | match goal with
      | |- forall _, _ => intro
      | |- frame (if ?b then _ else _) => destruct b
      | |- frame (match ?x with _ => _ end) => destruct x
      end ].

Section Facts.
Variable env : Env.

Lemma frame_sleep ms : frame (sleep ms).
Proof. intros s. unfold post. simpl. auto. Qed.

Lemma frame_enhancePrompt userPrompt : frame (enhancePrompt env userPrompt).
Proof. unfold enhancePrompt, create_completion. framed. Qed.

Lemma frame_fetchImageBlob url : frame (fetchImageBlob env url).
Proof. unfold fetchImageBlob, fetch_as_blob. framed. Qed.

Lemma frame_requestImage prompt url size i n :
  frame (requestImage env prompt url size i n).
Proof.
  unfold requestImage, now, fetch_edits.
  apply frame_try; [|framed].
  apply frame_bind; [framed|intro].
  apply frame_bind; [apply frame_fetchImageBlob|intro].
  framed.
Qed.

Lemma frame_requests k : forall prompt url size i n acc,
  frame (requests env k prompt url size i n acc).
Proof.
  induction k as [|k IH]; intros; simpl.
  - framed.
  - apply frame_bind; [apply frame_requestImage|intro].
    apply frame_bind; [destruct (i <? n - 1)%Z; [apply frame_sleep|framed]|intro].
    apply IH.
Qed.

Lemma frame_generateImages prompt url n size quality :
  frame (generateImages env prompt url n size quality).
Proof.
  unfold generateImages.
  destruct (negb (configured (VITE_OPENAI_API_KEY env))); [framed|].
  apply frame_try; [|framed].
  apply frame_bind; [apply frame_requests|framed].
Qed.

Lemma frame_fileToDataUrl file : frame (fileToDataUrl env file).
Proof. unfold fileToDataUrl. framed. Qed.

Lemma frame_now : frame (now env).
Proof. unfold now. framed. Qed.

(** Only [post] writes [Posted] into the log. *)
Lemma quiet_ask {A : Type} (answer : nat -> completion A) ev :
  (forall a, no_posts (ev a)) -> quiet (ask answer ev).
Proof. intros H s. apply post_ask. apply H. Qed.

Lemma no_posts_one e :
  (forall form answer, e <> Posted form answer) -> no_posts [e].
Proof.
  intros H f a [E|[]]. exact (H f a E).
Qed.

Lemma quiet_ret {A : Type} (a : A) : quiet (ret a).
Proof. apply quiet_silent. reflexivity. Qed.

Lemma quiet_throw {A : Type} e : quiet (@throw A e).
Proof. apply quiet_silent. reflexivity. Qed.

Lemma quiet_lift {A : Type} (c : completion A) : quiet (lift c).
Proof. apply quiet_silent. reflexivity. Qed.

Lemma quiet_update f : quiet (update f).
Proof. apply quiet_silent. reflexivity. Qed.

Lemma quiet_session : quiet session.
Proof. apply quiet_silent. reflexivity. Qed.

Lemma quiet_now : quiet (now env).
Proof. apply quiet_silent. reflexivity. Qed.

End Facts.

Ltac hushed :=
  repeat first
    [ apply quiet_bind
    | apply quiet_try
    | apply quiet_ret
    | apply quiet_throw
    | apply quiet_lift
    | apply quiet_update
    | apply quiet_session
    | apply quiet_now
    | apply quiet_ask; intro; first [apply no_posts_nil | apply no_posts_one; discriminate]
    | match goal with
      | |- forall _, _ => intro
      | |- quiet (if ?b then _ else _) => destruct b
      | |- quiet (match ?x with _ => _ end) => destruct x
      end ].

Section Quiet.
Variable env : Env.

Lemma quiet_enhancePrompt userPrompt : quiet (enhancePrompt env userPrompt).
Proof. unfold enhancePrompt, create_completion. hushed. Qed.

Lemma quiet_fileToDataUrl file : quiet (fileToDataUrl env file).
Proof. unfold fileToDataUrl. hushed. Qed.

End Quiet.

End ServiceFacts.
(* ================================================================== *)
(** ** Facts about the component                                      *)
(* ================================================================== *)

Module HomeFacts.
Import JS Eff OpenaiService Home Logic LogicFacts ServiceFacts Spec.
Local Open Scope eff_scope.

(** What follows a computation that leaves the React state alone. *)
Lemma post_frame {A : Type} (m : M A) s
  (Q : completion A -> State -> list Event -> Prop) :
  frame m ->
  (forall r s' l, ui s' = ui s -> (tick s <= tick s')%nat -> Q r s' l) ->
  post m s Q.
Proof.
  intros Hf H. specialize (Hf s). unfold post in *.
  destruct Hf as [Hu Ht]. apply H; assumption.
Qed.

Lemma regenerated_mapAd target image ads :
  regenerated target ads (mapAd target (renewed image) ads).
Proof.
  unfold regenerated, mapAd. induction ads as [|ad ads IH]; simpl; constructor; auto.
  destruct (String.eqb (id ad) target); eauto.
Qed.

(** The optimistic mark does not show in the end. *)
Lemma regenerated_after_mark target ads : forall ads',
  regenerated target (mapAd target (marked true) ads) ads' ->
  regenerated target ads ads'.
Proof.
  unfold regenerated, mapAd.
  induction ads as [|ad ads IH]; intros ads' H; inversion H; subst; constructor; auto.
  destruct (String.eqb (id ad) target) eqn:E.
  - simpl in *. rewrite E in *. match goal with K : exists _, _ |- _ => destruct K as [image ->] end.
    exists image. reflexivity.
  - rewrite E in *. assumption.
Qed.

Lemma regenerated_ids target ads ads' :
  regenerated target ads ads' -> map id ads' = map id ads.
Proof.
  induction 1 as [|ad ad' ads ads' H _ IH]; [reflexivity|].
  simpl. rewrite IH. f_equal.
  destruct (String.eqb (id ad) target); [destruct H as [image ->]|subst]; reflexivity.
Qed.

Lemma regenerated_types target ads ads' :
  regenerated target ads ads' -> map adType ads' = map adType ads.
Proof.
  induction 1 as [|ad ad' ads ads' H _ IH]; [reflexivity|].
  simpl. rewrite IH. f_equal.
  destruct (String.eqb (id ad) target); [destruct H as [image ->]|subst]; reflexivity.
Qed.

Lemma regenerated_others target ads ads' :
  regenerated target ads ads' ->
  forall i ad, nth_error ads i = Some ad -> id ad <> target -> nth_error ads' i = Some ad.
Proof.
  induction 1 as [|a a' ads ads' H _ IH]; intros i ad Hi Hne.
  - destruct i; discriminate.
  - destruct i as [|i]; simpl in *.
    + injection Hi as ->.
      destruct (String.eqb_spec (id ad) target); [contradiction|]. subst. reflexivity.
    + eapply IH; eassumption.
Qed.

Lemma regenerated_settled target ads ads' :
  regenerated target ads ads' ->
  forall ad', In ad' ads' -> id ad' = target ->
  rating ad' = None /\ isRegenerating ad' = Some false
  /\ exists ad image, In ad ads /\ ad' = renewed image ad.
Proof.
  induction 1 as [|a a' ads ads' H _ IH]; intros ad' Hin Hid; [inversion Hin|].
  destruct Hin as [<-|Hin].
  - destruct (String.eqb_spec (id a) target) as [E|E].
    + destruct H as [image ->]. repeat split. exists a, image. split; [left|]; reflexivity.
    + subst a'. contradiction.
  - destruct (IH ad' Hin Hid) as [Hr [Hf [ad [image [Hi He]]]]].
    repeat split; auto. exists ad, image. split; [right|]; assumption.
Qed.

Lemma regenerated_present target ads ads' :
  regenerated target ads ads' -> In target (map id ads) ->
  exists ad', In ad' ads' /\ id ad' = target.
Proof.
  intros H Hin. rewrite <- (regenerated_ids _ _ _ H) in Hin.
  apply in_map_iff in Hin. destruct Hin as [ad' [E Hin]]. eauto.
Qed.

Lemma find_absent target (ads : list GeneratedAd) :
  List.find (fun ad => String.eqb (id ad) target) ads = None <->
  ~ In target (map id ads).
Proof.
  induction ads as [|ad ads IH]; simpl.
  - split; auto.
  - destruct (String.eqb_spec (id ad) target) as [E|E].
    + split; [discriminate|]. intros H. exfalso. apply H. left. exact E.
    + rewrite IH. split; intros H.
      * intros [K|K]; [contradiction|]. exact (H K).
      * intros K. apply H. right. exact K.
Qed.

Section Facts.
Variable env : Env.
Variable regenerationPromptUrl : option string.

Lemma frame_fetch u : frame (fetch env u).
Proof. unfold fetch. framed. Qed.

Lemma frame_response_json r : frame (response_json r).
Proof. unfold response_json. framed. Qed.

Lemma frame_refetch {A : Type} (current : A) k :
  frame (refetch env regenerationPromptUrl current k).
Proof.
  unfold refetch. destruct regenerationPromptUrl as [promptUrl|]; [|framed].
  destruct (String.eqb promptUrl EmptyString); [framed|].
  apply frame_try; [|framed].
  apply frame_bind; [apply frame_fetch|intro].
  destruct (ok a); [|framed].
  apply frame_bind; [apply frame_response_json|framed].
Qed.

Lemma frame_resolvePromptConfig description : frame (resolvePromptConfig env description).
Proof.
  unfold resolvePromptConfig.
  apply frame_try; [|framed].
  apply frame_bind; [apply frame_fetch|intro].
  destruct (ok a); [|framed].
  apply frame_bind; [apply frame_response_json|framed].
Qed.

Lemma frame_generateAd basePrompt imageDataUrl adType :
  frame (generateAd env basePrompt imageDataUrl adType).
Proof.
  unfold generateAd.
  apply frame_bind; [framed|intro].
  apply frame_bind; [framed|intro].
  apply frame_bind; [framed|intro].
  apply frame_bind; [apply frame_generateImages|intro].
  destruct (0 <? List.length a2)%nat; [|framed].
  apply frame_bind; [apply frame_now|framed].
Qed.

Lemma frame_generateAds basePrompt imageDataUrl adTypes : forall acc,
  frame (generateAds env basePrompt imageDataUrl adTypes acc).
Proof.
  induction adTypes as [|adType rest IH]; intros acc; simpl; [framed|].
  apply frame_bind; [apply frame_generateAd|intro]. apply IH.
Qed.

Ltac via F :=
  apply post_bind; apply post_frame;
  [ F
  | let r := fresh "r" in
    let s' := fresh "s" in
    let l := fresh "l" in
    let Hu := fresh "Hu" in
    let Ht := fresh "Ht" in
    intros r s' l Hu Ht; destruct r; [|right; split; [discriminate|congruence]] ].

(** The attempt through the API either rewrites the target with a new
    image and returns, or leaves the React state alone. *)
Lemma regenerateWithApi_post target adToRegenerate image description s :
  post (regenerateWithApi env regenerationPromptUrl target adToRegenerate image description) s
    (fun r s' _ =>
       (r = Normal true
        /\ exists img, ui s' = withGeneratedAds (mapAd target (renewed img)) (ui s))
       \/ (r <> Normal true /\ ui s' = ui s)).
Proof.
  unfold regenerateWithApi.
  via ltac:(apply frame_fileToDataUrl).
  via ltac:(apply frame_refetch).
  via ltac:(apply frame_lift).
  via ltac:(apply frame_lift).
  via ltac:(apply frame_enhancePrompt).
  via ltac:(apply frame_refetch).
  via ltac:(apply frame_generateImages).
  destruct (0 <? List.length a5)%nat; steps.
  - left. split; [reflexivity|]. eexists. simpl. f_equal. congruence.
  - right. split; [discriminate|]. congruence.
Qed.

Lemma placeholders_post target : forall prevAds s,
  post (placeholders env target prevAds) s
    (fun r s' _ => ui s' = ui s
                   /\ exists ads, r = Normal ads /\ regenerated target prevAds ads).
Proof.
  induction prevAds as [|ad rest IH]; intros s; simpl.
  - steps. split; [reflexivity|]. exists []. split; [reflexivity|constructor].
  - apply post_bind.
    destruct (String.eqb (id ad) target) eqn:E.
    + unfold random. steps.
      eapply post_weaken; [apply IH|]. cbv beta.
      intros r s' l [Hu [ads [-> Hads]]]. steps.
      split; [exact Hu|]. eexists. split; [reflexivity|].
      constructor; [|exact Hads]. rewrite E. eauto.
    + steps. eapply post_weaken; [apply IH|]. cbv beta.
      intros r s' l [Hu [ads [-> Hads]]]. steps.
      split; [exact Hu|]. eexists. split; [reflexivity|].
      constructor; [|exact Hads]. rewrite E. reflexivity.
Qed.

(** What a regeneration does, in full. *)
Lemma handleRegenerateAd_post target s :
  post (handleRegenerateAd env regenerationPromptUrl target) s
    (fun r s' l =>
       r = Normal tt
       /\ ((~ In target (map id (generatedAds (ui s))) /\ s' = s /\ l = [])
           \/ (In target (map id (generatedAds (ui s)))
               /\ exists ads,
                    regenerated target (generatedAds (ui s)) ads
                    /\ ui s' = withGeneratedAds (fun _ => ads) (ui s)))).
Proof.
  unfold handleRegenerateAd. steps.
  destruct (List.find (fun ad => String.eqb (id ad) target) (generatedAds (ui s)))
    as [adToRegenerate|] eqn:Hfind.
  2:{ steps. split; [reflexivity|]. left. apply find_absent in Hfind. auto. }
  assert (Hin : In target (map id (generatedAds (ui s)))).
  { destruct (in_dec string_dec target (map id (generatedAds (ui s)))) as [H|H]; [exact H|].
    apply find_absent in H. congruence. }
  unfold setGeneratedAds at 1. steps.
  set (s1 := {| tick := tick s; ui := withGeneratedAds (mapAd target (marked true)) (ui s) |}).
  assert (Hinner :
    post match productImage (ui s) with
         | Some image =>
             if negb (String.eqb (productDescription (ui s)) EmptyString)
             then try_catch
                    (regenerateWithApi env regenerationPromptUrl target adToRegenerate image
                       (productDescription (ui s)))
                    (fun _ => ret false)
             else ret false
         | None => ret false
         end s1
      (fun r s' _ =>
         (r = Normal true
          /\ exists img, ui s' = withGeneratedAds (mapAd target (renewed img)) (ui s1))
         \/ (r = Normal false /\ ui s' = ui s1))).
  { destruct (productImage (ui s)) as [image|]; [|steps; auto].
    destruct (negb (String.eqb (productDescription (ui s)) EmptyString)); [|steps; auto].
    apply post_try.
    eapply post_weaken; [apply regenerateWithApi_post|]. cbv beta.
    intros r s' l [[-> Himg]|[Hr Hu]]; [left; auto|].
    destruct r as [[|]|e]; steps; [congruence|right; auto|right; auto]. }
  eapply post_weaken; [exact Hinner|]. cbv beta.
  intros r s2 l2 [[-> [img Hu]]|[-> Hu]].
  - steps. split; [reflexivity|]. right. split; [exact Hin|].
    exists (mapAd target (renewed img) (mapAd target (marked true) (generatedAds (ui s)))).
    split.
    + apply regenerated_after_mark, regenerated_mapAd.
    + rewrite Hu. reflexivity.
  - steps.
    eapply post_weaken; [apply placeholders_post|]. cbv beta.
    intros r s3 l3 [Hu3 [ads [-> Hads]]].
    unfold setGeneratedAds. steps.
    split; [reflexivity|]. right. split; [exact Hin|].
    exists ads. split.
    + apply regenerated_after_mark. rewrite Hu in Hads. exact Hads.
    + simpl. rewrite Hu3, Hu. reflexivity.
Qed.

End Facts.

End HomeFacts.
(* ================================================================== *)
(** ** Facts about a top-level generation                             *)
(* ================================================================== *)

Module RunFacts.
Import JS Eff OpenaiService Home Logic LogicFacts ServiceFacts Spec HomeFacts.
Local Open Scope eff_scope.

(** *** Computations that only see the tick *)

Lemma blind_ret {A : Type} (a : A) : blind (ret a).
Proof. intros s1 s2 H. simpl. auto. Qed.

Lemma blind_throw {A : Type} e : blind (@throw A e).
Proof. intros s1 s2 H. simpl. auto. Qed.

Lemma blind_lift {A : Type} (c : completion A) : blind (lift c).
Proof. intros s1 s2 H. simpl. auto. Qed.

Lemma blind_ask {A : Type} (answer : nat -> completion A) ev : blind (ask answer ev).
Proof. intros s1 s2 H. unfold ask. simpl. rewrite H. auto. Qed.

Lemma blind_bind {A B : Type} (m : M A) (k : A -> M B) :
  blind m -> (forall a, blind (k a)) -> blind (bind m k).
Proof.
  intros Hm Hk s1 s2 H. destruct (Hm s1 s2 H) as [Hr [Hl Ht]].
  unfold bind. cbv zeta. rewrite <- Hr.
  destruct (result (m s1)) as [a|e]; simpl.
  - destruct (Hk a _ _ Ht) as [Hr' [Hl' Ht']]. rewrite Hl, Hl'. auto.
  - auto.
Qed.

Lemma blind_try {A : Type} (m : M A) (h : exn -> M A) :
  blind m -> (forall e, blind (h e)) -> blind (try_catch m h).
Proof.
  intros Hm Hh s1 s2 H. destruct (Hm s1 s2 H) as [Hr [Hl Ht]].
  unfold try_catch. cbv zeta. rewrite <- Hr.
  destruct (result (m s1)) as [a|e] eqn:E; simpl.
  - rewrite E. auto.
  - destruct (Hh e _ _ Ht) as [Hr' [Hl' Ht']]. rewrite Hl, Hl'. auto.
Qed.

Ltac unseen :=
  repeat first
    [ apply blind_bind
    | apply blind_try
    | apply blind_ret
    | apply blind_throw
    | apply blind_lift
    | apply blind_ask
    | match goal with
      | |- forall _, _ => intro
      | |- blind (if ?b then _ else _) => destruct b
      | |- blind (match ?x with _ => _ end) => destruct x
      end ].

Section Run.
Variable env : Env.

Lemma blind_enhancePrompt userPrompt : blind (enhancePrompt env userPrompt).
Proof. unfold enhancePrompt, create_completion. unseen. Qed.

Lemma blind_fileToDataUrl file : blind (fileToDataUrl env file).
Proof. unfold fileToDataUrl. unseen. Qed.

Lemma blind_resolvePromptConfig description : blind (resolvePromptConfig env description).
Proof. unfold resolvePromptConfig, fetch, response_json. unseen. Qed.

Lemma try_catch_total {A : Type} (m : M A) (x : A) s :
  exists a, result (try_catch m (fun _ => ret x) s) = Normal a.
Proof.
  unfold try_catch. cbv zeta. destruct (result (m s)) eqn:E; simpl; eauto.
Qed.

Ltac walk :=
  repeat (steps;
          try match goal with
              | |- match ?c with Normal _ => _ | Throw _ => _ end => destruct c
              end).

Lemma enhancePrompt_result userPrompt s :
  post (enhancePrompt env userPrompt) s
    (fun r s' l =>
       (configured (VITE_OPENAI_API_KEY env) = false ->
        r = Throw not_configured /\ l = [] /\ s' = s)
       /\ (configured (VITE_OPENAI_API_KEY env) = true ->
           (exists text, r = Normal text) /\ tick s' = S (tick s))).
Proof.
  unfold enhancePrompt.
  destruct (configured (VITE_OPENAI_API_KEY env)); simpl negb; cbv iota.
  - apply post_and; [unfold post; discriminate|].
    unfold create_completion. walk; intros _; (split; [eauto|reflexivity]).
  - steps. split; [auto|discriminate].
Qed.

Lemma fileToDataUrl_result image s :
  post (fileToDataUrl env image) s
    (fun r s' _ => (readable env image -> exists url, r = Normal url)
                   /\ tick s' = S (tick s)).
Proof.
  unfold fileToDataUrl. steps. split; [intros H; apply H|reflexivity].
Qed.

Lemma resolvePromptConfig_result description s :
  post (resolvePromptConfig env description) s
    (fun r s' l => (exists config, r = Normal config) /\ no_posts l
                   /\ tick s' = S (tick s)).
Proof.
  assert (Hq : no_posts ([Got gistUrl] ++ [] ++ [])%list)
    by (apply no_posts_one; discriminate).
  unfold resolvePromptConfig, fetch, response_json. steps.
  destruct (fetch_get env (tick s) gistUrl) as [response|e]; steps;
    [|split; [eauto|split; [exact Hq|reflexivity]]].
  destruct (ok response); steps; [|split; [eauto|split; [exact Hq|reflexivity]]].
  destruct (json response); steps;
    (split; [eauto|split; [exact Hq|reflexivity]]).
Qed.

(** *** The interval of a run *)

Lemma lt_le a b : SFltb a b = true -> SFleb a b = true.
Proof.
  unfold SFltb, SFleb. destruct (SFcompare a b) as [[| |]|]; auto.
Qed.

Lemma Math_min_bound x :
  Animation.is_nan (Animation.Math_min Animation.maxProgress x) = true
  \/ Animation.ge Animation.maxProgress (Animation.Math_min Animation.maxProgress x) = true.
Proof.
  unfold Animation.Math_min.
  destruct (Animation.is_nan Animation.maxProgress || Animation.is_nan x);
    [left; reflexivity|].
  right. unfold Animation.ge, Animation.lt.
  destruct (SFltb x Animation.maxProgress) eqn:E1; [apply lt_le; exact E1|].
  destruct (SFltb Animation.maxProgress x); reflexivity.
Qed.

Lemma callback_painted c v m :
  snd (Animation.callback c) = Animation.Painted v m ->
  Animation.is_nan v = true \/ Animation.ge Animation.maxProgress v = true.
Proof.
  unfold Animation.callback.
  destruct (Animation.ge c Animation.maxProgress); [discriminate|]. cbv zeta. cbn [snd].
  intros H. injection H as Hv _. rewrite <- Hv. apply Math_min_bound.
Qed.

Lemma below_100 v :
  Animation.is_nan v = true \/ Animation.ge Animation.maxProgress v = true ->
  v <> Animation.integer 100.
Proof.
  intros [H|H] E; subst v; vm_compute in H; discriminate.
Qed.

Lemma progressed_next k : forall c,
  Animation.progressed (S k) c = fst (Animation.callback (Animation.progressed k c)).
Proof.
  induction k as [|k IH]; intros c; [reflexivity|].
  change (Animation.progressed (S (S k)) c)
    with (Animation.progressed (S k) (fst (Animation.callback c))).
  rewrite IH. reflexivity.
Qed.

Lemma callback_cases c :
  (Animation.ge c Animation.maxProgress = true
   /\ Animation.callback c = (c, Animation.Cleared))
  \/ (Animation.ge c Animation.maxProgress = false
      /\ exists v m, Animation.callback c = (v, Animation.Painted v m)).
Proof.
  unfold Animation.callback. destruct (Animation.ge c Animation.maxProgress); eauto.
Qed.

Lemma repaint_tracked k value message own :
  tracked k value own ->
  tracked (S k) (fst (fst (repaint (value, message, own))))
    (snd (repaint (value, message, own))).
Proof.
  intros [Hv [Ho|[Ho Hge]]]; subst own; unfold repaint, tracked; rewrite progressed_next, <- Hv.
  - destruct (callback_cases value) as [[Hge E]|[Hlt [v [m E]]]]; rewrite E; simpl; auto.
  - destruct (callback_cases value) as [[_ E]|[Hlt _]]; [|congruence].
    rewrite E. simpl. auto.
Qed.

Lemma painted_tracked n : forall k value message own,
  tracked k value own ->
  tracked (n + k) (fst (fst (Nat.iter n repaint (value, message, own))))
    (snd (Nat.iter n repaint (value, message, own))).
Proof.
  induction n as [|n IH]; intros k value message own H; [exact H|].
  rewrite Nat.iter_succ. specialize (IH k value message own H).
  destruct (Nat.iter n repaint (value, message, own)) as [[v m] o].
  apply (repaint_tracked (n + k) v m o IH).
Qed.

Lemma replace_timer_last t own l :
  replace_timer (List.length l) t (l ++ [own]) = (l ++ [t])%list.
Proof. induction l as [|x l IH]; simpl; [reflexivity|]. rewrite IH. reflexivity. Qed.

Lemma nth_error_last (own : Timer) l : nth_error (l ++ [own]) (List.length l) = Some own.
Proof. induction l as [|x l IH]; simpl; auto. Qed.

(** The state [running] with what [shown] holds. *)
Lemma fire_running value message own u :
  (forall ms, own <> ClearLoading ms) ->
  fire (List.length (timers u)) (running value message own u)
  = running (fst (fst (repaint (value, message, own))))
      (snd (fst (repaint (value, message, own))))
      (snd (repaint (value, message, own))) u.
Proof.
  intros Hown. unfold fire, repaint.
  change (timers (running value message own u)) with (timers u ++ [own])%list.
  rewrite nth_error_last.
  destruct own as [c|ms|]; [|destruct (Hown ms eq_refl)|reflexivity].
  destruct (Animation.callback c) as [next [|v' m']]; simpl.
  - unfold withTimers, running. simpl. rewrite replace_timer_last. reflexivity.
  - destruct m' as [m'|]; unfold withTimers, withProgressMessage, withProgress, running;
      simpl; rewrite replace_timer_last; reflexivity.
Qed.

Lemma repaint_kind shown :
  (forall ms, snd shown <> ClearLoading ms) ->
  forall ms, snd (repaint shown) <> ClearLoading ms.
Proof.
  destruct shown as [[v m] own]. simpl. intros H ms.
  destruct own as [c|ms'|]; simpl; auto; try discriminate.
  destruct (Animation.callback c) as [next [|v' m']]; discriminate.
Qed.

Lemma iter_fire_running n : forall value message own u,
  (forall ms, own <> ClearLoading ms) ->
  Nat.iter n (fire (List.length (timers u))) (running value message own u)
  = running (fst (fst (Nat.iter n repaint (value, message, own))))
      (snd (fst (Nat.iter n repaint (value, message, own))))
      (snd (Nat.iter n repaint (value, message, own))) u
  /\ forall ms, snd (Nat.iter n repaint (value, message, own)) <> ClearLoading ms.
Proof.
  induction n as [|n IH]; intros value message own u Hown; [split; [reflexivity|exact Hown]|].
  rewrite !Nat.iter_succ. destruct (IH value message own u Hown) as [E Hk]. rewrite E.
  destruct (Nat.iter n repaint (value, message, own)) as [[v m] o]. simpl in Hk |- *.
  split; [apply fire_running; exact Hk|].
  apply (repaint_kind (v, m, o)). exact Hk.
Qed.

(** What a wait of the run makes of a state [running]. *)
Lemma waited n k value message own u :
  tracked k value own ->
  exists value' message' own',
    Nat.iter n (fire (List.length (timers u))) (running value message own u)
    = running value' message' own' u
    /\ tracked (n + k) value' own'
    /\ (n = O -> message' = message).
Proof.
  intros H.
  assert (Hown : forall ms, own <> ClearLoading ms).
  { intros ms E. destruct H as [_ [K|[K _]]]; congruence. }
  destruct (iter_fire_running n value message own u Hown) as [E _].
  pose proof (painted_tracked n k value message own H) as Ht.
  eexists _, _, _. split; [exact E|]. split; [exact Ht|].
  intros ->. reflexivity.
Qed.

Lemma post_awaiting {A : Type} interval j (m : M A) s
  (Q : completion A -> State -> list Event -> Prop) :
  post m s (fun r s' l =>
              (tick s' = tick s -> Q r s' l)
              /\ (tick s' <> tick s ->
                  Q r {| tick := tick s';
                         ui := Nat.iter (interval_calls env interval j) (fire interval)
                                 (ui s') |} l)) ->
  post (awaiting env interval j m) s Q.
Proof.
  unfold post, awaiting. cbv zeta. intros [Hsame Hother].
  destruct (Nat.eqb_spec (tick (final (m s))) (tick s)) as [E|E]; auto.
Qed.

(** A wait of the run on a computation that leaves the React state
    alone: the completion and the log are those of the computation, and
    the state is still [running]. *)
Lemma awaiting_running {A : Type} j (m : M A) s value message own k u0 :
  frame m ->
  ui s = running value message own u0 ->
  tracked k value own ->
  post (awaiting env (List.length (timers u0)) j m) s
    (fun r s' l =>
       r = result (m s) /\ l = log (m s) /\ tick s' = tick (final (m s))
       /\ exists value' message' own' k',
            ui s' = running value' message' own' u0
            /\ tracked k' value' own'
            /\ (tick (final (m s)) = tick s ->
                value' = value /\ message' = message /\ own' = own)).
Proof.
  intros Hf Hu Ht. apply post_awaiting. unfold post.
  destruct (Hf s) as [Hframe _]. fold (post m s) in Hframe. unfold post in Hframe.
  split.
  - intros E. repeat split; auto.
    exists value, message, own, k. rewrite Hframe, Hu. auto.
  - intros E. cbn [tick ui]. repeat split; auto.
    rewrite Hframe, Hu.
    destruct (waited (interval_calls env (List.length (timers u0)) j) k value message own u0 Ht)
      as [v' [m' [o' [E' [T' _]]]]].
    exists v', m', o', (interval_calls env (List.length (timers u0)) j + k)%nat.
    split; [exact E'|]. split; [exact T'|]. intros K. contradiction.
Qed.

Ltac name_interval u :=
  match goal with
  | |- post (awaiting _ ?n _ _) _ _ => change n with (List.length (timers u))
  end.

Lemma generateAdVariations_post description image s :
  post (generateAdVariations env description image) s
    (fun r s' l =>
       r = Normal tt
       /\ ((exists e value message own k,
              ui s' = aborted e value message own (ui s) /\ no_posts l
              /\ ~ (configured (VITE_OPENAI_API_KEY env) = true /\ readable env image)
              /\ tracked k value own
              /\ (configured (VITE_OPENAI_API_KEY env) = false ->
                  e = not_configured /\ message = "Enhancing your description with AI"
                  /\ l = []
                  /\ k = interval_calls env (List.length (timers (ui s))) 0))
           \/ (exists s0 l0 basePrompt imageDataUrl adTypes own,
                 let batch := generateAds env basePrompt imageDataUrl adTypes [] s0 in
                 no_posts l0
                 /\ tick s0 = S (S (S (tick s)))
                 /\ configured (VITE_OPENAI_API_KEY env) = true
                 /\ (exists enhanced,
                       result (enhancePrompt env description s) = Normal enhanced
                       /\ result (fileToDataUrl env image (at_tick (S (tick s)) (ui s)))
                          = Normal imageDataUrl
                       /\ result (resolvePromptConfig env enhanced
                                    (at_tick (S (S (tick s))) (ui s)))
                          = Normal (basePrompt, adTypes)
                       /\ l0 = (log (enhancePrompt env description s)
                                ++ log (fileToDataUrl env image
                                          (at_tick (S (tick s)) (ui s)))
                                ++ log (resolvePromptConfig env enhanced
                                          (at_tick (S (S (tick s))) (ui s))))%list)
                 /\ l = (l0 ++ log batch)%list
                 /\ ui s' = finished (result batch) own (ui s)
                 /\ exists k value, tracked k value own))).
Proof.
  unfold generateAdVariations.
  unfold setIsGenerating, setGenerationError, setCurrentStep, setProgressValue,
    setProgressMessage, startProgressAnimation, imported, setTimeout_clearLoading,
    setGeneratedAds.
  steps.
  set (i := List.length (timers (ui s))).
  assert (T0 : tracked 0 (Animation.integer 0) (ProgressAnimation (Animation.integer 0)))
    by (split; [reflexivity|left; reflexivity]).
  destruct (waited (interval_calls env i 0) 0 (Animation.integer 0) "Enhancing your prompt"
              (ProgressAnimation (Animation.integer 0)) (ui s) T0)
    as [v1 [m1 [own1 [E1 [T1 _]]]]].
  rewrite Nat.add_0_r in T1.
  match goal with
  | |- post _ ?st _ =>
      set (s1 := st);
      assert (Hs1 : ui s1 = running v1 "Enhancing your description with AI" own1 (ui s))
        by (change (ui s1)
              with (withProgressMessage "Enhancing your description with AI"
                      (Nat.iter (interval_calls env i 0) (fire (List.length (timers (ui s))))
                         (running (Animation.integer 0) "Enhancing your prompt"
                            (ProgressAnimation (Animation.integer 0)) (ui s))));
            rewrite E1; reflexivity);
      assert (Ht1 : tick s1 = tick s) by reflexivity;
      clearbody s1
  end.
  name_interval (ui s).
  eapply post_weaken.
  { apply post_and;
      [apply (awaiting_running 1 (enhancePrompt env description) s1 v1
                "Enhancing your description with AI" own1 _ (ui s)
                (frame_enhancePrompt env description) Hs1 T1)
      |apply post_and; [apply post_result|]].
    apply post_awaiting. eapply post_weaken; [apply quiet_enhancePrompt|].
    cbv beta. intros r s' l H. split; intros _; exact H. }
  cbv beta. intros r s2 l2 [[Hr2 [Hl2 [Htk2 [v2 [m2 [own2 [k2 [Hu2 [T2 Hsame2]]]]]]]]] [_ Hq2]].
  pose proof (enhancePrompt_result description s1) as Hres. unfold post in Hres.
  destruct Hres as [Hno Hyes].
  destruct (blind_enhancePrompt description s1 s Ht1) as [Hb1 [Hlg1 _]].
  destruct r as [enhanced|e].
  2:{ steps. split; [reflexivity|]. left.
      destruct (configured (VITE_OPENAI_API_KEY env)) eqn:Hkey.
      { destruct (Hyes eq_refl) as [[text Ht] _]. congruence. }
      destruct (Hno eq_refl) as [He [Hl Hs]].
      assert (Hk : tick (final (enhancePrompt env description s1)) = tick s1)
        by (rewrite Hs; reflexivity).
      destruct (Hsame2 Hk) as [-> [-> ->]].
      exists e, v1, "Enhancing your description with AI", own1, (interval_calls env i 0).
      simpl. rewrite Hu2. split; [reflexivity|].
      split; [rewrite !List.app_nil_r; exact Hq2|].
      split; [intros [K _]; discriminate|].
      split; [exact T1|].
      intros _. rewrite <- Hr2 in He. injection He as ->.
      rewrite !List.app_nil_r, Hl2, Hl. auto. }
  assert (Hkey : configured (VITE_OPENAI_API_KEY env) = true).
  { destruct (configured (VITE_OPENAI_API_KEY env)); [reflexivity|].
    destruct (Hno eq_refl) as [K _]. congruence. }
  destruct (Hyes Hkey) as [_ Htick1].
  assert (Henh : result (enhancePrompt env description s) = Normal enhanced) by congruence.
  clear Hno Hyes Hsame2 Hb1 Hr2.
  steps.
  match goal with
  | |- post _ ?st _ =>
      set (s3 := st);
      assert (Hs3 : ui s3 = running v2 "Uploading your image" own2 (ui s))
        by (subst s3; simpl; rewrite Hu2; reflexivity);
      assert (Ht3 : tick s3 = S (tick s)) by (subst s3; simpl; congruence);
      clearbody s3
  end.
  name_interval (ui s).
  eapply post_weaken.
  { apply post_and;
      [apply (awaiting_running 2 (fileToDataUrl env image) s3 v2 "Uploading your image"
                own2 _ (ui s) (frame_fileToDataUrl env image) Hs3 T2)|].
    apply post_awaiting. eapply post_weaken; [apply quiet_fileToDataUrl|].
    cbv beta. intros r s' l H. split; intros _; exact H. }
  cbv beta. intros r s4 l4 [[Hr4 [Hl4 [Htk4 [v4 [m4 [own4 [k4 [Hu4 [T4 _]]]]]]]]] Hq4].
  pose proof (fileToDataUrl_result image s3) as Hres. unfold post in Hres.
  destruct Hres as [Hread Htick3].
  destruct (blind_fileToDataUrl image s3 (at_tick (S (tick s)) (ui s)) Ht3) as [Hb3 [Hlg3 _]].
  destruct r as [imageDataUrl|e].
  2:{ steps. split; [reflexivity|]. left.
      exists e, v4, m4, own4, k4. simpl. rewrite Hu4. split; [reflexivity|].
      split; [rewrite !List.app_nil_r; apply no_posts_app; assumption|].
      split; [intros [_ Hr]; destruct (Hread Hr) as [u Hu]; congruence|].
      split; [exact T4|]. intros Hc. congruence. }
  assert (Hfile : result (fileToDataUrl env image (at_tick (S (tick s)) (ui s)))
                  = Normal imageDataUrl) by congruence.
  clear Hread Hb3 Hr4.
  steps.
  assert (Ht4 : tick s4 = S (S (tick s))) by congruence.
  name_interval (ui s).
  eapply post_weaken.
  { apply post_and;
      [apply (awaiting_running 3 (resolvePromptConfig env enhanced) s4 v4 m4 own4 _ (ui s)
                (frame_resolvePromptConfig env enhanced) Hu4 T4)|].
    apply post_awaiting. eapply post_weaken; [apply resolvePromptConfig_result|].
    cbv beta. intros r s' l H. split; intros _; exact H. }
  cbv beta.
  intros r s5 l5 [[Hr5 [Hl5 [Htk5 [v5 [m5 [own5 [k5 [Hu5 [T5 _]]]]]]]]] [[config Hconfig] [Hq5 _]]].
  pose proof (resolvePromptConfig_result enhanced s4) as Hres. unfold post in Hres.
  destruct Hres as [_ [_ Htick4]].
  destruct (blind_resolvePromptConfig enhanced s4 (at_tick (S (S (tick s))) (ui s)) Ht4)
    as [Hb4 [Hlg4 _]].
  assert (Hresolved : result (resolvePromptConfig env enhanced
                                (at_tick (S (S (tick s))) (ui s)))
                      = Normal (fst config, snd config)).
  { rewrite <- surjective_pairing. congruence. }
  clear Hr5. subst r.
  assert (Ht5 : tick s5 = S (S (S (tick s)))) by congruence.
  clear Hb4 Htick4.
  steps.
  name_interval (ui s).
  eapply post_weaken.
  { apply (awaiting_running 4 (generateAds env (fst config) imageDataUrl (snd config) [])
             s5 v5 m5 own5 _ (ui s)
             (frame_generateAds env (fst config) imageDataUrl (snd config) []) Hu5 T5). }
  cbv beta. intros r s6 l6 [Hr6 [Hl6 [_ [v6 [m6 [own6 [k6 [Hu6 [T6 _]]]]]]]]].
  destruct r as [ads|e].
  - steps. split; [reflexivity|]. right.
    exists s5, (l2 ++ l4 ++ l5)%list, (fst config), imageDataUrl, (snd config), own6.
    cbv zeta. rewrite <- Hr6.
    split; [repeat apply no_posts_app; assumption|].
    split; [exact Ht5|]. split; [exact Hkey|].
    split; [exists enhanced; repeat split; auto; congruence|]. split.
    + rewrite !List.app_nil_r, !List.app_nil_l, <- !List.app_assoc, Hl6. reflexivity.
    + split; [simpl; rewrite Hu6; reflexivity|eauto].
  - steps. split; [reflexivity|]. right.
    exists s5, (l2 ++ l4 ++ l5)%list, (fst config), imageDataUrl, (snd config), own6.
    cbv zeta. rewrite <- Hr6.
    split; [repeat apply no_posts_app; assumption|].
    split; [exact Ht5|]. split; [exact Hkey|].
    split; [exists enhanced; repeat split; auto; congruence|]. split.
    + rewrite !List.app_nil_r, !List.app_nil_l, <- !List.app_assoc, Hl6. reflexivity.
    + split; [simpl; rewrite Hu6; reflexivity|eauto].
Qed.
End Run.

End RunFacts.
Import RunFacts.

(* ================================================================== *)
(** ** The properties                                                 *)
(* ================================================================== *)

Import JS Eff OpenaiService Home Spec Logic LogicFacts ServiceFacts Examples.
Local Open Scope string_scope.

Lemma get_normal v k x : get v k = Normal x -> x = own v k.
Proof. destruct v; simpl; congruence. Qed.

Lemma state_eta s : {| tick := tick s; ui := ui s |} = s.
Proof. destruct s. reflexivity. Qed.

Lemma withGeneratedAds_same f u :
  f (generatedAds u) = generatedAds u -> withGeneratedAds f u = u.
Proof. intros H. unfold withGeneratedAds. rewrite H. destruct u. reflexivity. Qed.

Lemma mapAd_nth target f ads i :
  nth_error (mapAd target f ads) i
  = option_map (fun ad => if String.eqb (id ad) target then f ad else ad) (nth_error ads i).
Proof. unfold mapAd. apply nth_error_map. Qed.

Lemma mapAd_absent target f ads :
  ~ In target (map id ads) -> mapAd target f ads = ads.
Proof.
  induction ads as [|ad ads IH]; simpl; intros H; [reflexivity|].
  destruct (String.eqb_spec (id ad) target) as [E|E].
  - exfalso. apply H. left. exact E.
  - f_equal. apply IH. intros K. apply H. right. exact K.
Qed.
(** *** The prompt enhancer *)

(** What [enhancePrompt] does with a credential: one completion is
    asked for, and the text comes from its answer. *)
Lemma enhancePrompt_configured (env : Env) (userPrompt : string) (s : State) :
  configured (VITE_OPENAI_API_KEY env) = true ->
  enhancePrompt env userPrompt s
  = Out (Normal
           match chat_completions_create env (tick s) (enhance_instruction ++ userPrompt) with
           | Normal response =>
               match first_choice_content response with
               | Str content =>
                   if String.eqb (trim content) EmptyString then userPrompt
                   else trim content
               | _ => userPrompt
               end
           | Throw _ => userPrompt
           end)
        {| tick := S (tick s); ui := ui s |}
        [ChatRequested (enhance_instruction ++ userPrompt)].
Proof.
  intros H. unfold enhancePrompt. cbv zeta. rewrite H. cbn [negb].
  unfold try_catch, bind, create_completion, ask, lift, ret, first_choice_content.
  cbv zeta. cbn [result final log].
  destruct (chat_completions_create env (tick s) (enhance_instruction ++ userPrompt))
    as [response|e]; [|reflexivity].
  destruct response as [| |b|z|text|items|props]; try reflexivity;
    cbn [get result final log app].
  all: match goal with
       | |- context [own ?v "choices"] => destruct (own v "choices") as [| |b'|z'|t'|i'|p']
       end; try reflexivity; cbn [get result final log app].
  all: match goal with
       | |- context [own ?v "0"] => destruct (own v "0") as [| |b2|z2|t2|i2|p2]
       end; try reflexivity; cbn [get_opt].
  all: match goal with
       | |- context [own ?v "message"] => destruct (own v "message") as [| |b3|z3|t3|i3|p3]
       end; try reflexivity; cbn [get_opt].
  all: match goal with
       | |- context [own ?v "content"] => destruct (own v "content") as [| |b4|z4|t4|i4|p4]
       end; try reflexivity; cbn [trim_opt result final log app truthy].
  all: destruct (String.eqb (trim t4) EmptyString); reflexivity.
Qed.

(** C1, as amended.  Without a credential [enhancePrompt] throws
    "OpenAI API key is not configured" before any network call.  With a
    credential it asks for exactly one chat completion, for the fixed
    instruction followed by the description, and never throws.  When the
    completion answers and [choices[0]?.message?.content] of the answer
    is a string whose [trim()] is not empty, it returns that trimmed
    string; when the trimmed string is empty, when the content is not a
    string, and when the call fails, it returns the original
    description. *)
Theorem enhancePrompt_best_effort (env : Env) (userPrompt : string) (s : State) :
  let o := enhancePrompt env userPrompt s in
  let answer :=
    chat_completions_create env (tick s) (enhance_instruction ++ userPrompt) in
  (configured (VITE_OPENAI_API_KEY env) = false -> o = Out (Throw not_configured) s [])
  /\
  (configured (VITE_OPENAI_API_KEY env) = true ->
     log o = [ChatRequested (enhance_instruction ++ userPrompt)]
     /\ final o = {| tick := S (tick s); ui := ui s |}
     /\ (forall response content,
           answer = Normal response ->
           first_choice_content response = Str content ->
           trim content <> EmptyString ->
           result o = Normal (trim content))
     /\ (forall response content,
           answer = Normal response ->
           first_choice_content response = Str content ->
           trim content = EmptyString ->
           result o = Normal userPrompt)
     /\ (forall response,
           answer = Normal response ->
           (forall content, first_choice_content response <> Str content) ->
           result o = Normal userPrompt)
     /\ (forall e, answer = Throw e -> result o = Normal userPrompt)
     /\ (forall fields choice choices message content,
           answer = Normal (Obj fields) ->
           lookup "choices" fields = Some (Arr (Obj choice :: choices)) ->
           lookup "message" choice = Some (Obj message) ->
           lookup "content" message = Some (Str content) ->
           result o = Normal (if String.eqb (trim content) EmptyString
                              then userPrompt else trim content))).
Proof.
  cbv zeta. split.
  - intros H. unfold enhancePrompt. rewrite H. reflexivity.
  - intros H. rewrite (enhancePrompt_configured env userPrompt s H). cbn [result final log].
    split; [reflexivity|]. split; [reflexivity|].
    split; [|split; [|split; [|split]]].
    + intros response content -> -> Hne.
      destruct (String.eqb_spec (trim content) EmptyString) as [E|_];
        [destruct (Hne E)|reflexivity].
    + intros response content -> -> ->. reflexivity.
    + intros response -> Hnot.
      destruct (first_choice_content response) as [| |b|z|content|items|props];
        try reflexivity.
      destruct (Hnot content eq_refl).
    + intros e ->. reflexivity.
    + intros fields choice choices message content -> Hchoices Hmessage Hcontent.
      unfold first_choice_content, get_opt, own. cbn [entries].
      rewrite Hchoices. cbn [entries indexed lookup]. cbn. rewrite Hmessage.
      cbn [entries]. rewrite Hcontent. reflexivity.
Qed.

(** C1 as stated fails: with no credential, or an empty one, the error
    reaches the caller and the original description is not returned. *)
Lemma enhancePrompt_throws_without_credential :
  result (enhancePrompt (world None unreachable image_b64 wall_clock) mug initial)
  = Throw (JsError "OpenAI API key is not configured")
  /\ result (enhancePrompt (world (Some "") unreachable image_b64 wall_clock) mug initial)
     <> Normal mug.
Proof. split; [reflexivity|discriminate]. Qed.

Example enhancePrompt_enhances :
  enhancePrompt (world key unreachable image_b64 wall_clock) mug initial
  = Out (Normal "A glossy blue ceramic mug on an oak table.")
        {| tick := 1; ui := ui initial |}
        [ChatRequested (enhance_instruction ++ mug)].
Proof. reflexivity. Qed.

(** A completion whose content is a no-break space (U+00A0) between
    two spaces: [trim()] leaves nothing, and the original description is
    returned. *)
Example enhancePrompt_of_blank_content :
  let blank_world :=
    {| VITE_OPENAI_API_KEY := key;
       chat_completions_create := fun _ _ =>
         Normal (completion_of (" " ++ chr 194 ++ chr 160 ++ " "));
       readAsDataURL := fun _ _ => Normal "data:image/png;base64,iVBORw0KGgo=";
       fetch_blob := fun _ _ => Normal (Some {| blob_type := "image/png" |});
       fetch_post := fun _ _ => unreachable;
       fetch_get := fun _ _ => unreachable;
       Date_now := wall_clock;
       Math_random := fun _ => "0.4217";
       toLowerCase := lowercase;
       body_used := chrome_body_used;
       interval_calls := fun _ _ => O |} in
  result (enhancePrompt blank_world mug initial) = Normal mug.
Proof. reflexivity. Qed.
(** *** Rating *)

(** C10.  [handleRateAd] rewrites every ad in place: an ad with the
    given identifier keeps its id, image, type and regeneration flag and
    takes the rating, whatever the number; any other ad is unchanged; an
    identifier that is not in the batch leaves the whole state as it
    was, and nothing but the batch is ever touched. *)
Theorem handleRateAd_changes_one_rating (target : string) (r : Z) (s : State) :
  let o := handleRateAd target r s in
  result o = Normal tt
  /\ (forall i ad,
        nth_error (generatedAds (ui s)) i = Some ad ->
        nth_error (generatedAds (ui (final o))) i
        = Some (if String.eqb (id ad) target then rated r ad else ad))
  /\ List.length (generatedAds (ui (final o))) = List.length (generatedAds (ui s))
  /\ (forall ad,
        rating (rated r ad) = Some r /\ id (rated r ad) = id ad
        /\ imageUrl (rated r ad) = imageUrl ad /\ adType (rated r ad) = adType ad
        /\ isRegenerating (rated r ad) = isRegenerating ad)
  /\ (~ In target (map id (generatedAds (ui s))) -> final o = s)
  /\ withGeneratedAds (fun _ => generatedAds (ui s)) (ui (final o)) = ui s.
Proof.
  cbv zeta. unfold handleRateAd, setGeneratedAds, update. simpl.
  split; [reflexivity|]. split; [|split; [|split; [|split]]].
  - intros i ad H. rewrite mapAd_nth, H. reflexivity.
  - unfold mapAd. apply length_map.
  - intros ad. repeat split.
  - intros H. rewrite withGeneratedAds_same by (apply mapAd_absent; exact H).
    apply state_eta.
  - destruct s as [t u]. destruct u. reflexivity.
Qed.
(** *** The parser of image-edit responses *)

Lemma own_first items : own (Arr items) "0" = nth 0 items Undefined.
Proof. destruct items; reflexivity. Qed.

Lemma truthy_first items first :
  first = nth 0 items Undefined -> truthy first = true ->
  exists rest, items = first :: rest.
Proof.
  intros E H. destruct items as [|x rest]; simpl in E; subst.
  - discriminate.
  - eauto.
Qed.

Lemma spec_scan data :
  spec_primary data = None ->
  spec_extract data
  = located match findUrls data with
            | url :: _ => Normal (Str url)
            | [] => Throw no_urls_in_response
            end.
Proof.
  intros H. unfold spec_extract. rewrite H. destruct (findUrls data); reflexivity.
Qed.



(** The three strategies on concrete responses. *)
Example parser_scans_when_data_is_absent :
  extractImage nested_body = Normal (Str "https://cdn.example/a.png")
  /\ findUrls nested_body = ["https://cdn.example/a.png"; "https://cdn.example/b.png"].
Proof. split; reflexivity. Qed.

Example parser_reads_url_and_base64 :
  result (generateImages (world key unreachable image_url wall_clock)
            "An ad" "iVBORw0KGgo=" 1 "1024x1024" "hd" initial)
  = Normal [Str "https://oaidalle.example/img-1.png"]
  /\ result (generateImages (world key unreachable image_b64 wall_clock)
               "An ad" "iVBORw0KGgo=" 1 "1024x1024" "hd" initial)
     = Normal [Str "data:image/png;base64,iVBORw0KGgoAAAANSUhEUg=="].
Proof. split; vm_compute; reflexivity. Qed.

Example parser_reads_other_property_of_first_entry :
  extractImage (Obj [("data", Arr [Obj [("kind", Str "image");
                                        ("href", Str "https://cdn.example/c.png")]])])
  = Normal (Str "https://cdn.example/c.png").
Proof. reflexivity. Qed.

(** What [generateImages] makes of one successful response: the image
    the parser extracts, or the parser's error under the message
    [final_message] gives it. *)
Lemma generateImages_reads_response env prompt url size quality s blob response data :
  configured (VITE_OPENAI_API_KEY env) = true ->
  (forall t u, fetch_blob env t u = Normal (Some blob)) ->
  (forall t form, fetch_post env t form = Normal response) ->
  ok response = true ->
  json response = Some data ->
  result (generateImages env prompt url 1 size quality s)
  = match extractImage data with
    | Normal image => Normal [image]
    | Throw e => Throw (JsError (final_message e))
    end.
Proof.
  intros Hkey Hblob Hpost Hok Hjson.
  unfold generateImages. rewrite Hkey. simpl negb. cbv iota.
  change (Z.to_nat 1) with 1%nat. cbn [requests].
  apply (post_try _ _ s (fun r _ _ => r = _)).
  apply post_bind, post_bind.
  unfold requestImage. apply post_try, post_bind.
  unfold now. apply post_ask. cbv iota.
  apply post_bind.
  assert (Hb : forall s0 (Q : completion (option Blob) -> State -> list Event -> Prop),
             (forall u, Q (Normal (Some blob)) {| tick := S (tick s0); ui := ui s0 |}
                          [BlobFetched u]) ->
             post (fetchImageBlob env url) s0 Q).
  { intros s0 Q HQ. unfold fetchImageBlob, fetch_as_blob.
    destruct (startsWith url "data:"); [|destruct (startsWith url "http")];
      apply post_ask; rewrite Hblob; apply HQ. }
  apply Hb. intros u. cbv iota.
  apply post_bind. unfold fetch_edits. apply post_ask. rewrite Hpost. cbv iota.
  apply post_bind, post_ask. cbv iota.
  rewrite Hok. simpl negb. cbv iota. rewrite Hjson.
  apply post_lift.
  destruct (extractImage data) as [image|e].
  - apply post_bind. simpl. apply post_ret. apply post_ret. reflexivity.
  - apply post_throw. apply post_throw. reflexivity.
Qed.
(** *** The prompt configuration *)

Lemma substitution_literal matched before after r :
  dollar_free r = true -> substitution matched before after r = r.
Proof.
  induction r as [|c r IH]; simpl; intros H; [reflexivity|].
  apply andb_prop in H. destruct H as [Hc Hr].
  destruct (Ascii.eqb c "$"); [discriminate|].
  rewrite IH by exact Hr. reflexivity.
Qed.

(** Without a dollar sign in the description, [replace] puts it in
    place of the first placeholder, letter for letter. *)
Lemma replace_literal template description :
  dollar_free description = true ->
  replace template "{DESCRIPTION}" description
  = substitute_placeholder template description.
Proof.
  intros H. unfold replace, substitute_placeholder.
  destruct (find_first "{DESCRIPTION}" template) as [[before after]|]; [|reflexivity].
  rewrite substitution_literal by exact H. reflexivity.
Qed.

Lemma own_of_get v k : nullish v = false -> get v k = Normal (own v k).
Proof. destruct v; simpl; intros H; try reflexivity; discriminate. Qed.

Lemma get_of_nullish v k : nullish v = true -> exists e, get v k = Throw e.
Proof. destruct v; simpl; intros H; try discriminate; eauto. Qed.

(** What the two assignments leave in [basePrompt] and [adTypes]. *)
Lemma overlay_cases externalConfig description config :
  let b := own externalConfig "basePrompt" in
  let a := own externalConfig "adTypes" in
  (nullish externalConfig = true ->
     snd (overlay externalConfig description config) = config)
  /\ (nullish externalConfig = false ->
        (truthy b = false ->
           snd (overlay externalConfig description config)
           = (fst config, match a with Arr items => items | _ => snd config end))
        /\ (forall template,
              b = Str template -> template <> EmptyString ->
              snd (overlay externalConfig description config)
              = (replace template "{DESCRIPTION}" description,
                 match a with Arr items => items | _ => snd config end))
        /\ (truthy b = true -> is_string b = false ->
              snd (overlay externalConfig description config) = config)).
Proof.
  cbv zeta. split.
  - intros H. destruct (get_of_nullish _ "basePrompt" H) as [e He].
    unfold overlay, overrideBasePrompt. rewrite He. reflexivity.
  - intros H.
    assert (Ha : forall base,
               match overrideAdTypes externalConfig (snd config) with
               | Throw e => (@Throw (string * list value) e, (base, snd config))
               | Normal adTypes => (Normal (base, adTypes), (base, adTypes))
               end
               = (Normal (base, match own externalConfig "adTypes" with
                                | Arr items => items
                                | _ => snd config
                                end),
                  (base, match own externalConfig "adTypes" with
                         | Arr items => items
                         | _ => snd config
                         end))).
    { intros base. unfold overrideAdTypes.
      rewrite (own_of_get _ "adTypes" H). simpl and_then.
      destruct (own externalConfig "adTypes"); simpl; try reflexivity.
      - destruct b; reflexivity.
      - destruct (negb (z =? 0)%Z); reflexivity.
      - destruct (negb (String.eqb s EmptyString)); reflexivity. }
    unfold overlay, overrideBasePrompt.
    rewrite (own_of_get _ "basePrompt" H). simpl and_then.
    split; [|split].
    + intros Hb. rewrite Hb. rewrite Ha. reflexivity.
    + intros template Hb Ht. rewrite Hb. simpl truthy.
      destruct (String.eqb_spec template EmptyString) as [E|E]; [contradiction|].
      simpl negb. cbv iota. rewrite Ha. reflexivity.
    + intros Hb Hs. rewrite Hb.
      destruct (own externalConfig "basePrompt"); try reflexivity; discriminate.
Qed.

(** The value of the resolution, by the answer of the configuration
    URL. *)
Lemma resolvePromptConfig_value (env : Env) (description : string) (s : State) :
  result (resolvePromptConfig env description s)
  = Normal match fetch_get env (tick s) gistUrl with
           | Normal response =>
               if ok response then
                 match json response with
                 | Some externalConfig =>
                     snd (overlay externalConfig description
                            (defaultBasePrompt description, defaultAdTypes))
                 | None => (defaultBasePrompt description, defaultAdTypes)
                 end
               else (defaultBasePrompt description, defaultAdTypes)
           | Throw _ => (defaultBasePrompt description, defaultAdTypes)
           end.
Proof.
  unfold resolvePromptConfig, try_catch, bind, fetch, ask, response_json. cbv zeta.
  cbn [result final log].
  destruct (fetch_get env (tick s) gistUrl) as [response|e]; [|reflexivity].
  destruct (ok response); [|reflexivity].
  destruct (json response); reflexivity.
Qed.

(** C5, as amended.  The resolution never fails.  When the fetch
    throws, or answers with a status that is not OK, or with a body that
    is not JSON, the result is the built-in configuration exactly.  When
    the body is JSON: a [basePrompt] that is a non-empty string replaces
    the base prompt, its first [{DESCRIPTION}] replaced by the enhanced
    description as [String.prototype.replace] does it (letter for letter
    as long as the description holds no dollar sign); a missing or falsy
    [basePrompt] keeps the built-in one; and [adTypes] replaces the whole
    sequence whenever it is a list - the empty list included.  A body that
    is [null], or whose [basePrompt] is truthy but no string, keeps both
    built-in values.  Where the remote list is not empty, the base prompt
    is missing or a non-empty string and the description has no dollar
    sign, this is the configuration the specification describes. *)
Theorem resolvePromptConfig_layers (env : Env) (description : string) (s : State) :
  let answer := fetch_get env (tick s) gistUrl in
  let builtin := (defaultBasePrompt description, defaultAdTypes) in
  exists config,
    result (resolvePromptConfig env description s) = Normal config
    /\ (forall e, answer = Throw e -> config = builtin)
    /\ (forall response, answer = Normal response ->
          (ok response = false -> config = builtin)
          /\ (ok response = true -> json response = None -> config = builtin)
          /\ (forall externalConfig,
                ok response = true -> json response = Some externalConfig ->
                let b := own externalConfig "basePrompt" in
                let a := own externalConfig "adTypes" in
                (nullish externalConfig = true -> config = builtin)
                /\ (nullish externalConfig = false ->
                      (truthy b = false ->
                         config = (defaultBasePrompt description,
                                   match a with Arr items => items | _ => defaultAdTypes end))
                      /\ (forall template,
                            b = Str template -> template <> EmptyString ->
                            config = (replace template "{DESCRIPTION}" description,
                                      match a with
                                      | Arr items => items
                                      | _ => defaultAdTypes
                                      end)
                            /\ (dollar_free description = true ->
                                fst config = substitute_placeholder template description))
                      /\ (truthy b = true -> is_string b = false -> config = builtin)
                      /\ ((b = Undefined \/ exists template, b = Str template
                                                              /\ template <> EmptyString) ->
                          a <> Arr [] ->
                          dollar_free description = true ->
                          config = spec_resolve answer description)))).
Proof.
  cbv zeta. rewrite resolvePromptConfig_value.
  destruct (fetch_get env (tick s) gistUrl) as [response|e] eqn:Hanswer.
  2:{ eexists. split; [reflexivity|]. split; [reflexivity|]. intros r H. discriminate. }
  destruct (ok response) eqn:Hok.
  2:{ eexists. split; [reflexivity|]. split; [intros e H; discriminate|].
      intros r H. injection H as <-. rewrite Hok.
      split; [reflexivity|]. split; [discriminate|]. intros c H. discriminate. }
  destruct (json response) as [externalConfig|] eqn:Hjson.
  2:{ eexists. split; [reflexivity|]. split; [intros e H; discriminate|].
      intros r H. injection H as <-. rewrite Hok, Hjson.
      split; [discriminate|]. split; [reflexivity|]. intros c _ H. discriminate. }
  eexists. split; [reflexivity|]. split; [intros e H; discriminate|].
  intros r H. injection H as <-. rewrite Hok, Hjson.
  split; [discriminate|]. split; [discriminate|].
  intros c _ H. injection H as <-.
  pose proof (overlay_cases externalConfig description
                (defaultBasePrompt description, defaultAdTypes)) as [Hnull Hobj].
  cbv zeta in Hnull, Hobj. simpl fst in Hobj. simpl snd in Hobj.
  split; [exact Hnull|].
  intros Hn. destruct (Hobj Hn) as [Hfalsy [Hstr Hodd]].
  split; [exact Hfalsy|]. split; [|split; [exact Hodd|]].
  - intros template Hb Ht. split; [apply Hstr; assumption|].
    intros Hd. rewrite (Hstr template Hb Ht). simpl fst.
    apply replace_literal. exact Hd.
  - intros Hb Ha Hd. unfold spec_resolve. rewrite Hok, Hjson.
    destruct Hb as [Hb|[template [Hb Ht]]].
    + rewrite Hfalsy by (rewrite Hb; reflexivity). rewrite Hb. simpl fst.
      f_equal. destruct (own externalConfig "adTypes") as [| | | | |items|];
        try reflexivity.
      destruct items; [contradiction|reflexivity].
    + rewrite (Hstr template Hb Ht). rewrite Hb.
      rewrite replace_literal by exact Hd. f_equal.
      destruct (own externalConfig "adTypes") as [| | | | |items|];
        try reflexivity.
      destruct items; [contradiction|reflexivity].
Qed.

(** C5 as stated fails for a remote configuration whose [adTypes] is
    the empty list: it replaces the three built-in ad types, and the
    generation then produces an empty batch without any request. *)
Lemma empty_remote_list_overrides :
  result (resolvePromptConfig (world key config_empty_list image_b64 wall_clock)
            "A mug." initial)
  = Normal (defaultBasePrompt "A mug.", [])
  /\ spec_resolve config_empty_list "A mug." = (defaultBasePrompt "A mug.", defaultAdTypes)
  /\ generatedAds
       (ui (final (handleInputSubmit (world key config_empty_list image_b64 wall_clock)
                     mug photo initial))) = []
  /\ wire (log (handleInputSubmit (world key config_empty_list image_b64 wall_clock)
                  mug photo initial)) = [].
Proof. repeat split; vm_compute; reflexivity. Qed.

(** The examples of the specification: an unreachable or broken
    configuration gives the defaults; [adTypes] alone replaces the list
    and keeps the built-in base prompt. *)
Example config_defaults_when_unreachable :
  result (resolvePromptConfig (world key unreachable image_b64 wall_clock) "A mug." initial)
  = Normal (defaultBasePrompt "A mug.", defaultAdTypes)
  /\ result (resolvePromptConfig
               (world key (Normal {| status := 404; json := Some (Obj []) |})
                  image_b64 wall_clock) "A mug." initial)
     = Normal (defaultBasePrompt "A mug.", defaultAdTypes)
  /\ result (resolvePromptConfig
               (world key (Normal {| status := 200; json := None |})
                  image_b64 wall_clock) "A mug." initial)
     = Normal (defaultBasePrompt "A mug.", defaultAdTypes).
Proof. repeat split; vm_compute; reflexivity. Qed.

Example config_one_type_keeps_base_prompt :
  result (resolvePromptConfig (world key config_one_type image_b64 wall_clock) "A mug." initial)
  = Normal (defaultBasePrompt "A mug.", [adTypeSpec "X" "Y"]).
Proof. vm_compute. reflexivity. Qed.

Example config_full_overrides_both :
  result (resolvePromptConfig (world key config_full image_b64 wall_clock) "a mug" initial)
  = Normal ("Advertise a mug boldly.", [adTypeSpec "Poster" " As a poster."]).
Proof. vm_compute. reflexivity. Qed.

(** A dollar sign in the description is read as a pattern. *)
Example config_dollar_in_description :
  result (resolvePromptConfig (world key config_full image_b64 wall_clock)
            "a $$5 mug ($&)" initial)
  = Normal ("Advertise a $5 mug ({DESCRIPTION}) boldly.",
            [adTypeSpec "Poster" " As a poster."]).
Proof. vm_compute. reflexivity. Qed.
(** *** The delay between requests *)

Lemma wire_app l1 l2 : wire (l1 ++ l2) = (wire l1 ++ wire l2)%list.
Proof.
  induction l1 as [|e l1 IH]; [reflexivity|].
  destruct e; simpl; rewrite IH; reflexivity.
Qed.

Lemma alternate_next k : alternate (S (S k)) = Request :: Delay 1000 :: alternate (S k).
Proof. reflexivity. Qed.

Lemma delays_app l1 l2 : delays (l1 ++ l2) = (delays l1 + delays l2)%nat.
Proof. unfold delays. rewrite filter_app, length_app. reflexivity. Qed.

Lemma posts_alternate k : posts (alternate k) = k.
Proof.
  induction k as [|k IH]; [reflexivity|].
  destruct k as [|k]; [reflexivity|].
  rewrite alternate_next.
  change (posts (Request :: Delay 1000 :: alternate (S k)))
    with (S (posts (alternate (S k)))).
  rewrite IH. reflexivity.
Qed.

Lemma delays_alternate k : delays (alternate k) = (k - 1)%nat.
Proof.
  induction k as [|k IH]; [reflexivity|].
  destruct k as [|k]; [reflexivity|].
  rewrite alternate_next.
  change (delays (Request :: Delay 1000 :: alternate (S k)))
    with (S (delays (alternate (S k)))).
  rewrite IH. simpl. lia.
Qed.

(** A prefix of the alternation that holds all its requests is the
    whole of it: nothing follows the last request. *)
Lemma alternate_complete k : forall l rest,
  alternate k = (l ++ rest)%list -> posts l = k -> rest = [].
Proof.
  induction k as [|k IH]; intros l rest E H.
  - destruct l; [|discriminate]. destruct rest; [reflexivity|discriminate].
  - destruct k as [|k].
    + destruct l as [|w l]; [discriminate|].
      simpl in E. injection E as _ E. destruct l; [|discriminate].
      simpl in E. symmetry. exact E.
    + rewrite alternate_next in E.
      destruct l as [|w1 [|w2 l]].
      * discriminate.
      * simpl in E. injection E as E1 E. subst w1.
        unfold posts in H. simpl in H. discriminate.
      * simpl in E. injection E as E1 E2 E. subst w1 w2.
        apply (IH l rest E). unfold posts in *. simpl in H. lia.
Qed.

Lemma post_sleep ms s (Q : completion unit -> State -> list Event -> Prop) :
  Q (Normal tt) s [Slept ms] -> post (sleep ms) s Q.
Proof. exact (fun H => H). Qed.

Section Delays.
Variable env : Env.

(** One turn of the loop sends at most one request and never waits;
    a turn that returns an image has sent its request. *)
Lemma requestImage_wire prompt url size i n s :
  post (requestImage env prompt url size i n) s
    (fun r _ l => (wire l = [] \/ wire l = [Request])
                  /\ (forall image, r = Normal image -> wire l = [Request])).
Proof.
  assert (Hb : forall s0 (Q : completion (option Blob) -> State -> list Event -> Prop),
             (forall r u, Q r {| tick := S (tick s0); ui := ui s0 |} [BlobFetched u]) ->
             post (fetchImageBlob env url) s0 Q).
  { intros s0 Q HQ. unfold fetchImageBlob, fetch_as_blob.
    destruct (startsWith url "data:"); [|destruct (startsWith url "http")];
      apply post_ask; apply HQ. }
  unfold requestImage, now, fetch_edits. steps.
  apply Hb. intros r u.
  destruct r as [[blob|]|e]; steps; try (simpl; split; auto; discriminate).
  match goal with
  | |- context [fetch_post env ?t ?f] => destruct (fetch_post env t f) as [response|e]
  end; steps; try (simpl; split; auto; discriminate).
  destruct (negb (ok response)); steps.
  - destruct (error_envelope env response); steps; simpl; split; auto; discriminate.
  - destruct (json response) as [data|]; steps; try (simpl; split; auto; discriminate).
    destruct (extractImage data); steps; simpl; split; auto; discriminate.
Qed.

Lemma requests_wire k : forall prompt url size i n acc s,
  Z.of_nat k = (n - i)%Z ->
  post (requests env k prompt url size i n acc) s
    (fun r _ l => (exists rest, alternate k = (wire l ++ rest)%list)
                  /\ (forall urls, r = Normal urls ->
                        wire l = alternate k
                        /\ List.length urls = (List.length acc + k)%nat)).
Proof.
  induction k as [|k IH]; intros prompt url size i n acc s Hk.
  - apply post_ret. simpl. split; [exists []; reflexivity|].
    intros urls H. injection H as <-. split; [reflexivity|lia].
  - cbn [requests]. apply post_bind.
    eapply post_weaken; [apply requestImage_wire|].
    intros r s1 l1 [Hshape Hsent]. destruct r as [image|e].
    2:{ split; [|discriminate].
        destruct Hshape as [-> | ->]; [eexists; reflexivity|].
        exists (tl (alternate (S k))). destruct k; reflexivity. }
    pose proof (Hsent image eq_refl) as Hw1.
    apply post_bind.
    destruct k as [|k].
    + assert (Hlt : (i <? n - 1)%Z = false) by (apply Z.ltb_ge; lia).
      rewrite Hlt. cbn [requests]. steps. rewrite !wire_app, Hw1. simpl.
      split; [exists []; reflexivity|].
      intros urls H. injection H as <-. split; [reflexivity|].
      rewrite length_app. simpl. lia.
    + assert (Hlt : (i <? n - 1)%Z = true) by (apply Z.ltb_lt; lia).
      rewrite Hlt. apply post_sleep.
      eapply post_weaken; [apply (IH prompt url size (i + 1)%Z n); lia|].
      cbv beta. intros r s2 l2 [[rest Hrest] Hdone].
      rewrite !wire_app, Hw1, alternate_next.
      change (wire [Slept 1000]) with [Delay 1000]. cbn [app]. split.
      * exists rest. rewrite Hrest. reflexivity.
      * intros urls H. destruct (Hdone urls H) as [Hw Hl].
        rewrite Hw. split; [reflexivity|].
        rewrite Hl, length_app. simpl. lia.
Qed.


End Delays.


(** A batch of three whose second request is refused: one delay, after
    the first request only. *)
Example delays_of_a_failing_batch :
  wire (log (generateImages
               {| VITE_OPENAI_API_KEY := key;
                  chat_completions_create := fun _ _ => Throw NotAnError;
                  readAsDataURL := fun _ _ => Throw NotAnError;
                  fetch_blob := fun _ _ => Normal (Some {| blob_type := "image/png" |});
                  fetch_post := fun t _ => if (t <? 4)%nat then image_b64
                                           else Normal invalid_image_400;
                  fetch_get := fun _ _ => unreachable;
                  Date_now := wall_clock;
                  Math_random := fun _ => "0.1";
                  toLowerCase := lowercase;
                  body_used := chrome_body_used;
                  interval_calls := fun _ _ => O |}
               "An ad" "iVBORw0KGgo=" 3 "1024x1024" "hd" initial))
  = [Request; Delay 1000; Request].
Proof. vm_compute. reflexivity. Qed.
(** *** Regeneration *)

Import HomeFacts.

Lemma withGeneratedAds_restore ads before u :
  generatedAds u = before ->
  withGeneratedAds (fun _ => before) (withGeneratedAds (fun _ => ads) u) = u.
Proof. intros <-. destruct u. reflexivity. Qed.

(** C6.  A regeneration never throws.  Whatever the world answers, it
    leaves every ad at its place with its [id] and its [adType]; an ad
    with another identifier is unchanged altogether, and so is the rest
    of the React state.  When it is over, every ad with the given
    identifier has [isRegenerating] false - after a new image as after a
    placeholder.  For an identifier that is not in the batch nothing
    happens at all: the state is the same and nothing was asked of the
    world. *)
Theorem regeneration_keeps_identity (env : Env) (promptUrl : option string)
  (target : string) (s : State) :
  let o := handleRegenerateAd env promptUrl target s in
  let before := generatedAds (ui s) in
  let after := generatedAds (ui (final o)) in
  result o = Normal tt
  /\ map id after = map id before
  /\ map adType after = map adType before
  /\ (forall i ad, nth_error before i = Some ad -> id ad <> target ->
                   nth_error after i = Some ad)
  /\ (forall ad, In ad after -> id ad = target -> isRegenerating ad = Some false)
  /\ (~ In target (map id before) -> final o = s /\ log o = [])
  /\ withGeneratedAds (fun _ => before) (ui (final o)) = ui s.
Proof.
  cbv zeta.
  pose proof (handleRegenerateAd_post env promptUrl target s) as H.
  unfold post in H. destruct H as [Hr [[Habsent [Hs Hl]]|[Hin [ads [Hreg Hu]]]]].
  - rewrite Hs. split; [exact Hr|]. repeat split; auto.
    + intros ad Hi Hid. exfalso. apply Habsent. rewrite <- Hid. apply in_map. exact Hi.
    + destruct s as [t u]. destruct u. reflexivity.
  - rewrite Hu. simpl generatedAds.
    split; [exact Hr|].
    split; [eapply regenerated_ids; eassumption|].
    split; [eapply regenerated_types; eassumption|].
    split; [eapply regenerated_others; eassumption|].
    split; [intros ad Hi Hid; eapply regenerated_settled; eassumption|].
    split; [intros K; contradiction|].
    apply withGeneratedAds_restore. reflexivity.
Qed.

(** C7.  After a regeneration no ad with the given identifier has a
    rating, whether the API gave a new image or the placeholder took its
    place; and an ad that was in the batch is still there to show it. *)
Theorem regeneration_clears_rating (env : Env) (promptUrl : option string)
  (target : string) (s : State) :
  let o := handleRegenerateAd env promptUrl target s in
  let before := generatedAds (ui s) in
  let after := generatedAds (ui (final o)) in
  (forall ad, In ad after -> id ad = target -> rating ad = None)
  /\ (In target (map id before) ->
      exists ad, In ad after /\ id ad = target /\ rating ad = None
                 /\ exists old image, In old before /\ ad = renewed image old).
Proof.
  cbv zeta.
  pose proof (handleRegenerateAd_post env promptUrl target s) as H.
  unfold post in H. destruct H as [Hr [[Habsent [Hs Hl]]|[Hin [ads [Hreg Hu]]]]].
  - rewrite Hs. split; [|intros K; contradiction].
    intros ad Hi Hid. exfalso. apply Habsent. rewrite <- Hid. apply in_map. exact Hi.
  - rewrite Hu. simpl generatedAds. split.
    + intros ad Hi Hid. eapply regenerated_settled; eassumption.
    + intros _. destruct (regenerated_present _ _ _ Hreg Hin) as [ad [Hi Hid]].
      destruct (regenerated_settled _ _ _ Hreg ad Hi Hid) as [Hrat [_ Hold]].
      exists ad. auto.
Qed.

(** A rated ad regenerated through the API, and through the
    placeholder when the API refuses the image. *)
Example regeneration_with_new_image :
  generatedAds
    (ui (final (handleRegenerateAd (world key unreachable image_url wall_clock)
                  (Some gistUrl) "gen-1714000010500-creative-concept-ad"
                  (showing rated_batch))))
  = {| id := "gen-1714000010500-creative-concept-ad";
       imageUrl := Str "https://oaidalle.example/img-1.png";
       rating := None;
       adType := Some "Creative Concept Ad";
       isRegenerating := Some false |} :: tl rated_batch.
Proof. vm_compute. reflexivity. Qed.

Example regeneration_with_placeholder :
  generatedAds
    (ui (final (handleRegenerateAd
                  (world key unreachable (Normal invalid_image_400) wall_clock)
                  None "gen-1714000018000-benefit-highlight-ad"
                  (showing rated_batch))))
  = (firstn 1 rated_batch
     ++ [ {| id := "gen-1714000018000-benefit-highlight-ad";
             imageUrl := placeholderUrl "0.4217";
             rating := None;
             adType := Some "Benefit Highlight Ad";
             isRegenerating := Some false |} ]
     ++ skipn 2 rated_batch)%list.
Proof. vm_compute. reflexivity. Qed.
(** *** The end of a top-level generation *)

Lemma progressed_done k :
  Animation.progressed (64 + k) (Animation.integer 0) = Animation.maxProgress.
Proof.
  induction k as [|k IH]; [vm_compute; reflexivity|].
  replace (64 + S k)%nat with (S (64 + k)) by lia.
  rewrite progressed_next, IH. vm_compute. reflexivity.
Qed.

(** The animation never brings its variable above 95. *)
Lemma progressed_bound k :
  Animation.ge Animation.maxProgress (Animation.progressed k (Animation.integer 0)) = true.
Proof.
  destruct (Nat.le_gt_cases 64 k) as [H|H].
  - replace k with (64 + (k - 64))%nat by lia. rewrite progressed_done.
    vm_compute. reflexivity.
  - assert (Hall : forallb (fun j => Animation.ge Animation.maxProgress
                                       (Animation.progressed j (Animation.integer 0)))
                     (seq 0 64) = true) by (vm_compute; reflexivity).
    rewrite forallb_forall in Hall. apply Hall. apply in_seq. lia.
Qed.

Lemma fire_down j u : isGenerating u = false -> isGenerating (fire j u) = false.
Proof.
  intros H. unfold fire.
  destruct (nth_error (timers u) j) as [[c|ms|]|]; auto.
  destruct (Animation.callback c) as [next [|v [m|]]]; exact H.
Qed.

Lemma nth_error_replace_timer j t : forall l i,
  j <> i -> nth_error (replace_timer j t l) i = nth_error l i.
Proof.
  induction j as [|j IH]; intros [|x l] [|i] H; simpl; auto; try contradiction.
Qed.

Lemma fire_pending j i u ms :
  j <> i ->
  nth_error (timers u) i = Some (ClearLoading ms) ->
  nth_error (timers (fire j u)) i = Some (ClearLoading ms).
Proof.
  intros Hne H. unfold fire.
  destruct (nth_error (timers u) j) as [[c|ms'|]|]; auto.
  - destruct (Animation.callback c) as [next [|v [m|]]]; simpl;
      rewrite nth_error_replace_timer; auto.
  - simpl. rewrite nth_error_replace_timer; auto.
Qed.

Lemma fire_timeout i u ms :
  nth_error (timers u) i = Some (ClearLoading ms) -> isGenerating (fire i u) = false.
Proof. intros H. unfold fire. rewrite H. reflexivity. Qed.

(** Once the flag is down no timer raises it; a pending timeout brings
    it down when it fires. *)
Lemma elapse_clears i ms schedule : forall u,
  isGenerating u = false \/ nth_error (timers u) i = Some (ClearLoading ms) ->
  isGenerating u = false \/ In i schedule ->
  isGenerating (elapse schedule u) = false.
Proof.
  unfold elapse.
  induction schedule as [|j rest IH]; intros u Hinv Hin; cbn [fold_left].
  - destruct Hin as [H|[]]. exact H.
  - destruct Hinv as [Hdown|Hpending].
    + apply IH; left; apply fire_down; exact Hdown.
    + destruct (Nat.eq_dec j i) as [->|Hne].
      * apply IH; left; apply (fire_timeout i u ms Hpending).
      * apply IH; [right; apply fire_pending; assumption|].
        destruct Hin as [Hdown|[E|Hin]]; [left; apply fire_down; exact Hdown
                                         |contradiction|right; exact Hin].
Qed.

Lemma timeout_of_finished batch own u :
  nth_error (timers (finished batch own u)) (S (List.length (timers u)))
  = Some (ClearLoading 500).
Proof.
  assert (E : timers (finished batch own u)
              = ((timers u ++ [own]) ++ [ClearLoading 500])%list)
    by (destruct batch; reflexivity).
  rewrite E.
  replace (S (List.length (timers u))) with (List.length (timers u ++ [own]))
    by (rewrite length_app; simpl; lia).
  apply nth_error_last.
Qed.

(** A call of the interval that still runs takes the forced 100 away. *)
Lemma fire_overwrites i u c :
  nth_error (timers u) i = Some (ProgressAnimation c) ->
  Animation.ge c Animation.maxProgress = false ->
  progressValue (fire i u) <> Animation.integer 100.
Proof.
  intros Hi Hc. unfold fire. rewrite Hi.
  destruct (callback_cases c) as [[K _]|[_ [v [m E]]]]; [congruence|].
  rewrite E.
  assert (Hv : progressValue
                 (withTimers (replace_timer i (ProgressAnimation v))
                    (match m with
                     | Some message => withProgressMessage message
                     | None => fun u' => u'
                     end (withProgress v u))) = v) by (destruct m; reflexivity).
  rewrite Hv. apply below_100. apply (callback_painted c v m). rewrite E. reflexivity.
Qed.



Example loading_cleared_after_success :
  progressValue (ui (final (handleInputSubmit (world key unreachable image_b64 wall_clock)
                              mug photo initial))) = Animation.integer 100
  /\ isGenerating (ui (final (handleInputSubmit (world key unreachable image_b64 wall_clock)
                                mug photo initial))) = true
  /\ isGenerating
       (elapse [0; 0; 1; 0]
          (ui (final (handleInputSubmit (world key unreachable image_b64 wall_clock)
                        mug photo initial)))) = false
  /\ map adType
       (generatedAds
          (ui (final (handleInputSubmit (world key unreachable image_b64 wall_clock)
                        mug photo initial))))
     = [Some "Creative Concept Ad"; Some "Benefit Highlight Ad"; Some "Ecommerce-Style Ad"].
Proof. repeat split; vm_compute; reflexivity. Qed.
(** *** A refused image *)

Lemma refusal_app l1 l2 : refusal (l1 ++ l2) -> refusal l1 \/ refusal l2.
Proof.
  intros [form H]. apply in_app_or in H. destruct H; [left|right]; exists form; assumption.
Qed.

Lemma refusal_nil : ~ refusal [].
Proof. intros [form H]. inversion H. Qed.

Lemma no_posts_refusal l : no_posts l -> ~ refusal l.
Proof. intros H [form K]. exact (H _ _ K). Qed.

Section Refusal.
Variable env : Env.

Lemma requestImage_refused prompt url size i n s :
  post (requestImage env prompt url size i n) s
    (fun r _ l => refusal l -> r = Throw refused).
Proof.
  assert (Hb : forall s0 (Q : completion (option Blob) -> State -> list Event -> Prop),
             (forall r u, Q r {| tick := S (tick s0); ui := ui s0 |} [BlobFetched u]) ->
             post (fetchImageBlob env url) s0 Q).
  { intros s0 Q HQ. unfold fetchImageBlob, fetch_as_blob.
    destruct (startsWith url "data:"); [|destruct (startsWith url "http")];
      apply post_ask; apply HQ. }
  assert (Hin : forall u form answer tail,
             refusal ([] ++ [BlobFetched u] ++ [Posted form answer] ++ tail) ->
             no_posts tail -> answer = Normal invalid_image_400).
  { intros u form answer tail [f H] Ht. simpl in H.
    destruct H as [H|[H|H]]; [discriminate|congruence|]. destruct (Ht _ _ H). }
  unfold requestImage, now, fetch_edits. steps.
  apply Hb. intros r u.
  destruct r as [[blob|]|e]; steps;
    try (intros [f H]; simpl in H; destruct H as [H|H]; [discriminate|destruct H]).
  match goal with
  | |- context [fetch_post env ?t ?f] =>
      destruct (fetch_post env t f) as [response|e] eqn:Hanswer
  end; steps.
  2:{ intros H. apply Hin in H; [discriminate|apply no_posts_nil]. }
  destruct (negb (ok response)) eqn:Hok; steps.
  - destruct (error_envelope env response) as [envelope|e] eqn:Henv; steps;
      intros H;
      (rewrite !List.app_nil_r in H; apply (Hin u _ _ []) in H; [|apply no_posts_nil]);
      injection H as ->.
    + vm_compute in Henv. injection Henv as <-. reflexivity.
    + vm_compute in Henv. discriminate.
  - destruct (json response) as [data|]; steps.
    + destruct (extractImage data); steps; intros H;
        (rewrite ?List.app_nil_r in H; apply (Hin u _ _ []) in H; [|apply no_posts_nil]);
        injection H as ->; discriminate.
    + intros H. rewrite ?List.app_nil_r in H. apply (Hin u _ _ []) in H; [|apply no_posts_nil].
      injection H as ->. discriminate.
Qed.

Lemma requests_refused k : forall prompt url size i n acc s,
  post (requests env k prompt url size i n acc) s
    (fun r _ l => refusal l -> r = Throw refused).
Proof.
  induction k as [|k IH]; intros; cbn [requests].
  - steps. intros H. destruct (refusal_nil H).
  - apply post_bind.
    eapply post_weaken; [apply requestImage_refused|]. cbv beta.
    intros r s1 l1 H1. destruct r as [image|e];
      [|intros H; specialize (H1 H); injection H1 as ->; reflexivity].
    apply post_bind.
    assert (Hrest : forall s2 lw, ~ refusal lw ->
              post (requests env k prompt url size (i + 1)%Z n (acc ++ [image])) s2
                (fun r _ l => refusal (l1 ++ lw ++ l) -> r = Throw refused)).
    { intros s2 lw Hw. eapply post_weaken; [apply IH|]. cbv beta.
      intros r s3 l3 H3 H. apply refusal_app in H. destruct H as [H|H].
      - specialize (H1 H). discriminate.
      - apply refusal_app in H. destruct H as [H|H]; [contradiction|auto]. }
    destruct (i <? n - 1)%Z.
    + apply post_sleep. apply Hrest.
      intros [f H]. simpl in H. destruct H as [H|H]; [discriminate|destruct H].
    + steps. apply Hrest. apply refusal_nil.
Qed.

Lemma generateImages_refused prompt url n size quality s :
  post (generateImages env prompt url n size quality) s
    (fun r _ l => refusal l -> r = Throw (JsError "invalid image (Status: 400)")).
Proof.
  unfold generateImages.
  destruct (negb (configured (VITE_OPENAI_API_KEY env))).
  - steps. intros H. destruct (refusal_nil H).
  - apply post_try, post_bind.
    eapply post_weaken; [apply requests_refused|]. cbv beta.
    intros r s1 l1 H1. destruct r as [urls|e].
    + destruct (List.length urls =? 0)%nat; steps; rewrite ?List.app_nil_r;
        intros H; specialize (H1 H); discriminate.
    + steps. rewrite ?List.app_nil_r. intros H. specialize (H1 H).
      injection H1 as ->. reflexivity.
Qed.

Lemma generateAd_refused basePrompt imageDataUrl adType s :
  post (generateAd env basePrompt imageDataUrl adType) s
    (fun r _ l => refusal l -> r = Throw (JsError "invalid image (Status: 400)")).
Proof.
  unfold generateAd. steps.
  destruct (get adType "type") as [type|e]; steps;
    [|intros H; destruct (refusal_nil H)].
  destruct (toString type) as [text|e]; steps;
    [|intros H; destruct (refusal_nil H)].
  destruct (and_then (get adType "prompt") toString) as [prompt|e]; steps;
    [|intros H; destruct (refusal_nil H)].
  eapply post_weaken; [apply generateImages_refused|]. cbv beta.
  intros r s1 l1 H1. destruct r as [urls|e].
  - destruct (0 <? List.length urls)%nat; unfold now; steps.
    + destruct (lowered env type); steps; simpl; rewrite ?List.app_nil_r;
        intros H; specialize (H1 H); discriminate.
    + simpl. rewrite ?List.app_nil_r. intros H. specialize (H1 H). discriminate.
  - simpl. intros H. specialize (H1 H). injection H1 as ->. reflexivity.
Qed.

Lemma generateAds_refused basePrompt imageDataUrl adTypes : forall acc s,
  post (generateAds env basePrompt imageDataUrl adTypes acc) s
    (fun r _ l => refusal l -> r = Throw (JsError "invalid image (Status: 400)")).
Proof.
  induction adTypes as [|adType rest IH]; intros acc s; cbn [generateAds].
  - steps. intros H. destruct (refusal_nil H).
  - apply post_bind.
    eapply post_weaken; [apply generateAd_refused|]. cbv beta.
    intros r s1 l1 H1. destruct r as [ad|e];
      [|intros H; specialize (H1 H); injection H1 as ->; reflexivity].
    eapply post_weaken; [apply IH|]. cbv beta.
    intros r s2 l2 H2 H. apply refusal_app in H. destruct H as [H|H]; [|auto].
    specialize (H1 H). discriminate.
Qed.

(** C2, as amended.  When the image-edit endpoint answers a request
    of a top-level generation with HTTP 400 and the body
    [{"error":{"message":"invalid image"}}], the run ends normally with
    [generationError] equal to "invalid image (Status: 400)" - the
    message of the envelope followed by the status, as [generateImages]
    composes it - and with the batch replaced by the three fixed
    placeholder ads with their stock images. *)
Theorem refused_image_falls_back (description : string) (image : File) (s : State) :
  let o := generateAdVariations env description image s in
  refusal (log o) ->
  generationError (ui (final o)) = Some "invalid image (Status: 400)"
  /\ generatedAds (ui (final o)) = fallbackAds
  /\ map imageUrl (generatedAds (ui (final o)))
     = [Str "https://images.unsplash.com/photo-1542744173-8e7e53415bb0?w=800&q=80";
        Str "https://images.unsplash.com/photo-1557804506-669a67965ba0?w=800&q=80";
        Str "https://images.unsplash.com/photo-1661956602926-db6b25f75947?w=800&q=80"]
  /\ result o = Normal tt
  /\ progressValue (ui (final o)) = Animation.integer 100.
Proof.
  cbv zeta. intros Href.
  pose proof (generateAdVariations_post env description image s) as H.
  unfold post in H. destruct H as [Hr [Hearly|Hbatch]].
  - destruct Hearly as [e [value [m [own [k [Hu [Hq _]]]]]]].
    destruct (no_posts_refusal _ Hq Href).
  - destruct Hbatch as [s0 [l0 [basePrompt [imageDataUrl [adTypes [own Hb]]]]]].
    cbv zeta in Hb. destruct Hb as [Hq [Ht [Hkey [_ [Hl [Hu _]]]]]].
    rewrite Hl in Href. apply refusal_app in Href.
    destruct Href as [Href|Href]; [destruct (no_posts_refusal _ Hq Href)|].
    pose proof (generateAds_refused basePrompt imageDataUrl adTypes [] s0) as Hg.
    unfold post in Hg. specialize (Hg Href).
    rewrite Hu, Hg. repeat split. exact Hr.
Qed.
End Refusal.

Lemma refused_image_falls_back_witness :
  refusal (log (generateAdVariations (world key unreachable (Normal invalid_image_400) wall_clock)
                  mug photo initial))
  /\ generationError
       (ui (final (generateAdVariations
                     (world key unreachable (Normal invalid_image_400) wall_clock)
                     mug photo initial)))
     = Some "invalid image (Status: 400)"
  /\ generatedAds
       (ui (final (generateAdVariations
                     (world key unreachable (Normal invalid_image_400) wall_clock)
                     mug photo initial)))
     = fallbackAds.
Proof.
  assert (H : refusal (log (generateAdVariations
                              (world key unreachable (Normal invalid_image_400) wall_clock)
                              mug photo initial))).
  { eexists. vm_compute. do 4 right. left. reflexivity. }
  split; [exact H|].
  destruct (refused_image_falls_back
              (world key unreachable (Normal invalid_image_400) wall_clock)
              mug photo initial H) as [He [Ha _]].
  split; [exact He|exact Ha].
Defined.

(** C2 as stated fails: the error the orchestrator shows is not the
    bare message of the envelope. *)
Lemma refused_image_message_carries_status :
  generationError
    (ui (final (generateAdVariations
                  (world key unreachable (Normal invalid_image_400) wall_clock)
                  mug photo initial)))
  = Some "invalid image (Status: 400)"
  /\ generationError
       (ui (final (generateAdVariations
                     (world key unreachable (Normal invalid_image_400) wall_clock)
                     mug photo initial)))
     <> Some "invalid image".
Proof. split; [vm_compute; reflexivity|vm_compute; discriminate]. Qed.
(** *** Identifiers *)

Lemma all_digits_uint d : all_digits (NilEmpty.string_of_uint d) = true.
Proof. induction d; simpl; auto. Qed.

Lemma all_digits_uint0 d : all_digits (NilZero.string_of_uint d) = true.
Proof. destruct d; try reflexivity; apply (all_digits_uint (_ d)). Qed.

Lemma nonempty_uint0 d : NilZero.string_of_uint d <> EmptyString.
Proof. destruct d; discriminate. Qed.

(** Two runs of digits that end at a dash end at the same place. *)
Lemma digits_before_dash a : forall b x y,
  all_digits a = true -> all_digits b = true ->
  a ++ String "-" x = b ++ String "-" y -> a = b.
Proof.
  induction a as [|c a IH]; intros [|c' b] x y Ha Hb E; simpl in *.
  - reflexivity.
  - injection E as <- _. discriminate.
  - injection E as -> _. discriminate.
  - injection E as <- E. apply andb_prop in Ha, Hb.
    f_equal. eapply IH; [apply Ha|apply Hb|exact E].
Qed.

Lemma to_int_proper z : Z.to_int z <> Decimal.Pos Decimal.Nil /\ Z.to_int z <> Decimal.Neg Decimal.Nil.
Proof.
  destruct z; simpl; split; try discriminate;
    intros E; injection E as E; exact (Unsigned.to_uint_nonnil _ E).
Qed.

Lemma dec_injective z1 z2 : dec z1 = dec z2 -> z1 = z2.
Proof.
  unfold dec. intros E. apply to_int_inj.
  destruct (to_int_proper z1) as [H1 H1'], (to_int_proper z2) as [H2 H2'].
  pose proof (NilZero.isi _ H1 H1') as K1. pose proof (NilZero.isi _ H2 H2') as K2.
  rewrite E in K1. congruence.
Qed.

Lemma dec_before_dash z1 z2 x y :
  dec z1 ++ String "-" x = dec z2 ++ String "-" y -> z1 = z2.
Proof.
  intros E. apply dec_injective. revert E. unfold dec.
  destruct (Z.to_int z1) as [d1|d1], (Z.to_int z2) as [d2|d2]; simpl; intros E.
  - eapply digits_before_dash; eauto using all_digits_uint0.
  - exfalso. pose proof (all_digits_uint0 d1) as H. pose proof (nonempty_uint0 d1) as N.
    destruct (NilZero.string_of_uint d1); [contradiction|].
    simpl in E. injection E as -> _. discriminate.
  - exfalso. pose proof (all_digits_uint0 d2) as H. pose proof (nonempty_uint0 d2) as N.
    destruct (NilZero.string_of_uint d2); [contradiction|].
    simpl in E. injection E as <- _. discriminate.
  - injection E as E. f_equal.
    eapply digits_before_dash; eauto using all_digits_uint0.
Qed.

(** An identifier gives its timestamp away. *)
Lemma ad_id_timestamp t1 l1 t2 l2 : ad_id t1 l1 = ad_id t2 l2 -> t1 = t2.
Proof.
  unfold ad_id. intros E. simpl in E. injection E as E.
  exact (dec_before_dash _ _ _ _ E).
Qed.

Lemma mapAd_ids target f ads :
  (forall ad, id (f ad) = id ad) -> map id (mapAd target f ads) = map id ads.
Proof.
  intros H. unfold mapAd. rewrite map_map. apply map_ext.
  intros ad. destruct (String.eqb (id ad) target); [apply H|reflexivity].
Qed.

Lemma stamped_later env t t' ads :
  (t <= t')%nat -> stamped env t ads -> stamped env t' ads.
Proof.
  unfold stamped. intros Ht H. eapply Forall_impl; [|exact H].
  cbv beta. intros ad [k [l [Hk E]]]. exists k, l. split; [lia|exact E].
Qed.

Lemma append_cancel a : forall x y, (a ++ x = a ++ y)%string -> x = y.
Proof.
  induction a as [|c a IH]; simpl; intros x y E; [exact E|].
  injection E as E. auto.
Qed.

(** An identifier gives its label away as well. *)
Lemma ad_id_slug t1 l1 t2 l2 :
  ad_id t1 l1 = ad_id t2 l2 -> replace_spaces_by_dash l1 = replace_spaces_by_dash l2.
Proof.
  intros E. pose proof (ad_id_timestamp _ _ _ _ E) as ->.
  unfold ad_id in E. apply append_cancel in E. apply append_cancel in E.
  injection E as E. exact E.
Qed.

Lemma labelled_apart_tail slug pending ads :
  labelled_apart (slug :: pending) ads -> labelled_apart pending ads.
Proof.
  intros H. eapply Forall_impl; [|exact H]. cbv beta.
  intros a [t [l [Hid Hnot]]]. exists t, l. split; [exact Hid|].
  intros K. apply Hnot. right. exact K.
Qed.

Section Identifiers.
Variable env : Env.
Variable regenerationPromptUrl : option string.

(** An ad carries the reading of the clock at a tick of its own
    turn. *)
Lemma generateAd_stamp basePrompt imageDataUrl adType s :
  post (generateAd env basePrompt imageDataUrl adType) s
    (fun r s' _ =>
       (tick s <= tick s')%nat
       /\ forall ad, r = Normal (Some ad) ->
          exists k lowercase,
            (tick s <= k < tick s')%nat /\ id ad = ad_id (Date_now env k) lowercase).
Proof.
  unfold generateAd. steps.
  destruct (get adType "type") as [type|e]; steps; [|split; [lia|discriminate]].
  destruct (toString type) as [text|e]; steps; [|split; [lia|discriminate]].
  destruct (and_then (get adType "prompt") toString) as [prompt|e]; steps;
    [|split; [lia|discriminate]].
  apply post_frame; [apply frame_generateImages|].
  intros r s1 l1 Hu Ht. destruct r as [urls|e]; [|split; [exact Ht|discriminate]].
  destruct (0 <? List.length urls)%nat; unfold now; steps.
  - destruct (lowered env type) as [lowercase|e]; steps; simpl; (split; [lia|]);
      [|discriminate].
    intros ad E. injection E as <-. exists (tick s1), lowercase. simpl. split; [lia|reflexivity].
  - split; [exact Ht|discriminate].
Qed.

Lemma generateAds_unique basePrompt imageDataUrl adTypes :
  clock_advances env ->
  forall acc s,
    NoDup (map id acc) -> stamped env (tick s) acc ->
    post (generateAds env basePrompt imageDataUrl adTypes acc) s
      (fun r s' _ => forall ads, r = Normal ads ->
                       NoDup (map id ads) /\ stamped env (tick s') ads).
Proof.
  intros Hclock. induction adTypes as [|adType rest IH]; intros acc s Hnd Hst;
    cbn [generateAds].
  - steps. intros ads E. injection E as <-. auto.
  - apply post_bind.
    eapply post_weaken; [apply generateAd_stamp|]. cbv beta.
    intros r s1 l1 [Ht Hstamp]. destruct r as [[ad|]|e]; [| |discriminate].
    + destruct (Hstamp ad eq_refl) as [k [lowercase [Hk Hid]]].
      eapply post_weaken; [apply IH|]; cbv beta.
      * rewrite map_app. simpl. apply NoDup_app; [exact Hnd|repeat constructor; auto|].
        intros x Hx [Hx'|[]]. subst x.
        apply in_map_iff in Hx. destruct Hx as [old [Hold Hin]].
        unfold stamped in Hst. rewrite Forall_forall in Hst.
        destruct (Hst old Hin) as [k' [l' [Hk' Hid']]].
        rewrite Hid, Hid' in Hold. apply ad_id_timestamp in Hold.
        assert (Date_now env k' < Date_now env k)%Z by (apply Hclock; lia). lia.
      * apply Forall_app. split; [eapply stamped_later; [|exact Hst]; lia|].
        constructor; [|constructor]. exists k, lowercase. split; [lia|exact Hid].
      * intros r s2 l2 H. exact H.
    + rewrite List.app_nil_r.
      eapply post_weaken; [apply IH; [exact Hnd|eapply stamped_later; [|exact Hst]; lia]|].
      cbv beta. intros r s2 l2 H. exact H.
Qed.

(** An ad carries the label of its ad type. *)
Lemma generateAd_label basePrompt imageDataUrl adType s :
  post (generateAd env basePrompt imageDataUrl adType) s
    (fun r _ _ =>
       forall ad, r = Normal (Some ad) ->
       exists t lowercase,
         id ad = ad_id t lowercase
         /\ label_slug env adType = Some (replace_spaces_by_dash lowercase)).
Proof.
  unfold generateAd, label_slug. steps.
  destruct (get adType "type") as [type|e]; steps; [|discriminate].
  destruct (toString type) as [text|e]; steps; [|discriminate].
  destruct (and_then (get adType "prompt") toString) as [prompt|e]; steps; [|discriminate].
  apply post_frame; [apply frame_generateImages|].
  intros r s1 l1 Hu Ht. destruct r as [urls|e]; [|discriminate].
  destruct (0 <? List.length urls)%nat; unfold now; steps; [|discriminate].
  destruct type; simpl lowered; steps; try discriminate.
  intros ad E. injection E as <-. simpl. eauto.
Qed.

Lemma generateAds_apart basePrompt imageDataUrl adTypes : forall acc s,
  NoDup (slugs env adTypes) ->
  NoDup (map id acc) -> labelled_apart (slugs env adTypes) acc ->
  post (generateAds env basePrompt imageDataUrl adTypes acc) s
    (fun r _ _ => forall ads, r = Normal ads -> NoDup (map id ads)).
Proof.
  induction adTypes as [|adType rest IH]; intros acc s Hslugs Hnd Hlab; cbn [generateAds].
  - steps. intros ads E. injection E as <-. exact Hnd.
  - apply post_bind.
    eapply post_weaken; [apply generateAd_label|]. cbv beta.
    intros r s1 l1 Hmade. destruct r as [[ad|]|e]; [| |discriminate].
    + destruct (Hmade ad eq_refl) as [t [lowercase [Hid Hslug]]].
      cbn [slugs] in Hslugs, Hlab. rewrite Hslug in Hslugs, Hlab.
      inversion Hslugs as [|x l Hfresh Hrest]; subst.
      eapply post_weaken; [apply IH|]; cbv beta.
      * exact Hrest.
      * rewrite map_app. simpl. apply NoDup_app; [exact Hnd|repeat constructor; auto|].
        intros x Hx [Hx'|[]]. subst x.
        apply in_map_iff in Hx. destruct Hx as [old [Hold Hin]].
        unfold labelled_apart in Hlab. rewrite Forall_forall in Hlab.
        destruct (Hlab old Hin) as [t' [l' [Hid' Hnot]]].
        rewrite Hid, Hid' in Hold. apply ad_id_slug in Hold.
        apply Hnot. left. symmetry. exact Hold.
      * apply Forall_app. split; [eapply labelled_apart_tail; exact Hlab|].
        constructor; [|constructor]. exists t, lowercase. split; [exact Hid|exact Hfresh].
      * intros r s2 l2 H. exact H.
    + rewrite List.app_nil_r.
      assert (Hrest : NoDup (slugs env rest) /\ labelled_apart (slugs env rest) acc).
      { cbn [slugs] in Hslugs, Hlab. destruct (label_slug env adType).
        - inversion Hslugs; subst. split; [assumption|].
          eapply labelled_apart_tail; exact Hlab.
        - auto. }
      destruct Hrest as [Hr1 Hr2].
      eapply post_weaken; [apply IH; assumption|].
      cbv beta. intros r s2 l2 H. exact H.
Qed.

Lemma rating_keeps_ids target r s : ids (final (handleRateAd target r s)) = ids s.
Proof. unfold ids. simpl. apply mapAd_ids. reflexivity. Qed.

Lemma regeneration_keeps_ids target s :
  ids (final (handleRegenerateAd env regenerationPromptUrl target s)) = ids s.
Proof.
  pose proof (handleRegenerateAd_post env regenerationPromptUrl target s) as H.
  unfold post in H. destruct H as [_ [[_ [Hs _]]|[_ [ads [Hreg Hu]]]]].
  - rewrite Hs. reflexivity.
  - unfold ids. rewrite Hu. simpl. eapply regenerated_ids. exact Hreg.
Qed.

Lemma fallback_ids_unique : NoDup (map id fallbackAds).
Proof.
  simpl. repeat constructor; simpl; intuition discriminate.
Qed.

Lemma submission_keeps_ids_unique description image s :
  clock_advances env \/ labels_differ env -> NoDup (ids s) ->
  NoDup (ids (final (handleInputSubmit env description image s))).
Proof.
  intros Hapart Hnd. unfold handleInputSubmit.
  assert (H : post (bind (update (withInput description image))
                      (fun _ => generateAdVariations env description image)) s
                (fun _ s' _ => NoDup (ids s'))).
  { steps.
    eapply post_weaken; [apply generateAdVariations_post|]. cbv beta.
    intros r s' l [_ [Hearly|Hbatch]].
    - destruct Hearly as [e [value [m [own [k [Hu _]]]]]]. unfold ids. rewrite Hu. exact Hnd.
    - destruct Hbatch as [s0 [l0 [basePrompt [imageDataUrl [adTypes [own Hb]]]]]].
      cbv zeta in Hb.
      destruct Hb as [_ [_ [_ [[enhanced [_ [_ [Hconfig _]]]] [_ [Hu _]]]]]].
      unfold ids. rewrite Hu.
      assert (Hg : forall ads,
                 result (generateAds env basePrompt imageDataUrl adTypes [] s0) = Normal ads ->
                 NoDup (map id ads)).
      { destruct Hapart as [Hclock|Hlabels].
        - pose proof (generateAds_unique basePrompt imageDataUrl adTypes Hclock [] s0
                        (NoDup_nil _) (Forall_nil _)) as Hg.
          unfold post in Hg. intros ads E. apply (Hg ads E).
        - pose proof (generateAds_apart basePrompt imageDataUrl adTypes [] s0
                        (Hlabels _ _ _ Hconfig) (NoDup_nil _) (Forall_nil _)) as Hg.
          exact Hg. }
      destruct (result (generateAds env basePrompt imageDataUrl adTypes [] s0)) as [ads|e].
      + simpl. apply (Hg ads eq_refl).
      + apply fallback_ids_unique. }
  exact H.
Qed.


End Identifiers.

Lemma wall_clock_advances config edit : clock_advances (world key config edit wall_clock).
Proof. intros i j H. simpl. unfold wall_clock. lia. Qed.

(** The built-in ad types have three different labels. *)
Lemma builtin_labels_differ edit clock :
  labels_differ (world key unreachable edit clock).
Proof.
  intros description s config H. rewrite resolvePromptConfig_value in H.
  injection H as <-. simpl.
  repeat constructor; simpl; intuition discriminate.
Qed.


(** With the built-in ad types a clock that stands still does no
    harm. *)
Example builtin_batch_on_a_frozen_clock :
  ids (run (world key unreachable image_url frozen_clock) None [Submit mug photo] initial)
  = ["gen-1714000000000-creative-concept-ad";
     "gen-1714000000000-benefit-highlight-ad";
     "gen-1714000000000-ecommerce-style-ad"].
Proof. vm_compute. reflexivity. Qed.


(* ================================================================== *)
(** ** Further properties: the requests, one by one                   *)
(* ================================================================== *)

Module TraceFacts.
Import JS Eff OpenaiService Home Spec Logic LogicFacts ServiceFacts Traces.
Local Open Scope eff_scope.

Lemma forms_app l1 l2 : forms (l1 ++ l2) = (forms l1 ++ forms l2)%list.
Proof. induction l1 as [|e l1 IH]; [reflexivity|]. destruct e; simpl; rewrite IH; reflexivity. Qed.

Lemma answers_app l1 l2 : answers (l1 ++ l2) = (answers l1 ++ answers l2)%list.
Proof. induction l1 as [|e l1 IH]; [reflexivity|]. destruct e; simpl; rewrite IH; reflexivity. Qed.

Lemma blobs_app l1 l2 : blobs (l1 ++ l2) = (blobs l1 ++ blobs l2)%list.
Proof. induction l1 as [|e l1 IH]; [reflexivity|]. destruct e; simpl; rewrite IH; reflexivity. Qed.

(** One turn of the loop converts the image once, from a URL that
    starts with [data:] or [http]; it then fails, or posts one form and
    makes of the answer what [imageOf] says. *)
Lemma requestImage_trace env prompt url size i n s :
  post (requestImage env prompt url size i n) s
    (fun r _ l =>
       exists u,
         blob_url url u
         /\ ((l = [BlobFetched u] /\ exists e, r = Throw e)
             \/ (exists blob answer,
                   l = [BlobFetched u; Posted (form_of prompt size i n blob) answer]
                   /\ r = imageOf env answer))).
Proof.
  assert (Hb : forall s0 (Q : completion (option Blob) -> State -> list Event -> Prop),
             (forall r u, blob_url url u ->
                          Q r {| tick := S (tick s0); ui := ui s0 |} [BlobFetched u]) ->
             post (fetchImageBlob env url) s0 Q).
  { intros s0 Q HQ. unfold fetchImageBlob, fetch_as_blob.
    destruct (startsWith url "data:") eqn:E1; [|destruct (startsWith url "http") eqn:E2];
      apply post_ask; apply HQ; unfold blob_url; rewrite E1, ?E2; reflexivity. }
  unfold requestImage, now, fetch_edits. steps.
  apply Hb. intros r u Hu.
  destruct r as [[blob|]|e]; steps;
    try (exists u; split; [exact Hu|]; left; split; [reflexivity|eauto]).
  match goal with
  | |- context [fetch_post env ?t ?f] => destruct (fetch_post env t f) as [response|e] eqn:Ha
  end; steps.
  2:{ exists u. split; [exact Hu|]. right.
      exists blob, (Throw e). split; reflexivity. }
  assert (Hfin : forall r0 : completion value,
             r0 = imageOf env (Normal response) ->
             exists u0,
               blob_url url u0
               /\ (([BlobFetched u; Posted (form_of prompt size i n blob) (Normal response)]
                    = [BlobFetched u0] /\ exists e, r0 = Throw e)
                   \/ (exists blob0 answer,
                         [BlobFetched u; Posted (form_of prompt size i n blob) (Normal response)]
                         = [BlobFetched u0; Posted (form_of prompt size i n blob0) answer]
                         /\ r0 = imageOf env answer))).
  { intros r0 ->. exists u. split; [exact Hu|]. right.
    exists blob, (Normal response). split; reflexivity. }
  unfold imageOf, rejection in Hfin.
  destruct (negb (ok response)); steps.
  - destruct (error_envelope env response) as [envelope|e]; steps; simpl; apply Hfin; reflexivity.
  - destruct (json response) as [data|]; steps; simpl.
    + destruct (extractImage data); steps; simpl; apply Hfin; reflexivity.
    + apply Hfin; reflexivity.
Qed.

(** The delay between two turns shows nothing but itself. *)
Lemma pause_post (b : bool) s (Q : completion unit -> State -> list Event -> Prop) :
  (forall l, forms l = [] -> answers l = [] -> blobs l = [] -> Q (Normal tt) s l) ->
  post (if b then sleep 1000 else ret tt) s Q.
Proof.
  intros H. destruct b; [unfold post, sleep; simpl|apply post_ret]; apply H; reflexivity.
Qed.

(** The images returned are those read from the answers, in order; a
    failing answer ends the loop with its error. *)
Lemma requests_answers env k : forall prompt url size i n acc s,
  post (requests env k prompt url size i n acc) s
    (fun r _ l =>
       (forall urls, r = Normal urls ->
          exists new, urls = (acc ++ new)%list
                      /\ map (imageOf env) (answers l) = map Normal new)
       /\ (forall e, r = Throw e ->
             exists images,
               (map (imageOf env) (answers l) = map Normal images
                \/ map (imageOf env) (answers l) = (map Normal images ++ [Throw e])%list))).
Proof.
  induction k as [|k IH]; intros; cbn [requests].
  - steps. split.
    + intros urls H. injection H as <-. exists []. rewrite List.app_nil_r. auto.
    + discriminate.
  - apply post_bind.
    eapply post_weaken; [apply requestImage_trace|]. cbv beta.
    intros r s1 l1 [u [_ Hturn]].
    destruct Hturn as [[-> [e ->]]|[blob [answer [-> ->]]]].
    { split; [discriminate|]. intros e' H. exists []. left. reflexivity. }
    destruct (imageOf env answer) as [image|e] eqn:Himage.
    2:{ split; [discriminate|]. intros e' H. injection H as <-.
        exists []. right. simpl. rewrite Himage. reflexivity. }
    apply post_bind. apply pause_post. intros lw Hf Ha Hb.
    eapply post_weaken; [apply IH|]. cbv beta.
    intros r s2 l2 [Hok Hfail].
    rewrite !answers_app, Ha. simpl. rewrite Himage. split.
    + intros urls H. destruct (Hok urls H) as [new [-> Hnew]].
      exists (image :: new). rewrite <- List.app_assoc. simpl. rewrite Hnew. auto.
    + intros e H. destruct (Hfail e H) as [images [Hi|Hi]]; exists (image :: images);
        [left|right]; simpl; rewrite Hi; reflexivity.
Qed.

(** Turn [i + j] posts the prompt with the words [Variation i+j+1 of
    n]; every form has the same constants; every turn converts the image
    itself. *)
Lemma requests_forms env k : forall prompt url size i n acc s,
  post (requests env k prompt url size i n acc) s
    (fun r _ l =>
       exists m,
         (m <= k)%nat
         /\ map form_prompt (forms l)
            = map (fun j => variation prompt (i + Z.of_nat j) n) (seq 0 m)
         /\ Forall (standard size) (forms l)
         /\ Forall (blob_url url) (blobs l)
         /\ (List.length (blobs l) = m \/ List.length (blobs l) = S m)
         /\ (forall urls, r = Normal urls -> m = k /\ List.length (blobs l) = k)).
Proof.
  induction k as [|k IH]; intros; cbn [requests].
  - steps. exists 0%nat. simpl. repeat split; auto.
  - apply post_bind.
    eapply post_weaken; [apply requestImage_trace|]. cbv beta.
    intros r s1 l1 [u [Hu Hturn]].
    destruct Hturn as [[-> [e ->]]|[blob [answer [-> ->]]]].
    { exists 0%nat. simpl. repeat split; auto; try lia; discriminate. }
    assert (Hstd : standard size (form_of prompt size i n blob)) by (repeat split).
    destruct (imageOf env answer) as [image|e] eqn:Himage.
    2:{ exists 1%nat. simpl. rewrite Z.add_0_r.
        repeat split; auto; try lia; discriminate. }
    apply post_bind. apply pause_post. intros lw Hf Ha Hb.
    eapply post_weaken; [apply (IH prompt url size (i + 1)%Z n)|]. cbv beta.
    intros r s2 l2 [m [Hm [Hp [Hs [Hbl [Hlen Hall]]]]]].
    exists (S m).
    rewrite !forms_app, !blobs_app, Hf, Hb. cbn [forms blobs app map List.length seq].
    rewrite Hp, Z.add_0_r. split; [lia|]. split.
    { f_equal. rewrite <- seq_shift, map_map. apply map_ext.
      intros j. f_equal. lia. }
    split; [constructor; assumption|].
    split; [constructor; assumption|].
    split; [lia|].
    intros urls H. destruct (Hall urls H). lia.
Qed.

(** A single request, as [Home] asks for it: what the call of
    [generateImages] with [n = 1] writes and returns. *)
Lemma generateImages_once env prompt url size quality s :
  post (generateImages env prompt url 1 size quality) s
    (fun r _ l =>
       (configured (VITE_OPENAI_API_KEY env) = false
        /\ l = [] /\ r = Throw not_configured)
       \/ (configured (VITE_OPENAI_API_KEY env) = true
           /\ exists u,
                blob_url url u
                /\ ((l = [BlobFetched u] /\ exists e, r = Throw e)
                    \/ (exists blob answer,
                          l = [BlobFetched u; Posted (form_of prompt size 0 1 blob) answer]
                          /\ r = match imageOf env answer with
                                 | Normal image => Normal [image]
                                 | Throw e => Throw (JsError (final_message e))
                                 end)))).
Proof.
  unfold generateImages.
  destruct (configured (VITE_OPENAI_API_KEY env)) eqn:Hkey; simpl negb; cbv iota.
  2:{ steps. left. auto. }
  eapply post_weaken; [|intros r s' l H; right; split; [reflexivity|exact H]].
  change (Z.to_nat 1) with 1%nat. cbn [requests].
  apply post_try, post_bind, post_bind.
  eapply post_weaken; [apply requestImage_trace|]. cbv beta.
  intros r s1 l1 [u [Hu Hturn]].
  destruct Hturn as [[-> [e ->]]|[blob [answer [-> ->]]]].
  - steps. exists u. split; [exact Hu|]. left. rewrite List.app_nil_r.
    split; [reflexivity|eauto].
  - destruct (imageOf env answer) as [image|e] eqn:Himage; steps;
      exists u; (split; [exact Hu|]); right;
      exists blob, answer; rewrite ?List.app_nil_r, Himage; split; reflexivity.
Qed.

(** *** Logs whose events all satisfy a predicate *)

Section Within.
Variable P : Event -> Prop.

Lemma within_ret {A : Type} (a : A) : within P (ret a).
Proof. intros s. apply post_ret. constructor. Qed.

Lemma within_throw {A : Type} e : within P (@throw A e).
Proof. intros s. apply post_throw. constructor. Qed.

Lemma within_lift {A : Type} (c : completion A) : within P (lift c).
Proof. intros s. apply post_lift. constructor. Qed.

Lemma within_update f : within P (update f).
Proof. intros s. apply post_update. constructor. Qed.

Lemma within_session : within P session.
Proof. intros s. apply post_session. constructor. Qed.

Lemma within_ask {A : Type} (answer : nat -> completion A) ev :
  (forall a, Forall P (ev a)) -> within P (ask answer ev).
Proof. intros H s. apply post_ask. apply H. Qed.

Lemma within_bind {A B : Type} (m : M A) (k : A -> M B) :
  within P m -> (forall a, within P (k a)) -> within P (bind m k).
Proof.
  intros Hm Hk s. apply post_bind.
  eapply post_weaken; [apply Hm|].
  intros r s' l Hl. destruct r as [a|e]; [|exact Hl].
  eapply post_weaken; [apply Hk|].
  cbv beta. intros _ _ l' Hl'. apply Forall_app. auto.
Qed.

Lemma within_try {A : Type} (m : M A) (h : exn -> M A) :
  within P m -> (forall e, within P (h e)) -> within P (try_catch m h).
Proof.
  intros Hm Hh s. apply post_try.
  eapply post_weaken; [apply Hm|].
  intros r s' l Hl. destruct r as [a|e]; [exact Hl|].
  eapply post_weaken; [apply Hh|].
  cbv beta. intros _ _ l' Hl'. apply Forall_app. auto.
Qed.

End Within.

Lemma within_weaken {A : Type} (P Q : Event -> Prop) (m : M A) :
  (forall e, P e -> Q e) -> within P m -> within Q m.
Proof.
  intros H Hm s. eapply post_weaken; [apply Hm|].
  cbv beta. intros _ _ l Hl. eapply Forall_impl; [exact H|exact Hl].
Qed.

Ltac confined :=
  repeat first
    [ apply within_bind
    | apply within_try
    | apply within_ret
    | apply within_throw
    | apply within_lift
    | apply within_update
    | apply within_session
    | match goal with
      | |- forall _, _ => intro
      | |- within _ (if ?b then _ else _) => destruct b
      | |- within _ (match ?x with _ => _ end) => destruct x
      end ].

End TraceFacts.

(* ================================================================== *)
(** ** Further properties of [generateImages]                         *)
(* ================================================================== *)

Import Traces TraceFacts.

Lemma in_map_Normal {A : Type} (l : list A) e : ~ In (Throw e) (map (@Normal A) l).
Proof.
  induction l as [|a l IH]; simpl; [auto|]. intros [H|H]; [discriminate|auto].
Qed.

Lemma final_message_no_images :
  final_message (JsError "Failed to generate any images") = "Failed to generate any images".
Proof. vm_compute. reflexivity. Qed.

(** What [generateImages] returns, by what its loop returned. *)
Lemma generateImages_by_loop env prompt url n size quality s
  (Q : completion (list value) -> list Event -> Prop) :
  configured (VITE_OPENAI_API_KEY env) = true ->
  post (requests env (Z.to_nat n) prompt url size 0 n []) s
    (fun r _ l =>
       match r with
       | Normal [] => Q (Throw (JsError "Failed to generate any images")) l
       | Normal urls => Q (Normal urls) l
       | Throw e => Q (Throw (JsError (final_message e))) l
       end) ->
  post (generateImages env prompt url n size quality) s (fun r _ l => Q r l).
Proof.
  intros Hkey H. unfold generateImages. rewrite Hkey. simpl negb. cbv iota.
  apply post_try, post_bind.
  eapply post_weaken; [exact H|]. cbv beta.
  intros r s1 l1 HQ. destruct r as [[|url1 urls]|e]; cbn [List.length Nat.eqb]; steps;
    rewrite ?List.app_nil_r; rewrite ?final_message_no_images; exact HQ.
Qed.

Lemma generateImages_unconfigured env prompt url n size quality s :
  configured (VITE_OPENAI_API_KEY env) = false ->
  generateImages env prompt url n size quality s = Out (Throw not_configured) s [].
Proof. intros H. unfold generateImages. rewrite H. reflexivity. Qed.

(** X1.  A call of [generateImages] that returns gives the images read
    from the answers to its requests, one for each request and in the
    order of the requests: every answer was OK, parsed as JSON and held
    an image where the parser looks.  The list is never empty, and a
    credential was configured. *)
Theorem generateImages_returns_the_images_read
  (env : Env) (prompt url : string) (n : Z) (size quality : string) (s : State)
  (urls : list value) :
  let o := generateImages env prompt url n size quality s in
  result o = Normal urls ->
  map (imageOf env) (answers (log o)) = map Normal urls
  /\ List.length (answers (log o)) = List.length urls
  /\ urls <> []
  /\ configured (VITE_OPENAI_API_KEY env) = true.
Proof.
  cbv zeta. intros H.
  destruct (configured (VITE_OPENAI_API_KEY env)) eqn:Hkey.
  2:{ rewrite generateImages_unconfigured in H by exact Hkey. discriminate. }
  revert H.
  apply (generateImages_by_loop env prompt url n size quality s
           (fun r l => r = Normal urls ->
                       map (imageOf env) (answers l) = map Normal urls
                       /\ List.length (answers l) = List.length urls
                       /\ urls <> [] /\ true = true) Hkey).
  eapply post_weaken; [apply requests_answers|]. cbv beta.
  intros r s1 l1 [Hok _]. destruct r as [[|url1 rest]|e]; try discriminate.
  intros H. injection H as <-.
  destruct (Hok _ eq_refl) as [new [Hnew Hmap]]. simpl in Hnew. subst new.
  split; [exact Hmap|]. split; [|split; [discriminate|reflexivity]].
  rewrite <- (length_map (imageOf env)), Hmap, length_map. reflexivity.
Qed.

Lemma generateImages_returns_the_images_read_witness :
  result (generateImages (world key unreachable image_url wall_clock)
            "A mug" "iVBORw0KGgo=" 2 "1024x1024" "hd" initial)
  = Normal [Str "https://oaidalle.example/img-1.png"; Str "https://oaidalle.example/img-1.png"]
  /\ map (imageOf (world key unreachable image_url wall_clock)) (answers (log (generateImages (world key unreachable image_url wall_clock)
                                  "A mug" "iVBORw0KGgo=" 2 "1024x1024" "hd" initial)))
     = [Normal (Str "https://oaidalle.example/img-1.png");
        Normal (Str "https://oaidalle.example/img-1.png")].
Proof.
  assert (H : result (generateImages (world key unreachable image_url wall_clock)
                        "A mug" "iVBORw0KGgo=" 2 "1024x1024" "hd" initial)
              = Normal [Str "https://oaidalle.example/img-1.png";
                        Str "https://oaidalle.example/img-1.png"])
    by (vm_compute; reflexivity).
  split; [exact H|].
  exact (proj1 (generateImages_returns_the_images_read _ _ _ _ _ _ _ _ H)).
Defined.

(** The first answer that yields no image ends the call with its
    error. *)
Lemma generateImages_failure
  (env : Env) (prompt url : string) (n : Z) (size quality : string) (s : State)
  (answer : completion Response) (e : exn) :
  In answer (answers (log (generateImages env prompt url n size quality s))) ->
  imageOf env answer = Throw e ->
  result (generateImages env prompt url n size quality s) = Throw (JsError (final_message e))
  /\ exists images,
       map (imageOf env) (answers (log (generateImages env prompt url n size quality s)))
       = (map Normal images ++ [Throw e])%list.
Proof.
  intros Hin Himage.
  destruct (configured (VITE_OPENAI_API_KEY env)) eqn:Hkey.
  2:{ rewrite generateImages_unconfigured in Hin by exact Hkey. destruct Hin. }
  revert Hin.
  apply (generateImages_by_loop env prompt url n size quality s
           (fun r l => In answer (answers l) ->
                       r = Throw (JsError (final_message e))
                       /\ exists images,
                            map (imageOf env) (answers l) = (map Normal images ++ [Throw e])%list)
           Hkey).
  eapply post_weaken; [apply requests_answers|]. cbv beta.
  intros r s1 l1 [Hok Hfail].
  assert (Hthrown : In answer (answers l1) -> In (Throw e) (map (imageOf env) (answers l1))).
  { intros Hin. rewrite <- Himage. apply in_map. exact Hin. }
  destruct r as [urls|e'].
  - assert (Hnone : ~ In answer (answers l1)).
    { intros Hin. destruct (Hok urls eq_refl) as [new [_ Hmap]].
      apply Hthrown in Hin. rewrite Hmap in Hin. exact (in_map_Normal _ _ Hin). }
    destruct urls; intros Hin; destruct (Hnone Hin).
  - intros Hin. apply Hthrown in Hin.
    destruct (Hfail e' eq_refl) as [images [Hmap|Hmap]]; rewrite Hmap in Hin.
    + destruct (in_map_Normal _ _ Hin).
    + apply in_app_or in Hin. destruct Hin as [Hin|[Hin|[]]].
      * destruct (in_map_Normal _ _ Hin).
      * injection Hin as ->. split; [reflexivity|]. exists images. exact Hmap.
Qed.


(** X2.  When an answer to a request of [generateImages] yields no
    image - the request failed on the network, the response was not OK,
    its body was not JSON or held no image - the call throws the error of
    that answer, its message reworded by the outer [catch]; every answer
    before it yielded an image, and no request follows it. *)
Theorem generateImages_fails_with_the_first_failure
  (env : Env) (prompt url : string) (n : Z) (size quality : string) (s : State)
  (answer : completion Response) (e : exn) :
  let o := generateImages env prompt url n size quality s in
  In answer (answers (log o)) ->
  imageOf env answer = Throw e ->
  result o = Throw (JsError (final_message e))
  /\ exists images,
       map (imageOf env) (answers (log o)) = (map Normal images ++ [Throw e])%list.
Proof.
  cbv zeta. apply generateImages_failure.
Qed.

Lemma generateImages_fails_with_the_first_failure_witness :
  In (Normal {| status := 200; json := None |})
     (answers (log (generateImages
                      (world key unreachable (Normal {| status := 200; json := None |})
                         wall_clock)
                      "A mug" "iVBORw0KGgo=" 3 "1024x1024" "hd" initial)))
  /\ imageOf (world key unreachable (Normal {| status := 200; json := None |})
                         wall_clock) (Normal {| status := 200; json := None |})
     = Throw (JsError "Failed to parse API response")
  /\ result (generateImages
               (world key unreachable (Normal {| status := 200; json := None |}) wall_clock)
               "A mug" "iVBORw0KGgo=" 3 "1024x1024" "hd" initial)
     = Throw (JsError "Failed to parse API response").
Proof.
  assert (Hin : In (Normal {| status := 200; json := None |})
                  (answers (log (generateImages
                                   (world key unreachable
                                      (Normal {| status := 200; json := None |}) wall_clock)
                                   "A mug" "iVBORw0KGgo=" 3 "1024x1024" "hd" initial))))
    by (vm_compute; left; reflexivity).
  assert (Himage : imageOf (world key unreachable (Normal {| status := 200; json := None |})
                         wall_clock) (Normal {| status := 200; json := None |})
                   = Throw (JsError "Failed to parse API response")) by reflexivity.
  split; [exact Hin|]. split; [exact Himage|].
  exact (proj1 (generateImages_fails_with_the_first_failure _ _ _ _ _ _ _ _ _ Hin Himage)).
Defined.

(** X3.  The requests of one call of [generateImages] carry, in order,
    the prompt followed by [(Variation 1 of n)], [(Variation 2 of n)],
    ...; every form names the model [gpt-image-1], asks for one image
    ([n] = [1]) and for the size passed in.  Nothing else of the
    parameters reaches a form: [quality] is never sent.  At most [n]
    requests are made, and exactly [n] when the call returns. *)
Theorem generateImages_numbers_its_requests
  (env : Env) (prompt url : string) (n : Z) (size quality : string) (s : State) :
  let o := generateImages env prompt url n size quality s in
  exists m,
    (m <= Z.to_nat n)%nat
    /\ map form_prompt (forms (log o))
       = map (fun j => variation prompt (Z.of_nat j) n) (seq 0 m)
    /\ Forall (standard size) (forms (log o))
    /\ (forall urls, result o = Normal urls -> m = Z.to_nat n).
Proof.
  cbv zeta.
  destruct (configured (VITE_OPENAI_API_KEY env)) eqn:Hkey.
  2:{ rewrite generateImages_unconfigured by exact Hkey. exists 0%nat. simpl.
      repeat split; auto; try lia. discriminate. }
  apply (generateImages_by_loop env prompt url n size quality s
           (fun r l => exists m,
                (m <= Z.to_nat n)%nat
                /\ map form_prompt (forms l)
                   = map (fun j => variation prompt (Z.of_nat j) n) (seq 0 m)
                /\ Forall (standard size) (forms l)
                /\ (forall urls, r = Normal urls -> m = Z.to_nat n)) Hkey).
  eapply post_weaken; [apply requests_forms|]. cbv beta.
  intros r s1 l1 [m [Hm [Hp [Hs [_ [_ Hall]]]]]].
  assert (Hp' : map form_prompt (forms l1)
                = map (fun j => variation prompt (Z.of_nat j) n) (seq 0 m)).
  { rewrite Hp. apply map_ext. intros j. reflexivity. }
  destruct r as [[|url1 rest]|e]; exists m; repeat split; auto; try discriminate.
  intros urls _. apply (Hall _ eq_refl).
Qed.

(** X4.  Every turn of the loop converts the original image to a blob
    anew: a call that returns has made [n] conversions for its [n]
    requests, and a call that fails has made one for each request and at
    most one more.  The URL handed to [fetch] is the image reference
    itself when that starts with [data:] or [http], and the reference
    behind the prefix [data:image/png;base64,] otherwise; it always
    starts with [data:] or [http]. *)
Theorem generateImages_converts_the_image_each_turn
  (env : Env) (prompt url : string) (n : Z) (size quality : string) (s : State) :
  let o := generateImages env prompt url n size quality s in
  Forall (fun u => u = (if startsWith url "data:" || startsWith url "http"
                        then url else "data:image/png;base64," ++ url)
                   /\ (startsWith u "data:" || startsWith u "http") = true)
         (blobs (log o))
  /\ (List.length (blobs (log o)) = List.length (forms (log o))
      \/ List.length (blobs (log o)) = S (List.length (forms (log o))))
  /\ (forall urls, result o = Normal urls ->
        List.length (blobs (log o)) = Z.to_nat n
        /\ List.length (forms (log o)) = Z.to_nat n).
Proof.
  cbv zeta.
  destruct (configured (VITE_OPENAI_API_KEY env)) eqn:Hkey.
  2:{ rewrite generateImages_unconfigured by exact Hkey. simpl.
      repeat split; auto; discriminate. }
  assert (Hurl : forall u, blob_url url u ->
             u = (if startsWith url "data:" || startsWith url "http"
                  then url else "data:image/png;base64," ++ url)
             /\ (startsWith u "data:" || startsWith u "http") = true).
  { intros u Hu. split; [exact Hu|]. unfold blob_url in Hu. subst u.
    destruct (startsWith url "data:" || startsWith url "http") eqn:E; [exact E|reflexivity]. }
  apply (generateImages_by_loop env prompt url n size quality s
           (fun r l =>
              Forall (fun u => u = (if startsWith url "data:" || startsWith url "http"
                                    then url else "data:image/png;base64," ++ url)
                               /\ (startsWith u "data:" || startsWith u "http") = true)
                     (blobs l)
              /\ (List.length (blobs l) = List.length (forms l)
                  \/ List.length (blobs l) = S (List.length (forms l)))
              /\ (forall urls, r = Normal urls ->
                    List.length (blobs l) = Z.to_nat n
                    /\ List.length (forms l) = Z.to_nat n)) Hkey).
  eapply post_weaken; [apply requests_forms|]. cbv beta.
  intros r s1 l1 [m [Hm [Hp [Hs [Hb [Hlen Hall]]]]]].
  assert (Hforms : List.length (forms l1) = m).
  { rewrite <- (length_map form_prompt), Hp, length_map, length_seq. reflexivity. }
  assert (G1 : Forall (fun u => u = (if startsWith url "data:" || startsWith url "http"
                                     then url else "data:image/png;base64," ++ url)
                               /\ (startsWith u "data:" || startsWith u "http") = true)
                 (blobs l1))
    by (eapply Forall_impl; [|exact Hb]; exact Hurl).
  assert (G2 : List.length (blobs l1) = List.length (forms l1)
               \/ List.length (blobs l1) = S (List.length (forms l1)))
    by (rewrite Hforms; exact Hlen).
  destruct r as [[|url1 rest]|e]; (split; [exact G1|]); (split; [exact G2|]);
    try discriminate.
  intros urls _. destruct (Hall _ eq_refl) as [-> Hbl]. rewrite Hforms. auto.
Qed.

(** *** The edges of [generateImages] *)

(** X5.  Asked for no image ([n] at most 0) with a credential
    configured, [generateImages] sends nothing, converts nothing and
    throws [Failed to generate any images]. *)
Theorem generateImages_of_no_image
  (env : Env) (prompt url : string) (n : Z) (size quality : string) (s : State) :
  configured (VITE_OPENAI_API_KEY env) = true ->
  (n <= 0)%Z ->
  generateImages env prompt url n size quality s
  = Out (Throw (JsError "Failed to generate any images")) s [].
Proof.
  intros Hkey Hn. unfold generateImages. rewrite Hkey. simpl negb. cbv iota.
  assert (Hk : Z.to_nat n = 0%nat) by lia. rewrite Hk. cbn [requests].
  unfold try_catch, bind, ret, throw. cbn [result final log List.length Nat.eqb app].
  rewrite final_message_no_images. reflexivity.
Qed.

Lemma generateImages_of_no_image_witness :
  configured (VITE_OPENAI_API_KEY (world key unreachable image_url wall_clock)) = true
  /\ (0 <= 0)%Z
  /\ generateImages (world key unreachable image_url wall_clock)
       "A mug" "iVBORw0KGgo=" 0 "1024x1024" "hd" initial
     = Out (Throw (JsError "Failed to generate any images")) initial [].
Proof.
  assert (Hkey : configured (VITE_OPENAI_API_KEY (world key unreachable image_url wall_clock))
                 = true) by reflexivity.
  assert (Hn : (0 <= 0)%Z) by lia.
  split; [exact Hkey|]. split; [exact Hn|].
  exact (generateImages_of_no_image (world key unreachable image_url wall_clock)
           "A mug" "iVBORw0KGgo=" 0 "1024x1024" "hd" initial Hkey Hn).
Defined.

(** *** Errors, by their cause *)

Lemma answers_in form answer l : In (Posted form answer) l -> In answer (answers l).
Proof.
  induction l as [|e l IH]; intros H; [destruct H|].
  destruct H as [->|H]; [left; reflexivity|].
  destruct e; simpl; auto.
Qed.

(** The errors of the response parser. *)
Lemma extractImage_errors data e :
  extractImage data = Throw e ->
  e = empty_data_array \/ e = no_url_or_base64 \/ e = no_urls_in_response
  \/ e = cannot_read Null "data" \/ e = cannot_read Undefined "data"
  \/ e = cannot_convert.
Proof.
  unfold extractImage.
  destruct (get data "data") as [d|e0] eqn:Hd.
  - simpl and_then.
    destruct (truthy d && isArray d).
    + destruct (truthy (own d "0")); [|intros H; injection H as <-; auto].
      destruct (truthy (own (own d "0") "url")); [discriminate|].
      destruct (truthy (own (own d "0") "b64_json")).
      * unfold toString. destruct (to_string (own (own d "0") "b64_json")); simpl;
          [discriminate|]. intros H. injection H as <-. auto 10.
      * destruct (filter _ _); [|discriminate]. intros H. injection H as <-. auto.
    + destruct (findUrls data); [|discriminate]. intros H. injection H as <-. auto.
  - simpl. intros H. injection H as <-.
    destruct data; simpl in Hd; try discriminate; injection Hd as <-; auto 10.
Qed.

Lemma final_message_of_parser e :
  e = empty_data_array \/ e = no_url_or_base64 \/ e = no_urls_in_response
  \/ e = cannot_read Null "data" \/ e = cannot_read Undefined "data"
  \/ e = cannot_convert ->
  JsError (final_message e) = e.
Proof.
  intros [->|[->|[->|[->|[->| ->]]]]]; vm_compute; reflexivity.
Qed.

Lemma parse_unlike_json text : unlike_json text = true -> JSON.parse text = None.
Proof.
  unfold unlike_json, JSON.parse. intros H.
  replace (2 * String.length text + 2)%nat with (S (2 * String.length text + 1)) by lia.
  generalize (2 * String.length text + 1)%nat. intros fuel.
  cbn [JSON.parse_value].
  destruct (JSON.skip_ws text) as [|c r]; [reflexivity|].
  destruct c as [[|] [|] [|] [|] [|] [|] [|] [|]];
    try discriminate H; reflexivity.
Qed.

Lemma final_message_unlike_json message :
  unlike_json message = true -> final_message (JsError message) = message.
Proof.
  intros H. unfold final_message. rewrite (parse_unlike_json message H). reflexivity.
Qed.


Example generateImages_loses_the_status_code :
  result (generateImages (world key unreachable gateway_error wall_clock)
            "A mug" "iVBORw0KGgo=" 1 "1024x1024" "hd" initial)
  = Throw (JsError "Failed to execute 'text' on 'Response': body stream already read").
Proof. vm_compute. reflexivity. Qed.

(* ================================================================== *)
(** ** Further properties: what the handlers of [Home] write          *)
(* ================================================================== *)

Module HomeTraceFacts.
Import JS Eff OpenaiService Home Spec Logic LogicFacts ServiceFacts HomeFacts Traces TraceFacts.
Local Open Scope string_scope.

Lemma blob_url_scheme url u :
  blob_url url u -> (startsWith u "data:" || startsWith u "http") = true.
Proof.
  unfold blob_url. intros ->.
  destruct (startsWith url "data:" || startsWith url "http") eqn:E; [exact E|reflexivity].
Qed.

Lemma append_assoc (a b c : string) : ((a ++ b) ++ c = a ++ b ++ c)%string.
Proof. induction a as [|x a IH]; simpl; [reflexivity|]. rewrite IH. reflexivity. Qed.

Lemma variation_single prompt : variation prompt 0 1 = prompt ++ " (Variation 1 of 1)".
Proof. reflexivity. Qed.

Lemma single_form prompt blob answer :
  single (Posted (form_of prompt "1024x1024" 0 1 blob) answer).
Proof. simpl. split; [repeat split|]. exists prompt. reflexivity. Qed.

(** One ad of the batch: its request, its image, its fields. *)
Lemma generateAd_trace env basePrompt imageDataUrl adType_ s :
  post (generateAd env basePrompt imageDataUrl adType_) s
    (fun r _ l =>
       Forall single l
       /\ (List.length (forms l) <= 1)%nat
       /\ (configured (VITE_OPENAI_API_KEY env) = false -> l = [] /\ exists e, r = Throw e)
       /\ match r with
          | Normal (Some ad) =>
              exists form answer image,
                forms l = [form] /\ answers l = [answer]
                /\ imageOf env answer = Normal image
                /\ made_of env adType_ image ad
                /\ prompted basePrompt adType_ form
          | Normal None => False
          | Throw e =>
              forall answer e0, In answer (answers l) -> imageOf env answer = Throw e0 ->
                                e = JsError (final_message e0)
          end).
Proof.
  unfold generateAd. steps.
  destruct (get adType_ "type") as [type|e] eqn:Htype; steps;
    [|split; [constructor|split; [simpl; lia|split; [eauto|intros ? ? []]]]].
  destruct (toString type) as [text|e]; steps;
    [|split; [constructor|split; [simpl; lia|split; [eauto|intros ? ? []]]]].
  destruct (and_then (get adType_ "prompt") toString) as [prompt|e] eqn:Hprompt; steps;
    [|split; [constructor|split; [simpl; lia|split; [eauto|intros ? ? []]]]].
  eapply post_weaken; [apply generateImages_once|]. cbv beta.
  intros r s1 l1 [[Hkey [-> ->]]|[Hkey [u [Hu Hturn]]]].
  { split; [constructor|]. split; [simpl; lia|]. split; [eauto|]. intros ? ? []. }
  destruct Hturn as [[-> [e ->]]|[blob [answer [-> ->]]]].
  { split; [repeat constructor; simpl; eapply blob_url_scheme; eassumption|].
    split; [simpl; lia|]. split; [congruence|]. intros ? ? []. }
  assert (Hsingle : Forall single
                      [BlobFetched u;
                       Posted (form_of (basePrompt ++ prompt) "1024x1024" 0 1 blob) answer]).
  { constructor; [simpl; eapply blob_url_scheme; eassumption|].
    constructor; [apply single_form|constructor]. }
  destruct (imageOf env answer) as [image|e] eqn:Himage.
  2:{ split; [exact Hsingle|]. split; [simpl; lia|]. split; [congruence|].
      intros a e0 [<-|[]] Ha. congruence. }
  cbn [List.length Nat.ltb Nat.leb]. unfold now. steps.
  destruct type; simpl lowered; steps; rewrite ?List.app_nil_r;
    (split; [exact Hsingle|]); (split; [simpl; lia|]); (split; [congruence|]);
    try (intros a e0 [<-|[]] Ha; congruence).
  eexists _, answer, image. split; [reflexivity|]. split; [reflexivity|].
  split; [exact Himage|]. split.
  - split; [reflexivity|]. split; [|split; reflexivity].
    exists s0. apply get_normal in Htype. split; [symmetry; exact Htype|].
    split; [reflexivity|]. eexists. reflexivity.
  - exists prompt. split; [exact Hprompt|reflexivity].
Qed.

(** The batch, ad by ad. *)
Lemma generateAds_trace env basePrompt imageDataUrl adTypes : forall acc s,
  post (generateAds env basePrompt imageDataUrl adTypes acc) s
    (fun r _ l =>
       Forall single l
       /\ (List.length (forms l) <= List.length adTypes)%nat
       /\ (configured (VITE_OPENAI_API_KEY env) = false -> l = [])
       /\ match r with
          | Normal ads =>
              exists new images,
                ads = (acc ++ new)%list
                /\ map (imageOf env) (answers l) = map Normal images
                /\ Forall2 (fun ad at_image => made_of env (fst at_image) (snd at_image) ad)
                     new (combine adTypes images)
                /\ List.length images = List.length adTypes
                /\ Forall2 (fun form adType_ => prompted basePrompt adType_ form)
                     (forms l) adTypes
          | Throw e =>
              forall answer e0, In answer (answers l) -> imageOf env answer = Throw e0 ->
                                e = JsError (final_message e0)
          end).
Proof.
  induction adTypes as [|adType_ rest IH]; intros acc s; cbn [generateAds].
  - steps. split; [constructor|]. split; [simpl; lia|]. split; [reflexivity|].
    exists [], []. rewrite List.app_nil_r. repeat split; constructor.
  - apply post_bind.
    eapply post_weaken; [apply generateAd_trace|]. cbv beta.
    intros r s1 l1 [Hs1 [Hlen1 [Hno1 Hr]]]. destruct r as [[ad|]|e]; [|destruct Hr|].
    2:{ split; [exact Hs1|]. split; [simpl; lia|].
        split; [intros H; apply Hno1 in H; tauto|exact Hr]. }
    destruct Hr as [form [answer [image [Hf [Ha [Hi [Hmade Hp]]]]]]].
    eapply post_weaken; [apply IH|]. cbv beta.
    intros r s2 l2 [Hs2 [Hlen [Hno2 Hr2]]].
    split; [apply Forall_app; auto|].
    rewrite forms_app, answers_app, Hf, Ha, length_app. cbn [List.length app].
    split; [lia|].
    split. { intros H. destruct (Hno1 H) as [_ [e He]]. discriminate. }
    destruct r as [ads|e].
    + destruct Hr2 as [new [images [-> [Hmap [Hall [Hl Hforms]]]]]].
      exists (ad :: new), (image :: images). rewrite <- List.app_assoc. simpl.
      rewrite Hi, Hmap. repeat split; auto.
    + intros a e0 [<-|Hin] Ha0; [congruence|]. eapply Hr2; eassumption.
Qed.

Lemma prelude_single l : Forall prelude l -> Forall single l.
Proof. apply Forall_impl. intros [] H; simpl in *; auto; destruct H. Qed.

Lemma prelude_forms l : Forall prelude l -> forms l = [] /\ answers l = [] /\ blobs l = [].
Proof.
  induction 1 as [|e l He _ IH]; [auto|].
  destruct e; simpl in *; try destruct He; exact IH.
Qed.

Section Preludes.
Variable env : Env.
Variable regenerationPromptUrl : option string.

Lemma prelude_enhancePrompt userPrompt :
  within prelude (enhancePrompt env userPrompt).
Proof.
  unfold enhancePrompt, create_completion. confined.
  apply within_ask. intros. repeat constructor.
Qed.

Lemma free_enhancePrompt userPrompt :
  configured (VITE_OPENAI_API_KEY env) = false ->
  within free (enhancePrompt env userPrompt).
Proof. intros H. unfold enhancePrompt. rewrite H. simpl. apply within_throw. Qed.

Lemma free_fileToDataUrl file : within free (fileToDataUrl env file).
Proof. unfold fileToDataUrl. apply within_ask. intros. repeat constructor. Qed.

Lemma free_fetch u : within free (fetch env u).
Proof. unfold fetch. apply within_ask. intros. repeat constructor. Qed.

Lemma free_response_json r : within free (response_json r).
Proof. unfold response_json. confined. Qed.

Lemma free_refetch {A : Type} (current : A) k :
  within free (refetch env regenerationPromptUrl current k).
Proof.
  unfold refetch. destruct regenerationPromptUrl as [promptUrl|]; [|confined].
  destruct (String.eqb promptUrl EmptyString); [confined|].
  apply within_try; [|confined].
  apply within_bind; [apply free_fetch|intro].
  destruct (ok a); [|confined].
  apply within_bind; [apply free_response_json|confined].
Qed.

Lemma free_resolvePromptConfig description :
  within free (resolvePromptConfig env description).
Proof.
  unfold resolvePromptConfig.
  apply within_try; [|confined].
  apply within_bind; [apply free_fetch|intro].
  destruct (ok a); [|confined].
  apply within_bind; [apply free_response_json|confined].
Qed.

End Preludes.

Section RegenerationTrace.
Variable env : Env.
Variable regenerationPromptUrl : option string.

Lemma post_prelude {A : Type} (m : M A) s
  (Q : completion A -> State -> list Event -> Prop) :
  frame m -> within prelude m ->
  (forall r s' l, ui s' = ui s -> Forall prelude l -> Q r s' l) ->
  post m s Q.
Proof.
  intros Hf Hw H. specialize (Hf s). specialize (Hw s). unfold post in *.
  destruct Hf as [Hu _]. apply H; assumption.
Qed.

Lemma prelude_refetch {A : Type} (current : A) k :
  within prelude (refetch env regenerationPromptUrl current k).
Proof.
  eapply within_weaken; [|apply free_refetch]. intros [] H; simpl in *; auto.
Qed.

Lemma prelude_fileToDataUrl file : within prelude (fileToDataUrl env file).
Proof.
  eapply within_weaken; [|apply free_fileToDataUrl]. intros [] H; simpl in *; auto.
Qed.

(** What the attempt through the API writes and does. *)
Lemma regenerateWithApi_trace target adToRegenerate image description s :
  post (regenerateWithApi env regenerationPromptUrl target adToRegenerate image description) s
    (fun r s' l =>
       exists l0 l1,
         l = (l0 ++ l1)%list /\ Forall prelude l0 /\ Forall single l1
         /\ (List.length (forms l1) <= 1)%nat
         /\ (forall form, In form (forms l1) ->
               exists base, form_prompt form
                            = base ++ creativity ++ " (Variation 1 of 1)")
         /\ ((r = Normal true
              /\ exists answer img,
                   answers l1 = [answer] /\ imageOf env answer = Normal img
                   /\ ui s' = withGeneratedAds (mapAd target (renewed img)) (ui s))
             \/ (r <> Normal true /\ ui s' = ui s
                 /\ forall answer, In answer (answers l1) ->
                                   exists e, imageOf env answer = Throw e))).
Proof.
  assert (Hstop : forall (r : completion bool) s' l,
             r <> Normal true -> ui s' = ui s -> Forall prelude l ->
             exists l0 l1,
               l = (l0 ++ l1)%list /\ Forall prelude l0 /\ Forall single l1
               /\ (List.length (forms l1) <= 1)%nat
               /\ (forall form, In form (forms l1) ->
                     exists base, form_prompt form
                                  = base ++ creativity ++ " (Variation 1 of 1)")
               /\ ((r = Normal true
                    /\ exists answer img,
                         answers l1 = [answer] /\ imageOf env answer = Normal img
                         /\ ui s' = withGeneratedAds (mapAd target (renewed img)) (ui s))
                   \/ (r <> Normal true /\ ui s' = ui s
                       /\ forall answer, In answer (answers l1) ->
                                         exists e, imageOf env answer = Throw e))).
  { intros r s' l Hr Hu Hl. exists l, []. rewrite List.app_nil_r.
    split; [reflexivity|]. split; [exact Hl|]. split; [constructor|].
    split; [simpl; lia|]. split; [intros ? []|].
    right. split; [exact Hr|]. split; [exact Hu|]. intros ? []. }
  unfold regenerateWithApi.
  apply post_bind, post_prelude;
    [apply frame_fileToDataUrl|apply prelude_fileToDataUrl|].
  intros r s1 l1 Hu1 Hl1. destruct r as [imageDataUrl|e];
    [|apply Hstop; [discriminate|exact Hu1|exact Hl1]].
  apply post_bind, post_prelude; [apply frame_refetch|apply prelude_refetch|].
  intros r s2 l2 Hu2 Hl2. destruct r as [currentAdTypes|e];
    [|apply Hstop; [discriminate|congruence|apply Forall_app; auto]].
  apply post_bind, post_lift.
  match goal with
  | |- match ?c with _ => _ end => destruct c as [found|e]
  end; [|apply Hstop; [discriminate|congruence|rewrite List.app_nil_r; apply Forall_app; auto]].
  apply post_bind, post_lift.
  match goal with
  | |- match ?c with _ => _ end => destruct c as [configured_prompt|e]
  end; [|apply Hstop; [discriminate|congruence
                      |rewrite !List.app_nil_r; apply Forall_app; auto]].
  apply post_bind, post_prelude; [apply frame_enhancePrompt|apply prelude_enhancePrompt|].
  intros r s3 l3 Hu3 Hl3. destruct r as [enhanced|e];
    [|apply Hstop; [discriminate|congruence
                   |repeat (apply Forall_app; split; auto); constructor]].
  apply post_bind, post_prelude; [apply frame_refetch|apply prelude_refetch|].
  intros r s4 l4 Hu4 Hl4. destruct r as [currentBasePrompt|e];
    [|apply Hstop; [discriminate|congruence
                   |repeat (apply Forall_app; split; auto); constructor]].
  apply post_bind.
  pose proof (frame_generateImages env
                (currentBasePrompt ++ configured_prompt ++ creativity)
                imageDataUrl 1 "1024x1024" "hd" s4) as Hframe.
  eapply post_weaken;
    [apply post_and; [exact Hframe|apply generateImages_once]|].
  cbv beta. intros r s5 l5 [[Hu5 _] Hcall].
  assert (Hpre : Forall prelude (l1 ++ l2 ++ [] ++ [] ++ l3 ++ l4)%list)
    by (repeat (apply Forall_app; split; auto); constructor).
  assert (Hlog : forall l', (l1 ++ l2 ++ [] ++ [] ++ l3 ++ l4 ++ l')%list
                            = ((l1 ++ l2 ++ [] ++ [] ++ l3 ++ l4) ++ l')%list)
    by (intros l'; rewrite <- !List.app_assoc; reflexivity).
  destruct Hcall as [[Hkey [-> ->]]|[Hkey [u [Hu Hturn]]]].
  { apply Hstop; [discriminate|congruence|]. rewrite Hlog, List.app_nil_r. exact Hpre. }
  assert (Hprompt : forall blob,
             exists base,
               form_prompt (form_of (currentBasePrompt ++ configured_prompt ++ creativity)
                              "1024x1024" 0 1 blob)
               = base ++ creativity ++ " (Variation 1 of 1)").
  { intros. exists (currentBasePrompt ++ configured_prompt). simpl.
    rewrite variation_single, !append_assoc. reflexivity. }
  destruct Hturn as [[-> [e ->]]|[blob [answer [-> Hr]]]].
  { exists (l1 ++ l2 ++ [] ++ [] ++ l3 ++ l4)%list, [BlobFetched u].
    split; [apply Hlog|]. split; [exact Hpre|].
    split; [repeat constructor; simpl; eapply blob_url_scheme; eassumption|].
    split; [simpl; lia|]. split; [intros ? []|].
    right. split; [discriminate|]. split; [congruence|]. intros ? []. }
  assert (Hsingle : Forall single
            [BlobFetched u;
             Posted (form_of (currentBasePrompt ++ configured_prompt ++ creativity)
                       "1024x1024" 0 1 blob) answer]).
  { constructor; [simpl; eapply blob_url_scheme; eassumption|].
    constructor; [apply single_form|constructor]. }
  destruct (imageOf env answer) as [img|e] eqn:Himage; subst r.
  - cbn [List.length Nat.ltb Nat.leb]. unfold setGeneratedAds. steps.
    exists (l1 ++ l2 ++ [] ++ [] ++ l3 ++ l4)%list,
      [BlobFetched u;
       Posted (form_of (currentBasePrompt ++ configured_prompt ++ creativity)
                 "1024x1024" 0 1 blob) answer].
    split; [rewrite !List.app_nil_r; apply Hlog|].
    split; [exact Hpre|]. split; [exact Hsingle|]. split; [simpl; lia|].
    split; [intros form [<-|[]]; apply Hprompt|].
    left. split; [reflexivity|]. exists answer, img.
    split; [reflexivity|]. split; [exact Himage|]. simpl. f_equal. congruence.
  - exists (l1 ++ l2 ++ [] ++ [] ++ l3 ++ l4)%list,
      [BlobFetched u;
       Posted (form_of (currentBasePrompt ++ configured_prompt ++ creativity)
                 "1024x1024" 0 1 blob) answer].
    split; [apply Hlog|].
    split; [exact Hpre|]. split; [exact Hsingle|]. split; [simpl; lia|].
    split; [intros form [<-|[]]; apply Hprompt|].
    right. split; [discriminate|]. split; [congruence|].
    intros a [<-|[]]. eauto.
Qed.

End RegenerationTrace.

Section RegenerationTrace2.
Variable env : Env.
Variable regenerationPromptUrl : option string.

(** The placeholder images carry a number drawn from [Math.random]. *)
Lemma placeholders_random target : forall prevAds s,
  post (placeholders env target prevAds) s
    (fun r s' l =>
       l = [] /\ ui s' = ui s
       /\ exists ads,
            r = Normal ads
            /\ Forall2 (fun ad ad' =>
                          if String.eqb (id ad) target
                          then exists t, ad' = renewed (placeholderUrl (Math_random env t)) ad
                          else ad' = ad) prevAds ads).
Proof.
  induction prevAds as [|ad rest IH]; intros s; simpl.
  - steps. split; [reflexivity|]. split; [reflexivity|]. exists []. split; [reflexivity|constructor].
  - apply post_bind.
    destruct (String.eqb (id ad) target) eqn:E.
    + unfold random. steps.
      eapply post_weaken; [apply IH|]. cbv beta.
      intros r s' l [-> [Hu [ads [-> Hads]]]]. steps.
      split; [reflexivity|]. split; [exact Hu|]. eexists. split; [reflexivity|].
      constructor; [|exact Hads]. rewrite E. eauto.
    + steps. eapply post_weaken; [apply IH|]. cbv beta.
      intros r s' l [-> [Hu [ads [-> Hads]]]]. steps.
      split; [reflexivity|]. split; [exact Hu|]. eexists. split; [reflexivity|].
      constructor; [|exact Hads]. rewrite E. reflexivity.
Qed.

(** What a regeneration writes and where its image comes from. *)
Lemma handleRegenerateAd_trace target s :
  post (handleRegenerateAd env regenerationPromptUrl target) s
    (fun r s' l =>
       (~ In target (map id (generatedAds (ui s))) -> l = [])
       /\ ((productImage (ui s) = None \/ productDescription (ui s) = EmptyString) -> l = [])
       /\ exists l0 l1,
            l = (l0 ++ l1)%list /\ Forall prelude l0 /\ Forall single l1
            /\ (List.length (forms l1) <= 1)%nat
            /\ (forall form, In form (forms l1) ->
                  exists base, form_prompt form
                               = base ++ creativity ++ " (Variation 1 of 1)")
            /\ (In target (map id (generatedAds (ui s))) ->
                (exists answer img,
                   answers l1 = [answer] /\ imageOf env answer = Normal img
                   /\ generatedAds (ui s')
                      = mapAd target (renewed img)
                          (mapAd target (marked true) (generatedAds (ui s))))
                \/ ((forall answer, In answer (answers l1) ->
                                    exists e, imageOf env answer = Throw e)
                    /\ Forall2 (fun ad ad' =>
                                  if String.eqb (id ad) target
                                  then exists t,
                                         ad' = renewed (placeholderUrl (Math_random env t)) ad
                                  else ad' = ad)
                         (mapAd target (marked true) (generatedAds (ui s)))
                         (generatedAds (ui s'))))).
Proof.
  unfold handleRegenerateAd. steps.
  destruct (List.find (fun ad => String.eqb (id ad) target) (generatedAds (ui s)))
    as [adToRegenerate|] eqn:Hfind.
  2:{ steps. split; [reflexivity|]. split; [reflexivity|].
      exists [], []. split; [reflexivity|]. split; [constructor|]. split; [constructor|].
      split; [simpl; lia|]. split; [intros ? []|].
      intros Hin. apply find_absent in Hfind. contradiction. }
  assert (Hin : In target (map id (generatedAds (ui s)))).
  { destruct (in_dec string_dec target (map id (generatedAds (ui s)))) as [H|H]; [exact H|].
    apply find_absent in H. congruence. }
  unfold setGeneratedAds at 1. steps.
  set (s1 := {| tick := tick s; ui := withGeneratedAds (mapAd target (marked true)) (ui s) |}).
  assert (Hinner :
    post match productImage (ui s) with
         | Some image =>
             if negb (String.eqb (productDescription (ui s)) EmptyString)
             then try_catch
                    (regenerateWithApi env regenerationPromptUrl target adToRegenerate image
                       (productDescription (ui s)))
                    (fun _ => ret false)
             else ret false
         | None => ret false
         end s1
      (fun r s' l =>
         ((productImage (ui s) = None \/ productDescription (ui s) = EmptyString) -> l = [])
         /\ exists l0 l1,
              l = (l0 ++ l1)%list /\ Forall prelude l0 /\ Forall single l1
              /\ (List.length (forms l1) <= 1)%nat
              /\ (forall form, In form (forms l1) ->
                    exists base, form_prompt form
                                 = base ++ creativity ++ " (Variation 1 of 1)")
              /\ ((r = Normal true
                   /\ exists answer img,
                        answers l1 = [answer] /\ imageOf env answer = Normal img
                        /\ ui s' = withGeneratedAds (mapAd target (renewed img)) (ui s1))
                  \/ (r = Normal false /\ ui s' = ui s1
                      /\ forall answer, In answer (answers l1) ->
                                        exists e, imageOf env answer = Throw e)))).
  { assert (Hnone : forall s0,
               post (ret false) s0
                 (fun r s' l =>
                    ((productImage (ui s) = None \/ productDescription (ui s) = EmptyString)
                     -> l = [])
                    /\ exists l0 l1,
                         l = (l0 ++ l1)%list /\ Forall prelude l0 /\ Forall single l1
                         /\ (List.length (forms l1) <= 1)%nat
                         /\ (forall form, In form (forms l1) ->
                               exists base, form_prompt form
                                            = base ++ creativity ++ " (Variation 1 of 1)")
                         /\ ((r = Normal true
                              /\ exists answer img,
                                   answers l1 = [answer] /\ imageOf env answer = Normal img
                                   /\ ui s' = withGeneratedAds (mapAd target (renewed img))
                                                (ui s0))
                             \/ (r = Normal false /\ ui s' = ui s0
                                 /\ forall answer, In answer (answers l1) ->
                                                   exists e, imageOf env answer = Throw e)))).
    { intros s0. steps. split; [reflexivity|]. exists [], [].
      split; [reflexivity|]. split; [constructor|]. split; [constructor|].
      split; [simpl; lia|]. split; [intros ? []|].
      right. split; [reflexivity|]. split; [reflexivity|]. intros ? []. }
    destruct (productImage (ui s)) as [image|] eqn:Himg; [|apply Hnone].
    destruct (String.eqb_spec (productDescription (ui s)) EmptyString) as [Hd|Hd];
      simpl negb; cbv iota; [apply Hnone|].
    apply post_try.
    eapply post_weaken; [apply regenerateWithApi_trace|]. cbv beta.
    intros r s' l [l0 [l1 [-> [H0 [H1 [Hlen [Hp Hr]]]]]]].
    assert (Hmissing : (Some image = None \/ productDescription (ui s) = EmptyString) ->
                       forall l' : list Event, l' = []).
    { intros [H|H]; [discriminate|contradiction]. }
    destruct Hr as [[-> Hok]|[Hr [Hu Hfail]]].
    - split; [intros H; apply (Hmissing H)|].
      exists l0, l1. repeat split; auto.
    - destruct r as [[|]|e]; [congruence| |]; steps;
        (split; [intros H; apply (Hmissing H)|]);
        exists l0, l1; rewrite ?List.app_nil_r; repeat split; auto. }
  eapply post_weaken; [exact Hinner|]. cbv beta.
  intros r s2 l2 [Hmissing [l0 [l1 [-> [H0 [H1 [Hlen [Hp Hr]]]]]]]].
  destruct Hr as [[-> [answer [img [Ha [Hi Hu]]]]]|[-> [Hu Hfail]]].
  - steps. rewrite !List.app_nil_r. simpl app.
    split; [intros H; contradiction|]. split; [exact Hmissing|].
    exists l0, l1. repeat split; auto.
    intros _. left. exists answer, img. split; [exact Ha|]. split; [exact Hi|].
    rewrite Hu. reflexivity.
  - steps.
    eapply post_weaken; [apply placeholders_random|]. cbv beta.
    intros r s3 l3 [-> [Hu3 [ads [-> Hads]]]].
    unfold setGeneratedAds. steps. rewrite !List.app_nil_r. simpl app.
    split; [intros H; contradiction|]. split; [exact Hmissing|].
    exists l0, l1. repeat split; auto.
    intros _. right. split; [exact Hfail|]. simpl. rewrite Hu in Hads. exact Hads.
Qed.

End RegenerationTrace2.

End HomeTraceFacts.

(* ================================================================== *)
(** ** Further properties of [Home]                                   *)
(* ================================================================== *)

Import HomeTraceFacts.

Lemma no_posts_answers l : no_posts l -> answers l = [] /\ forms l = [].
Proof.
  induction l as [|e l IH]; intros H; [auto|].
  assert (Hl : no_posts l) by (intros f a K; apply (H f a); right; exact K).
  destruct e; simpl; auto.
  exfalso. apply (H form answer). left. reflexivity.
Qed.

(** Every image a batch fetches is the uploaded one. *)
Lemma generateAd_blobs env basePrompt imageDataUrl adType_ s :
  post (generateAd env basePrompt imageDataUrl adType_) s
    (fun _ _ l => Forall (blob_url imageDataUrl) (blobs l)).
Proof.
  unfold generateAd. steps.
  destruct (get adType_ "type") as [type|e]; steps; [|constructor].
  destruct (toString type) as [text|e]; steps; [|constructor].
  destruct (and_then (get adType_ "prompt") toString) as [prompt|e]; steps; [|constructor].
  eapply post_weaken; [apply generateImages_once|]. cbv beta.
  intros r s1 l1 [[Hkey [-> ->]]|[Hkey [u [Hu Hturn]]]]; [constructor|].
  destruct Hturn as [[-> [e ->]]|[blob [answer [-> ->]]]];
    [repeat constructor; exact Hu|].
  destruct (imageOf env answer) as [image|e]; [|repeat constructor; exact Hu].
  cbn [List.length Nat.ltb Nat.leb]. unfold now. steps.
  destruct type; simpl lowered; steps; rewrite ?List.app_nil_r;
    repeat constructor; exact Hu.
Qed.

Lemma generateAds_blobs env basePrompt imageDataUrl adTypes : forall acc s,
  post (generateAds env basePrompt imageDataUrl adTypes acc) s
    (fun _ _ l => Forall (blob_url imageDataUrl) (blobs l)).
Proof.
  induction adTypes as [|adType_ rest IH]; intros acc s; cbn [generateAds].
  - steps. constructor.
  - apply post_bind.
    eapply post_weaken; [apply generateAd_blobs|]. cbv beta.
    intros r s1 l1 H1. destruct r as [ad|e]; [|exact H1].
    eapply post_weaken; [apply IH|]. cbv beta.
    intros r s2 l2 H2. rewrite blobs_app. apply Forall_app. auto.
Qed.

(** X7.  A top-level generation that ends without an error message
    has obtained the enhanced description from [enhancePrompt] at the
    state it started in, the data URL of the image from [fileToDataUrl]
    one tick later, and the base prompt and the ad types from the
    configuration resolved for that enhanced description one tick after
    that.  Every image it hands to a request is that data URL.  It shows
    one ad for each ad type of the configuration, in the order of the
    configuration: its image is the one read from the answer to its own
    request, its [adType] is the label of the type, its id is [gen-], a
    timestamp and the label in lower case with dashes, and it has no
    rating.  The prompt of each request is the base prompt, then the
    prompt of the ad type, then [ (Variation 1 of 1)]. *)
Theorem a_run_without_error_shows_the_images_read
  (env : Env) (description : string) (image : File) (s : State) :
  let o := generateAdVariations env description image s in
  generationError (ui (final o)) = None ->
  exists enhanced imageDataUrl basePrompt adTypes images,
    result (enhancePrompt env description s) = Normal enhanced
    /\ result (fileToDataUrl env image (at_tick (S (tick s)) (ui s))) = Normal imageDataUrl
    /\ result (resolvePromptConfig env enhanced (at_tick (S (S (tick s))) (ui s)))
       = Normal (basePrompt, adTypes)
    /\ Forall (blob_url imageDataUrl) (blobs (log o))
    /\ map (imageOf env) (answers (log o)) = map Normal images
    /\ List.length images = List.length adTypes
    /\ Forall2 (fun ad at_image => made_of env (fst at_image) (snd at_image) ad)
         (generatedAds (ui (final o))) (combine adTypes images)
    /\ Forall2 (fun form adType_ => prompted basePrompt adType_ form)
         (forms (log o)) adTypes.
Proof.
  cbv zeta.
  pose proof (generateAdVariations_post env description image s) as H.
  unfold post in H. destruct H as [_ [Hearly|Hbatch]].
  - destruct Hearly as [e [value [m [own [k [Hu _]]]]]]. rewrite Hu. discriminate.
  - destruct Hbatch as [s0 [l0 [basePrompt [imageDataUrl [adTypes [own Hb]]]]]].
    cbv zeta in Hb.
    destruct Hb as [Hq [_ [_ [[enhanced [Henh [Hfile [Hconfig Hl0]]]] [Hl [Hu _]]]]]].
    rewrite Hu, Hl. clear Hu Hl.
    pose proof (generateAds_trace env basePrompt imageDataUrl adTypes [] s0) as Ht.
    unfold post in Ht. destruct Ht as [_ [_ [_ Ht]]].
    pose proof (generateAds_blobs env basePrompt imageDataUrl adTypes [] s0) as Hblobs.
    unfold post in Hblobs.
    destruct (no_posts_answers _ Hq) as [Ha Hf].
    assert (Hb0 : blobs l0 = []).
    { apply prelude_forms. rewrite Hl0. repeat (apply Forall_app; split).
      - apply prelude_enhancePrompt.
      - apply (prelude_fileToDataUrl env).
      - eapply Forall_impl; [|apply (free_resolvePromptConfig env)].
        intros [] K; simpl in *; auto. }
    rewrite answers_app, forms_app, blobs_app, Ha, Hf, Hb0. cbn [app].
    destruct (result (generateAds env basePrompt imageDataUrl adTypes [] s0)) as [ads|e];
      [|discriminate].
    intros _. destruct Ht as [new [images [-> [Hmap [Hmade [Hlen Hforms]]]]]].
    exists enhanced, imageDataUrl, basePrompt, adTypes, images.
    repeat (split; [solve [auto]|]); auto.
Qed.

Lemma a_run_without_error_shows_the_images_read_witness :
  generationError
    (ui (final (generateAdVariations (world key config_one_type image_url wall_clock)
                  mug photo initial))) = None
  /\ exists enhanced imageDataUrl basePrompt adTypes images,
       result (enhancePrompt (world key config_one_type image_url wall_clock)
                 mug initial) = Normal enhanced
       /\ result (fileToDataUrl (world key config_one_type image_url wall_clock) photo
                    (at_tick (S (tick initial)) (ui initial))) = Normal imageDataUrl
       /\ result (resolvePromptConfig (world key config_one_type image_url wall_clock)
                    enhanced (at_tick (S (S (tick initial))) (ui initial)))
          = Normal (basePrompt, adTypes)
       /\ Forall (blob_url imageDataUrl)
            (blobs (log (generateAdVariations
                           (world key config_one_type image_url wall_clock)
                           mug photo initial)))
       /\ map (imageOf (world key config_one_type image_url wall_clock))
            (answers (log (generateAdVariations
                             (world key config_one_type image_url wall_clock)
                             mug photo initial)))
          = map Normal images
       /\ List.length images = List.length adTypes
       /\ Forall2 (fun ad at_image => made_of (world key config_one_type image_url wall_clock) (fst at_image) (snd at_image) ad)
            (generatedAds
               (ui (final (generateAdVariations
                             (world key config_one_type image_url wall_clock)
                             mug photo initial))))
            (combine adTypes images)
       /\ Forall2 (fun form adType_ => prompted basePrompt adType_ form)
            (forms (log (generateAdVariations
                           (world key config_one_type image_url wall_clock)
                           mug photo initial)))
            adTypes.
Proof.
  assert (H : generationError
                (ui (final (generateAdVariations
                              (world key config_one_type image_url wall_clock)
                              mug photo initial))) = None)
    by (vm_compute; reflexivity).
  split; [exact H|].
  exact (a_run_without_error_shows_the_images_read
           (world key config_one_type image_url wall_clock) mug photo initial H).
Defined.

(** A failing request ends the run with its message and the fallback. *)
Lemma generateAdVariations_failure
  (env : Env) (description : string) (image : File) (s : State)
  (answer : completion Response) (e : exn) :
  let o := generateAdVariations env description image s in
  In answer (answers (log o)) ->
  imageOf env answer = Throw e ->
  generationError (ui (final o)) = Some (final_message e)
  /\ generatedAds (ui (final o)) = fallbackAds
  /\ progressValue (ui (final o)) = Animation.integer 100
  /\ progressMessage (ui (final o)) = "Complete!".
Proof.
  cbv zeta. intros Hin Himage.
  pose proof (generateAdVariations_post env description image s) as H.
  unfold post in H. destruct H as [_ [Hearly|Hbatch]].
  - destruct Hearly as [e0 [value [m [own [k [_ [Hq _]]]]]]].
    destruct (no_posts_answers _ Hq) as [Ha _]. rewrite Ha in Hin. destruct Hin.
  - destruct Hbatch as [s0 [l0 [basePrompt [imageDataUrl [adTypes [own Hb]]]]]].
    cbv zeta in Hb. destruct Hb as [Hq [_ [_ [_ [Hl [Hu _]]]]]].
    rewrite Hu. rewrite Hl in Hin. clear Hu Hl.
    pose proof (generateAds_trace env basePrompt imageDataUrl adTypes [] s0) as Ht.
    unfold post in Ht. destruct Ht as [_ [_ [_ Ht]]].
    destruct (no_posts_answers _ Hq) as [Ha _].
    rewrite answers_app, Ha in Hin. cbn [app] in Hin.
    destruct (result (generateAds env basePrompt imageDataUrl adTypes [] s0)) as [ads|e1].
    + destruct Ht as [new [images [_ [Hmap _]]]].
      exfalso. apply (in_map (imageOf env)) in Hin. rewrite Himage, Hmap in Hin.
      exact (in_map_Normal _ _ Hin).
    + rewrite (Ht answer e Hin Himage). repeat split.
Qed.

(** X8.  When the answer to any request of a top-level generation
    yields no image, the run ends with the three fixed fallback ads in
    place of the whole batch - the ads generated before the failure are
    dropped - and with the message of that failure as [generationError];
    progress is forced to 100 with the message [Complete!]. *)
Theorem a_failing_request_brings_the_fallback
  (env : Env) (description : string) (image : File) (s : State)
  (answer : completion Response) (e : exn) :
  let o := generateAdVariations env description image s in
  In answer (answers (log o)) ->
  imageOf env answer = Throw e ->
  generationError (ui (final o)) = Some (final_message e)
  /\ generatedAds (ui (final o)) = fallbackAds
  /\ progressValue (ui (final o)) = Animation.integer 100
  /\ progressMessage (ui (final o)) = "Complete!".
Proof. cbv zeta. apply generateAdVariations_failure. Qed.

Lemma a_failing_request_brings_the_fallback_witness :
  In gateway_error
     (answers (log (generateAdVariations (world_failing_from 6 gateway_error)
                      mug photo initial)))
  /\ imageOf (world_failing_from 6 gateway_error) gateway_error
     = Throw (body_already_read (world_failing_from 6 gateway_error))
  /\ List.length (answers (log (generateAdVariations (world_failing_from 6 gateway_error)
                                  mug photo initial))) = 2%nat
  /\ generationError
       (ui (final (generateAdVariations (world_failing_from 6 gateway_error)
                     mug photo initial)))
     = Some "Failed to execute 'text' on 'Response': body stream already read"
  /\ generatedAds
       (ui (final (generateAdVariations (world_failing_from 6 gateway_error)
                     mug photo initial)))
     = fallbackAds.
Proof.
  assert (Hin : In gateway_error
                  (answers (log (generateAdVariations (world_failing_from 6 gateway_error)
                                   mug photo initial))))
    by (vm_compute; right; left; reflexivity).
  assert (Himage : imageOf (world_failing_from 6 gateway_error) gateway_error
     = Throw (body_already_read (world_failing_from 6 gateway_error))) by reflexivity.
  split; [exact Hin|]. split; [exact Himage|]. split; [vm_compute; reflexivity|].
  pose proof (a_failing_request_brings_the_fallback
                (world_failing_from 6 gateway_error) mug photo initial
                gateway_error
                (body_already_read (world_failing_from 6 gateway_error)) Hin Himage) as [H1 [H2 _]].
  split; [exact H1|exact H2].
Defined.
(** *** One image at a time *)

Lemma single_forms l :
  Forall single l ->
  Forall (fun form => standard "1024x1024" form
                      /\ exists prompt, form_prompt form = prompt ++ " (Variation 1 of 1)")
         (forms l)
  /\ delays (wire l) = 0%nat
  /\ Forall (fun u => (startsWith u "data:" || startsWith u "http") = true) (blobs l).
Proof.
  induction 1 as [|e l He _ [IH1 [IH2 IH3]]]; [repeat split; constructor|].
  destruct e; simpl in *; try (destruct He; fail);
    (split; [|split]); auto.
Qed.

Lemma within_generateAds env basePrompt imageDataUrl adTypes acc :
  within single (generateAds env basePrompt imageDataUrl adTypes acc).
Proof.
  intros s. eapply post_weaken; [apply generateAds_trace|].
  cbv beta. intros r s' l [H _]. exact H.
Qed.

Lemma within_awaiting {A : Type} (P : Event -> Prop) env interval j (m : M A) :
  within P m -> within P (awaiting env interval j m).
Proof.
  intros H s. apply post_awaiting. specialize (H s). unfold post in *.
  split; intros _; exact H.
Qed.

Lemma within_generateAdVariations env description image :
  within single (generateAdVariations env description image).
Proof.
  unfold generateAdVariations, setIsGenerating, setGenerationError, setCurrentStep,
    setProgressValue, setProgressMessage, startProgressAnimation, imported,
    setTimeout_clearLoading, setGeneratedAds.
  assert (Hp : forall A (m : M A), within prelude m -> within single m).
  { intros A m. apply within_weaken. intros [] H; simpl in *; auto; destruct H. }
  assert (Hf : forall A (m : M A), within free m -> within single m).
  { intros A m. apply within_weaken. intros [] H; simpl in *; auto; destruct H. }
  apply within_try; [|intro; confined].
  repeat (apply within_bind; [apply within_update|intro]).
  apply within_bind; [confined|intro].
  repeat (apply within_bind; [apply within_update|intro]).
  apply within_bind; [apply within_awaiting, Hp, prelude_enhancePrompt|intro].
  apply within_bind; [apply within_update|intro].
  apply within_bind; [apply within_awaiting, Hf, free_fileToDataUrl|intro].
  apply within_bind; [apply within_awaiting, Hf, free_resolvePromptConfig|intro].
  apply within_bind; [|intro; confined].
  apply within_try; [|intro; confined].
  apply within_bind; [apply within_awaiting, within_generateAds|intro; confined].
Qed.

Lemma within_perform env regenerationPromptUrl a : 
  within single (perform env regenerationPromptUrl a).
Proof.
  destruct a as [description image|target r|target]; cbn [perform].
  - unfold handleInputSubmit. apply within_bind; [apply within_update|intro].
    apply within_generateAdVariations.
  - unfold handleRateAd, setGeneratedAds. apply within_update.
  - intros s. eapply post_weaken; [apply handleRegenerateAd_trace|].
    cbv beta. intros r s' l [_ [_ [l0 [l1 [-> [H0 [H1 _]]]]]]].
    apply Forall_app. split; [apply prelude_single; exact H0|exact H1].
Qed.

(** X9.  Whatever the component is asked to do - a submission, a
    rating, a regeneration - every request it sends to the image-edit
    endpoint asks for one image of 1024x1024 from the model
    [gpt-image-1], with a prompt that ends in [ (Variation 1 of 1)]; it
    never waits between requests; and every image it converts to a blob
    comes from a URL that starts with [data:] or [http]. *)
Theorem every_request_asks_for_one_image
  (env : Env) (regenerationPromptUrl : option string) (a : action) (s : State) :
  let o := perform env regenerationPromptUrl a s in
  Forall (fun form => standard "1024x1024" form
                      /\ exists prompt, form_prompt form = prompt ++ " (Variation 1 of 1)")
         (forms (log o))
  /\ delays (wire (log o)) = 0%nat
  /\ Forall (fun u => (startsWith u "data:" || startsWith u "http") = true) (blobs (log o)).
Proof.
  cbv zeta. apply single_forms. apply (within_perform env regenerationPromptUrl a s).
Qed.

(** *** Without a credential *)

Lemma free_generateImages env prompt url n size quality :
  configured (VITE_OPENAI_API_KEY env) = false ->
  within free (generateImages env prompt url n size quality).
Proof.
  intros H s. unfold post. rewrite generateImages_unconfigured by exact H. constructor.
Qed.

Lemma free_placeholders env target prevAds : within free (placeholders env target prevAds).
Proof.
  induction prevAds as [|ad rest IH]; simpl; [apply within_ret|].
  apply within_bind.
  - destruct (String.eqb (id ad) target); [|apply within_ret].
    unfold random. apply within_bind; [apply within_ask; intro; constructor|intro].
    apply within_ret.
  - intro. apply within_bind; [exact IH|intro; apply within_ret].
Qed.

Lemma free_regenerateWithApi env regenerationPromptUrl target ad image description :
  configured (VITE_OPENAI_API_KEY env) = false ->
  within free (regenerateWithApi env regenerationPromptUrl target ad image description).
Proof.
  intros Hkey. unfold regenerateWithApi, setGeneratedAds.
  apply within_bind; [apply free_fileToDataUrl|intro].
  apply within_bind; [apply free_refetch|intro].
  apply within_bind; [apply within_lift|intro].
  apply within_bind; [apply within_lift|intro].
  apply within_bind; [apply free_enhancePrompt; exact Hkey|intro].
  apply within_bind; [apply free_refetch|intro].
  apply within_bind; [apply free_generateImages; exact Hkey|intro].
  confined.
Qed.

Lemma free_handleRegenerateAd env regenerationPromptUrl target :
  configured (VITE_OPENAI_API_KEY env) = false ->
  within free (handleRegenerateAd env regenerationPromptUrl target).
Proof.
  intros Hkey. unfold handleRegenerateAd, setGeneratedAds.
  apply within_try; [|intro; confined].
  apply within_bind; [apply within_session|intro closure].
  destruct (List.find (fun ad => String.eqb (id ad) target) (generatedAds closure));
    [|apply within_ret].
  apply within_bind; [apply within_update|intro].
  apply within_bind.
  - destruct (productImage closure); [|apply within_ret].
    destruct (negb (String.eqb (productDescription closure) EmptyString)); [|apply within_ret].
    apply within_try; [apply free_regenerateWithApi; exact Hkey|intro; apply within_ret].
  - intros [|]; [apply within_ret|].
    apply within_bind; [apply within_session|intro].
    apply within_bind; [apply free_placeholders|intro].
    apply within_update.
Qed.

Lemma free_traces l :
  Forall free l -> chats l = [] /\ forms l = [] /\ blobs l = [].
Proof.
  induction 1 as [|e l He _ IH]; [auto|].
  destruct e; simpl in *; try destruct He; exact IH.
Qed.

(** X10.  Without a configured credential the component never asks for
    a chat completion, never converts an image and never sends a request
    to the image-edit endpoint, whatever it is asked to do.  A submission
    does nothing outside at all: it reads no file and fetches no
    configuration. *)
Theorem without_a_credential_nothing_is_asked
  (env : Env) (regenerationPromptUrl : option string) (a : action) (s : State) :
  configured (VITE_OPENAI_API_KEY env) = false ->
  let o := perform env regenerationPromptUrl a s in
  chats (log o) = [] /\ forms (log o) = [] /\ blobs (log o) = []
  /\ (forall description image, a = Submit description image -> log o = []).
Proof.
  intros Hkey. cbv zeta.
  assert (Hsubmit : forall description image,
             log (handleInputSubmit env description image s) = []).
  { intros. change (post (handleInputSubmit env description image) s (fun _ _ l => l = [])).
    unfold handleInputSubmit. steps.
    eapply post_weaken; [apply generateAdVariations_post|]. cbv beta.
    intros r s' l [_ [Hearly|Hbatch]].
    - destruct Hearly as [e [value [m [own [k [_ [_ [_ [_ Hno]]]]]]]]].
      destruct (Hno Hkey) as [_ [_ [-> _]]]. reflexivity.
    - destruct Hbatch as [s0 [l0 [basePrompt [imageDataUrl [adTypes [own Hb]]]]]].
      cbv zeta in Hb. destruct Hb as [_ [_ [K _]]]. congruence. }
  destruct a as [description image|target r|target]; cbn [perform].
  - rewrite Hsubmit. repeat split.
  - repeat split; discriminate.
  - pose proof (free_handleRegenerateAd env regenerationPromptUrl target Hkey s) as H.
    unfold post in H. destruct (free_traces _ H) as [H1 [H2 H3]].
    repeat split; auto; discriminate.
Qed.

Lemma without_a_credential_nothing_is_asked_witness :
  configured (VITE_OPENAI_API_KEY (world None config_full image_url wall_clock)) = false
  /\ log (perform (world None config_full image_url wall_clock) (Some gistUrl)
            (Regenerate "gen-1714000018000-benefit-highlight-ad") (showing rated_batch))
     = [FileRead "mug.png"; Got gistUrl]
  /\ chats (log (perform (world None config_full image_url wall_clock) (Some gistUrl)
                   (Regenerate "gen-1714000018000-benefit-highlight-ad")
                   (showing rated_batch))) = []
  /\ forms (log (perform (world None config_full image_url wall_clock) (Some gistUrl)
                   (Regenerate "gen-1714000018000-benefit-highlight-ad")
                   (showing rated_batch))) = [].
Proof.
  assert (Hkey : configured (VITE_OPENAI_API_KEY (world None config_full image_url wall_clock))
                 = false) by reflexivity.
  split; [exact Hkey|]. split; [vm_compute; reflexivity|].
  pose proof (without_a_credential_nothing_is_asked
                (world None config_full image_url wall_clock) (Some gistUrl)
                (Regenerate "gen-1714000018000-benefit-highlight-ad")
                (showing rated_batch) Hkey) as [H1 [H2 _]].
  split; [exact H1|exact H2].
Defined.
(** *** Regeneration: where the image comes from *)

Lemma in_mapAd_renewed target img ads ad :
  In ad (mapAd target (renewed img) ads) -> id ad = target -> imageUrl ad = img.
Proof.
  unfold mapAd. intros Hin Hid. apply in_map_iff in Hin. destruct Hin as [x [Hx _]].
  destruct (String.eqb_spec (id x) target) as [E|E]; subst ad; [reflexivity|].
  contradiction.
Qed.

Lemma in_placeholders env target ads ads' ad :
  Forall2 (fun x x' =>
             if String.eqb (id x) target
             then exists t, x' = renewed (placeholderUrl (Math_random env t)) x
             else x' = x) ads ads' ->
  In ad ads' -> id ad = target ->
  exists t, imageUrl ad = placeholderUrl (Math_random env t).
Proof.
  induction 1 as [|x x' ads ads' Hx _ IH]; intros Hin Hid; [destruct Hin|].
  destruct Hin as [<-|Hin]; [|auto].
  destruct (String.eqb_spec (id x) target) as [E|E].
  - destruct Hx as [t ->]. exists t. reflexivity.
  - subst x'. contradiction.
Qed.

Lemma present_after env regenerationPromptUrl target s ad :
  In ad (generatedAds (ui (final (handleRegenerateAd env regenerationPromptUrl target s)))) ->
  id ad = target ->
  In target (map id (generatedAds (ui s))).
Proof.
  intros Hin Hid.
  pose proof (handleRegenerateAd_post env regenerationPromptUrl target s) as H.
  unfold post in H. destruct H as [_ [[Habsent [Hs _]]|[Hpresent _]]]; [|exact Hpresent].
  rewrite Hs in Hin. exfalso. apply Habsent. rewrite <- Hid. apply in_map. exact Hin.
Qed.

(** X11.  After a regeneration, the image of the regenerated ad is
    either the image read from the answer to the one request the
    regeneration made, or - when no request was made or its answer
    yielded no image - the fixed placeholder URL followed by a number
    drawn from [Math.random].  No failure on the way is reported. *)
Theorem the_regenerated_image_is_read_or_a_placeholder
  (env : Env) (regenerationPromptUrl : option string) (target : string) (s : State)
  (ad : GeneratedAd) :
  let o := handleRegenerateAd env regenerationPromptUrl target s in
  In ad (generatedAds (ui (final o))) ->
  id ad = target ->
  (exists answer, answers (log o) = [answer] /\ imageOf env answer = Normal (imageUrl ad))
  \/ ((forall answer, In answer (answers (log o)) -> exists e, imageOf env answer = Throw e)
      /\ exists t, imageUrl ad = placeholderUrl (Math_random env t)).
Proof.
  cbv zeta. intros Hin Hid.
  pose proof (present_after _ _ _ _ _ Hin Hid) as Hpresent.
  pose proof (handleRegenerateAd_trace env regenerationPromptUrl target s) as H.
  unfold post in H.
  destruct H as [_ [_ [l0 [l1 [Hl [H0 [_ [_ [_ Himage]]]]]]]]].
  destruct (prelude_forms _ H0) as [_ [Ha0 _]].
  rewrite Hl, answers_app, Ha0. cbn [app].
  destruct (Himage Hpresent) as [[answer [img [Ha [Hi Hads]]]]|[Hfail Hads]].
  - left. exists answer. split; [exact Ha|]. rewrite Hi. f_equal. symmetry.
    rewrite Hads in Hin. eapply in_mapAd_renewed; eassumption.
  - right. split; [exact Hfail|]. eapply in_placeholders; eassumption.
Qed.

Lemma the_regenerated_image_is_read_or_a_placeholder_witness :
  In {| id := "gen-1714000018000-benefit-highlight-ad";
        imageUrl := Str "https://oaidalle.example/img-1.png";
        rating := None;
        adType := Some "Benefit Highlight Ad";
        isRegenerating := Some false |}
     (generatedAds (ui (final (handleRegenerateAd
                                 (world key unreachable image_url wall_clock) (Some gistUrl)
                                 "gen-1714000018000-benefit-highlight-ad"
                                 (showing rated_batch)))))
  /\ answers (log (handleRegenerateAd (world key unreachable image_url wall_clock)
                     (Some gistUrl) "gen-1714000018000-benefit-highlight-ad"
                     (showing rated_batch)))
     = [image_url]
  /\ ((exists answer,
         answers (log (handleRegenerateAd (world key unreachable image_url wall_clock)
                         (Some gistUrl) "gen-1714000018000-benefit-highlight-ad"
                         (showing rated_batch))) = [answer]
         /\ imageOf (world key unreachable image_url wall_clock) answer = Normal (Str "https://oaidalle.example/img-1.png"))
      \/ ((forall answer,
             In answer (answers (log (handleRegenerateAd
                                        (world key unreachable image_url wall_clock)
                                        (Some gistUrl)
                                        "gen-1714000018000-benefit-highlight-ad"
                                        (showing rated_batch)))) ->
             exists e, imageOf (world key unreachable image_url wall_clock) answer = Throw e)
          /\ exists t, Str "https://oaidalle.example/img-1.png"
                       = placeholderUrl
                           (Math_random (world key unreachable image_url wall_clock) t))).
Proof.
  assert (Hin : In {| id := "gen-1714000018000-benefit-highlight-ad";
                      imageUrl := Str "https://oaidalle.example/img-1.png";
                      rating := None;
                      adType := Some "Benefit Highlight Ad";
                      isRegenerating := Some false |}
                  (generatedAds (ui (final (handleRegenerateAd
                                              (world key unreachable image_url wall_clock)
                                              (Some gistUrl)
                                              "gen-1714000018000-benefit-highlight-ad"
                                              (showing rated_batch))))))
    by (vm_compute; right; left; reflexivity).
  split; [exact Hin|]. split; [vm_compute; reflexivity|].
  exact (the_regenerated_image_is_read_or_a_placeholder
           (world key unreachable image_url wall_clock) (Some gistUrl)
           "gen-1714000018000-benefit-highlight-ad" (showing rated_batch) _ Hin eq_refl).
Defined.

(** X12.  A regeneration sends at most one request to the image-edit
    endpoint.  Its prompt is the base prompt and the prompt of the ad
    type, then the line [- Make it slightly more creative.] after an
    empty line, then [ (Variation 1 of 1)]. *)
Theorem a_regeneration_asks_once_for_more_creativity
  (env : Env) (regenerationPromptUrl : option string) (target : string) (s : State) :
  let o := handleRegenerateAd env regenerationPromptUrl target s in
  (List.length (forms (log o)) <= 1)%nat
  /\ Forall (fun form =>
               exists base,
                 form_prompt form
                 = base ++ nl ++ nl ++ "- Make it slightly more creative."
                   ++ " (Variation 1 of 1)")
       (forms (log o)).
Proof.
  cbv zeta.
  pose proof (handleRegenerateAd_trace env regenerationPromptUrl target s) as H.
  unfold post in H.
  destruct H as [_ [_ [l0 [l1 [Hl [H0 [_ [Hlen [Hprompt _]]]]]]]]].
  destruct (prelude_forms _ H0) as [Hf0 _].
  rewrite Hl, forms_app, Hf0. cbn [app]. split; [exact Hlen|].
  apply Forall_forall. intros form Hin. destruct (Hprompt form Hin) as [base Hb].
  exists base. rewrite Hb. unfold creativity. rewrite !append_assoc. reflexivity.
Qed.

(** X13.  When the component holds no product image or an empty
    product description, a regeneration touches nothing outside: it reads
    no file, fetches nothing and sends no request.  The regenerated ad
    gets the placeholder URL with a number drawn from [Math.random]. *)
Theorem a_regeneration_without_inputs_stays_local
  (env : Env) (regenerationPromptUrl : option string) (target : string) (s : State) :
  productImage (ui s) = None \/ productDescription (ui s) = EmptyString ->
  let o := handleRegenerateAd env regenerationPromptUrl target s in
  log o = []
  /\ forall ad, In ad (generatedAds (ui (final o))) -> id ad = target ->
                exists t, imageUrl ad = placeholderUrl (Math_random env t).
Proof.
  intros Hmissing. cbv zeta.
  pose proof (handleRegenerateAd_trace env regenerationPromptUrl target s) as H.
  unfold post in H.
  destruct H as [_ [Hlocal [l0 [l1 [Hl [H0 [_ [_ [_ Himage]]]]]]]]].
  pose proof (Hlocal Hmissing) as Hnil. split; [exact Hnil|].
  intros ad Hin Hid.
  pose proof (present_after _ _ _ _ _ Hin Hid) as Hpresent.
  rewrite Hnil in Hl. symmetry in Hl. apply app_eq_nil in Hl. destruct Hl as [-> ->].
  destruct (Himage Hpresent) as [[answer [img [Ha _]]]|[_ Hads]]; [discriminate|].
  eapply in_placeholders; eassumption.
Qed.

Lemma a_regeneration_without_inputs_stays_local_witness :
  productImage (ui {| tick := 7; ui := withGeneratedAds (fun _ => fallbackAds) (ui initial) |})
  = None
  /\ log (handleRegenerateAd (world key config_full image_url wall_clock) (Some gistUrl) "2"
            {| tick := 7; ui := withGeneratedAds (fun _ => fallbackAds) (ui initial) |}) = []
  /\ map imageUrl
       (generatedAds
          (ui (final (handleRegenerateAd (world key config_full image_url wall_clock)
                        (Some gistUrl) "2"
                        {| tick := 7;
                           ui := withGeneratedAds (fun _ => fallbackAds) (ui initial) |}))))
     = [Str "https://images.unsplash.com/photo-1542744173-8e7e53415bb0?w=800&q=80";
        Str "https://images.unsplash.com/photo-1611162617213-7d7a39e9b1d7?w=800&q=80&random=0.4217";
        Str "https://images.unsplash.com/photo-1661956602926-db6b25f75947?w=800&q=80"].
Proof.
  assert (Hmissing :
            productImage
              (ui {| tick := 7; ui := withGeneratedAds (fun _ => fallbackAds) (ui initial) |})
            = None) by reflexivity.
  split; [exact Hmissing|].
  split; [|vm_compute; reflexivity].
  exact (proj1 (a_regeneration_without_inputs_stays_local
                  (world key config_full image_url wall_clock) (Some gistUrl) "2"
                  {| tick := 7; ui := withGeneratedAds (fun _ => fallbackAds) (ui initial) |}
                  (or_introl Hmissing))).
Defined.

(** *** The step and the stored inputs *)

Lemma final_after_update {A : Type} f (m : M A) s :
  final (bind (update f) (fun _ => m) s) = final (m {| tick := tick s; ui := f (ui s) |}).
Proof. reflexivity. Qed.

(** What an action leaves of the step and of the stored inputs. *)
Lemma perform_inputs env regenerationPromptUrl a s :
  let u' := ui (final (perform env regenerationPromptUrl a s)) in
  match a with
  | Submit description image =>
      currentStep u' = GENERATION
      /\ productDescription u' = description
      /\ productImage u' = Some image
  | _ =>
      currentStep u' = currentStep (ui s)
      /\ productDescription u' = productDescription (ui s)
      /\ productImage u' = productImage (ui s)
  end.
Proof.
  cbv zeta. destruct a as [description image|target r|target]; cbn [perform].
  - unfold handleInputSubmit. rewrite final_after_update.
    pose proof (generateAdVariations_post env description image
                  {| tick := tick s; ui := withInput description image (ui s) |}) as H.
    unfold post in H. destruct H as [_ [Hearly|Hbatch]].
    + destruct Hearly as [e [value [m [own [k [Hu _]]]]]].
      rewrite Hu. repeat split.
    + destruct Hbatch as [s0 [l0 [basePrompt [imageDataUrl [adTypes [own Hb]]]]]].
      cbv zeta in Hb. destruct Hb as [_ [_ [_ [_ [_ [Hu _]]]]]].
      rewrite Hu.
      destruct (result (generateAds env basePrompt imageDataUrl adTypes [] s0));
        repeat split.
  - repeat split.
  - pose proof (handleRegenerateAd_post env regenerationPromptUrl target s) as H.
    unfold post in H. destruct H as [_ [[_ [Hs _]]|[_ [ads [_ Hu]]]]].
    + rewrite Hs. repeat split.
    + rewrite Hu. repeat split.
Qed.

(** X14.  Through any sequence of submissions, ratings and
    regenerations, the component is on the generation step and holds the
    description and the image of the last submission - also when that
    submission failed at once.  Ratings and regenerations change neither
    the step nor the stored inputs, and nothing ever leads back to the
    input step. *)
Theorem the_component_stays_on_the_generation_step
  (env : Env) (regenerationPromptUrl : option string) (actions : list action) (s : State) :
  let u' := ui (run env regenerationPromptUrl actions s) in
  match last_submit actions with
  | Some (description, image) =>
      currentStep u' = GENERATION
      /\ productDescription u' = description
      /\ productImage u' = Some image
  | None =>
      currentStep u' = currentStep (ui s)
      /\ productDescription u' = productDescription (ui s)
      /\ productImage u' = productImage (ui s)
  end
  /\ (currentStep (ui s) = GENERATION -> currentStep u' = GENERATION).
Proof.
  cbv zeta. revert s. induction actions as [|a rest IH]; intros s; cbn [run last_submit].
  - repeat split. auto.
  - specialize (IH (final (perform env regenerationPromptUrl a s))).
    pose proof (perform_inputs env regenerationPromptUrl a s) as Ha. cbv zeta in Ha.
    destruct IH as [IH Hstay].
    destruct (last_submit rest) as [[description image]|].
    + split; [exact IH|]. intros _. apply IH.
    + destruct a as [description image|target r|target].
      * destruct Ha as [H1 [H2 H3]]. destruct IH as [I1 [I2 I3]].
        split; [split; [congruence|split; congruence]|]. intros _. congruence.
      * destruct Ha as [H1 [H2 H3]]. destruct IH as [I1 [I2 I3]].
        split; [split; [congruence|split; congruence]|]. intros Hg. congruence.
      * destruct Ha as [H1 [H2 H3]]. destruct IH as [I1 [I2 I3]].
        split; [split; [congruence|split; congruence]|]. intros Hg. congruence.
Qed.

Example the_step_after_a_failed_submission :
  currentStep (ui (run (world None unreachable image_url wall_clock) None
                     [Submit mug photo; Rate "1" 3; Regenerate "1"] initial))
  = GENERATION
  /\ generatedAds (ui (run (world None unreachable image_url wall_clock) None
                         [Submit mug photo; Rate "1" 3; Regenerate "1"] initial)) = [].
Proof. vm_compute. split; reflexivity. Qed.

(* ================================================================== *)
(** ** The round trip of [JSON.stringify] and [JSON.parse]            *)
(* ================================================================== *)

Module JsonFacts.
Import JSON Reparse HomeTraceFacts.

(** *** String literals *)

Lemma string_body_char c T :
  string_body (escape_char c ++ T)
  = match string_body T with
    | Some (t, r) => Some (String c t, r)
    | None => None
    end.
Proof.
  destruct c as [[|] [|] [|] [|] [|] [|] [|] [|]]; reflexivity.
Qed.

Lemma string_body_escape s rest :
  string_body (escape s ++ dquote ++ rest) = Some (s, rest).
Proof.
  induction s as [|c s IH]; [reflexivity|].
  cbn [escape]. rewrite append_assoc, string_body_char, IH. reflexivity.
Qed.

(** *** Numbers *)

Lemma digits_value_acc d : forall acc,
  digits_value (Npos acc) (NilEmpty.string_of_uint d) = Npos (Pos.of_uint_acc d acc).
Proof.
  induction d; intros acc; cbn [NilEmpty.string_of_uint digits_value Pos.of_uint_acc];
    try reflexivity;
    rewrite <- IHd; f_equal.
  all: match goal with |- context [N.of_nat ?n] => let v := eval vm_compute in (N.of_nat n) in change (N.of_nat n) with v end.
  all: lia.
Qed.

Lemma digits_uint d rest :
  delimited rest ->
  digits (NilEmpty.string_of_uint d ++ rest) = (NilEmpty.string_of_uint d, rest).
Proof.
  intros Hrest. induction d; cbn [NilEmpty.string_of_uint append digits];
    try (change (is_digit _) with true; cbv iota; rewrite IHd; reflexivity).
  destruct rest as [|c rest]; [reflexivity|].
  cbn [digits]. destruct Hrest as [->|[->| ->]]; reflexivity.
Qed.

Lemma to_uint_head p :
  match Pos.to_uint p with
  | Decimal.Nil | Decimal.D0 _ => False
  | _ => True
  end.
Proof.
  pose proof (DecimalPos.Unsigned.to_of (Pos.to_uint p)) as H.
  rewrite DecimalPos.Unsigned.of_to in H. cbn [N.to_uint] in H.
  pose proof (DecimalPos.Unsigned.to_uint_nonnil p) as Hnil.
  pose proof (DecimalPos.Unsigned.to_uint_nonzero p) as Hzero.
  destruct (Pos.to_uint p) as [|u|u|u|u|u|u|u|u|u|u] eqn:E; try exact I; [congruence|].
  unfold Decimal.unorm in H. cbn [Decimal.nzhead] in H.
  pose proof (DecimalFacts.nzhead_nonzero u) as Hnz.
  destruct (Decimal.nzhead u) eqn:En; try discriminate.
  - injection H as H. subst u. apply Hzero. reflexivity.
  - exfalso. apply (Hnz u0). reflexivity.
Qed.



Lemma number_digits (negative : bool) c d rest :
  delimited rest ->
  is_digit c = true ->
  (c = "0"%char -> d = Decimal.Nil) ->
  number ((if negative then "-" else EmptyString)
          ++ String c (NilEmpty.string_of_uint d ++ rest))
  = Some (let z := Z.of_N (digits_value (N.of_nat (code c - 48)) (NilEmpty.string_of_uint d)) in
          if negative then (- z)%Z else z, rest).
Proof.
  intros Hrest Hc Hzero. unfold number.
  assert (Hminus : Ascii.eqb c "-" = false).
  { destruct (Ascii.eqb_spec c "-"%char) as [->|]; [discriminate Hc|reflexivity]. }
  assert (Hlead : Ascii.eqb c "0" && negb (String.eqb (NilEmpty.string_of_uint d) EmptyString) = false).
  { destruct (Ascii.eqb_spec c "0"%char) as [E|]; [|reflexivity].
    rewrite (Hzero E). reflexivity. }
  destruct negative; cbn [append Ascii.eqb Bool.eqb]; cbv iota; [|rewrite Hminus];
    cbn [digits]; rewrite Hc, (digits_uint d rest Hrest), Hlead;
    cbn [digits_value N.mul N.add];
    (destruct rest as [|r rest]; [reflexivity|]);
    destruct Hrest as [->|[->| ->]]; reflexivity.
Qed.

Lemma number_uint (negative : bool) p rest :
  delimited rest ->
  number ((if negative then "-" else EmptyString)
          ++ NilZero.string_of_uint (Pos.to_uint p) ++ rest)
  = Some (if negative then Zneg p else Zpos p, rest).
Proof.
  intros Hrest.
  pose proof (to_uint_head p) as Hhead.
  pose proof (DecimalPos.Unsigned.of_to p) as Hp.
  destruct (Pos.to_uint p) as [|u|u|u|u|u|u|u|u|u|u]; try destruct Hhead;
    cbn [NilZero.string_of_uint NilEmpty.string_of_uint append];
    (rewrite (number_digits negative _ u rest Hrest); [|reflexivity|discriminate]);
    cbn [Pos.of_uint] in Hp;
    match goal with
    | |- context [N.of_nat ?n] =>
        let v := eval vm_compute in (N.of_nat n) in change (N.of_nat n) with v
    end;
    rewrite digits_value_acc, Hp; destruct negative; reflexivity.
Qed.

Lemma number_dec z rest :
  delimited rest -> number (dec z ++ rest) = Some (z, rest).
Proof.
  intros Hrest. destruct z as [|p|p]; unfold dec; cbn [Z.to_int NilZero.string_of_int].
  - apply (number_digits false "0" Decimal.Nil rest Hrest); reflexivity.
  - apply (number_uint false p rest Hrest).
  - apply (number_uint true p rest Hrest).
Qed.

Lemma dec_head z :
  exists c t, dec z = String c t /\ (is_digit c = true \/ c = "-"%char).
Proof.
  destruct z as [|p|p]; unfold dec; cbn [Z.to_int NilZero.string_of_int].
  - exists "0"%char, EmptyString. split; [reflexivity|left; reflexivity].
  - pose proof (to_uint_head p) as Hhead.
    destruct (Pos.to_uint p) as [|u|u|u|u|u|u|u|u|u|u]; try destruct Hhead;
      cbn [NilZero.string_of_uint NilEmpty.string_of_uint];
      eexists _, _; (split; [reflexivity|left; reflexivity]).
  - eexists _, _. split; [reflexivity|right; reflexivity].
Qed.

(** *** Values *)

Lemma ser_arr items : ser (Arr items) = "[" ++ join "," (map ser items) ++ "]".
Proof. reflexivity. Qed.

Lemma ser_obj props : ser (Obj props) = "{" ++ join "," (members props) ++ "}".
Proof. reflexivity. Qed.

Lemma reparsed_obj props : reparsed (Obj props) = Obj (defined props []).
Proof. reflexivity. Qed.

Lemma length_append a b : String.length (a ++ b) = (String.length a + String.length b)%nat.
Proof. induction a as [|c a IH]; simpl; [reflexivity|]. rewrite IH. reflexivity. Qed.

Lemma value_nested_ind (P : value -> Prop) :
  P Undefined -> P Null -> (forall b, P (Boolean b)) -> (forall z, P (Number z)) ->
  (forall s, P (Str s)) ->
  (forall items, Forall P items -> P (Arr items)) ->
  (forall props, Forall (fun kv => P (snd kv)) props -> P (Obj props)) ->
  forall v, P v.
Proof.
  intros HU HN HB HZ HS HA HO. fix IH 1.
  intros [| |b|z|s|items|props];
    [exact HU|exact HN|apply HB|apply HZ|apply HS| |].
  - apply HA. induction items as [|x items IHi]; constructor; [apply IH|exact IHi].
  - apply HO. induction props as [|[k x] props IHp]; constructor; [apply IH|exact IHp].
Qed.

Lemma parse_value_string fuel r :
  parse_value (S fuel) (dquote ++ r)
  = match string_body r with
    | Some (x, r') => Some (Str x, r')
    | None => None
    end.
Proof. reflexivity. Qed.

Lemma parse_value_array fuel r :
  parse_value (S fuel) ("[" ++ r)
  = match skip_ws r with
    | EmptyString => None
    | String c2 r2 =>
        if (code c2 =? 93)%nat then Some (Arr [], r2)
        else match parse_elements fuel r with
             | Some (items, r') => Some (Arr items, r')
             | None => None
             end
    end.
Proof. reflexivity. Qed.

Lemma parse_value_object fuel r :
  parse_value (S fuel) ("{" ++ r)
  = match skip_ws r with
    | EmptyString => None
    | String c2 r2 =>
        if (code c2 =? 125)%nat then Some (Obj [], r2)
        else match parse_members fuel [] r with
             | Some (props, r') => Some (Obj props, r')
             | None => None
             end
    end.
Proof. reflexivity. Qed.

Lemma parse_value_number fuel c t :
  is_digit c = true \/ c = "-"%char ->
  parse_value (S fuel) (String c t)
  = match number (String c t) with
    | Some (z, r') => Some (Number z, r')
    | None => None
    end.
Proof.
  intros [H| ->]; [|reflexivity].
  destruct c as [[|] [|] [|] [|] [|] [|] [|] [|]]; try discriminate H; reflexivity.
Qed.

Lemma parse_elements_step fuel s :
  parse_elements (S fuel) s
  = match parse_value fuel s with
    | None => None
    | Some (v, r) =>
        match skip_ws r with
        | EmptyString => None
        | String c r' =>
            if (code c =? 44)%nat then
              match parse_elements fuel r' with
              | Some (vs, r'') => Some (v :: vs, r'')
              | None => None
              end
            else if (code c =? 93)%nat then Some ([v], r')
            else None
        end
    end.
Proof. reflexivity. Qed.

Lemma parse_members_step fuel acc k r :
  parse_members (S fuel) acc (quote k ++ ":" ++ r)
  = match parse_value fuel r with
    | None => None
    | Some (v, r3) =>
        match skip_ws r3 with
        | EmptyString => None
        | String c3 r4 =>
            if (code c3 =? 44)%nat then parse_members fuel (define k v acc) r4
            else if (code c3 =? 125)%nat then Some (define k v acc, r4)
            else None
        end
    end.
Proof.
  unfold quote. rewrite !append_assoc.
  change (dquote ++ escape k ++ dquote ++ ":" ++ r)
    with (String (ascii_of_nat 34) (escape k ++ dquote ++ ":" ++ r)).
  cbn [parse_members skip_ws]. change (is_ws (ascii_of_nat 34)) with false. cbv iota.
  change (negb (code (ascii_of_nat 34) =? 34)%nat) with false. cbv iota.
  rewrite string_body_escape. reflexivity.
Qed.

Lemma ser_head v : exists c t, ser v = String c t /\ opens c.
Proof.
  destruct v as [| |[|]|z|s|items|props];
    try (eexists _, _; split; [reflexivity|repeat split]).
  destruct (dec_head z) as [c [t [E H]]]. exists c, t. split; [exact E|].
  destruct H as [H| ->]; [|repeat split].
  destruct c as [[|] [|] [|] [|] [|] [|] [|] [|]]; try discriminate H; repeat split.
Qed.

Lemma join_cons sep x y l : join sep (x :: y :: l) = x ++ sep ++ join sep (y :: l).
Proof. reflexivity. Qed.

Lemma joined_head sep x l r :
  (exists c t, x = String c t /\ opens c) ->
  exists c u, join sep (x :: l) ++ r = String c u /\ opens c.
Proof.
  intros [c [t [-> Ho]]]. exists c.
  destruct l as [|y l]; [exists (t ++ r)|exists ((t ++ sep ++ join sep (y :: l)) ++ r)];
    split; auto.
Qed.

Lemma members_cons k x l :
  x <> Undefined -> members ((k, x) :: l) = (quote k ++ ":" ++ ser x) :: members l.
Proof. destruct x; intros H; try reflexivity. destruct H; reflexivity. Qed.

Lemma defined_cons k x l acc :
  x <> Undefined -> defined ((k, x) :: l) acc = defined l (define k (reparsed x) acc).
Proof. destruct x; intros H; try reflexivity. destruct H; reflexivity. Qed.

Lemma defined_of_none l : forall acc, members l = [] -> defined l acc = acc.
Proof.
  induction l as [|[k x] l IH]; intros acc H; [reflexivity|].
  destruct x; try discriminate H; apply IH; exact H.
Qed.

Lemma parse_elements_more fuel s v r :
  parse_value fuel s = Some (v, "," ++ r) ->
  parse_elements (S fuel) s
  = match parse_elements fuel r with
    | Some (vs, r') => Some (v :: vs, r')
    | None => None
    end.
Proof. intros H. rewrite parse_elements_step, H. reflexivity. Qed.

Lemma parse_elements_last fuel s v r :
  parse_value fuel s = Some (v, "]" ++ r) -> parse_elements (S fuel) s = Some ([v], r).
Proof. intros H. rewrite parse_elements_step, H. reflexivity. Qed.

Lemma parse_members_more fuel acc k r v r' :
  parse_value fuel r = Some (v, "," ++ r') ->
  parse_members (S fuel) acc (quote k ++ ":" ++ r) = parse_members fuel (define k v acc) r'.
Proof. intros H. rewrite parse_members_step, H. reflexivity. Qed.

Lemma parse_members_last fuel acc k r v r' :
  parse_value fuel r = Some (v, "}" ++ r') ->
  parse_members (S fuel) acc (quote k ++ ":" ++ r) = Some (define k v acc, r').
Proof. intros H. rewrite parse_members_step, H. reflexivity. Qed.

Ltac measured H :=
  rewrite ?length_append in H;
  repeat match type of H with
         | context [String.length (String ?c ?s)] =>
             change (String.length (String c s)) with (S (String.length s)) in H
         | context [String.length EmptyString] =>
             change (String.length EmptyString) with 0%nat in H
         end.

Section RoundTrip.

(** The text of [v], followed by a delimiter or by nothing, is read back
    as [reparsed v]. *)
Let read_back (v : value) : Prop :=
  forall rest fuel,
    delimited rest -> (String.length (ser v) <= fuel)%nat ->
    parse_value fuel (ser v ++ rest) = Some (reparsed v, rest).

Lemma parse_elements_ser items :
  Forall read_back items ->
  items <> [] ->
  forall rest fuel,
    (String.length (join "," (map ser items)) < fuel)%nat ->
    parse_elements fuel (join "," (map ser items) ++ "]" ++ rest)
    = Some (map reparsed items, rest).
Proof.
  induction 1 as [|x items Hx _ IH]; intros Hne rest fuel Hfuel; [destruct Hne; reflexivity|].
  destruct fuel as [|fuel]; [lia|].
  destruct items as [|y items].
  - cbn [map join] in *. apply parse_elements_last, Hx; [simpl; auto|lia].
  - cbn [map] in *. rewrite join_cons in *. measured Hfuel.
    rewrite !append_assoc.
    erewrite parse_elements_more; [|apply Hx; [simpl; auto|lia]].
    rewrite (IH ltac:(discriminate) rest fuel); [reflexivity|lia].
Qed.

Lemma parse_members_ser props :
  Forall (fun kv => read_back (snd kv)) props ->
  members props <> [] ->
  forall acc rest fuel,
    (String.length (join "," (members props)) < fuel)%nat ->
    parse_members fuel acc (join "," (members props) ++ "}" ++ rest)
    = Some (defined props acc, rest).
Proof.
  induction 1 as [|[k x] props Hx _ IH]; intros Hne acc rest fuel Hfuel;
    [destruct Hne; reflexivity|].
  cbn [snd] in Hx.
  assert (Hcase : x = Undefined \/ x <> Undefined)
    by (destruct x; [left; reflexivity|right; discriminate ..]).
  destruct Hcase as [->|Hdef]; [apply IH; assumption|].
  rewrite members_cons in * by exact Hdef. rewrite defined_cons by exact Hdef.
  destruct fuel as [|fuel]; [lia|].
  destruct (members props) as [|m ms] eqn:Hm.
  - cbn [join] in *. rewrite !append_assoc.
    measured Hfuel.
    rewrite (defined_of_none props _ Hm).
    apply parse_members_last, Hx; [simpl; auto|lia].
  - rewrite join_cons in *. rewrite !append_assoc.
    measured Hfuel.
    erewrite parse_members_more; [|apply Hx; [simpl; auto|lia]].
    apply IH; [discriminate|]. lia.
Qed.

Lemma parse_value_ser v : read_back v.
Proof.
  induction v as [| |b|z|s|items IH|props IH] using value_nested_ind;
    intros rest fuel Hrest Hfuel.
  - destruct fuel as [|fuel]; [simpl in Hfuel; lia|reflexivity].
  - destruct fuel as [|fuel]; [simpl in Hfuel; lia|reflexivity].
  - destruct fuel as [|fuel]; [destruct b; simpl in Hfuel; lia|destruct b; reflexivity].
  - destruct (dec_head z) as [c [t [E H]]].
    destruct fuel as [|fuel]; [cbn [ser] in Hfuel; rewrite E in Hfuel; simpl in Hfuel; lia|].
    cbn [ser reparsed]. pose proof (number_dec z rest Hrest) as Hn.
    rewrite E in *. cbn [append] in *. rewrite parse_value_number by exact H.
    rewrite Hn. reflexivity.
  - destruct fuel as [|fuel]; [simpl in Hfuel; lia|].
    cbn [ser reparsed]. unfold quote. rewrite !append_assoc.
    rewrite parse_value_string, string_body_escape. reflexivity.
  - rewrite ser_arr in *. destruct fuel as [|fuel]; [simpl in Hfuel; lia|].
    rewrite !append_assoc. cbn [reparsed].
    destruct items as [|x items]; [reflexivity|].
    destruct (joined_head "," (ser x) (map ser items) ("]" ++ rest) (ser_head x))
      as [c [u [E [Hws [H93 _]]]]].
    rewrite parse_value_array. cbn [map] in *. rewrite E. cbn [skip_ws].
    rewrite Hws, H93, <- E.
    pose proof (parse_elements_ser (x :: items) IH ltac:(discriminate) rest fuel) as He.
    cbn [map] in He. rewrite He; [reflexivity|].
    measured Hfuel. lia.
  - rewrite ser_obj in *. rewrite reparsed_obj. destruct fuel as [|fuel]; [simpl in Hfuel; lia|].
    rewrite !append_assoc.
    destruct (members props) as [|m ms] eqn:Hm.
    + rewrite (defined_of_none props [] Hm). reflexivity.
    + assert (Hhead : exists c u, join "," (m :: ms) ++ "}" ++ rest = String c u /\ opens c).
      { apply joined_head. clear - Hm.
        induction props as [|[k x] props IHp]; [discriminate|].
        destruct x; try (apply IHp; exact Hm);
          cbn in Hm; injection Hm as <- _; eexists _, _; (split; [reflexivity|repeat split]). }
      destruct Hhead as [c [u [E [Hws [_ [H125 _]]]]]].
      rewrite parse_value_object. rewrite E. cbn [skip_ws].
      rewrite Hws, H125, <- E, <- Hm.
      rewrite (parse_members_ser props IH); [reflexivity|rewrite Hm; discriminate|].
      rewrite Hm. measured Hfuel. lia.
Qed.

End RoundTrip.

(** [JSON.parse(JSON.stringify(v))] is [reparsed v]. *)
Lemma parse_ser v : parse (ser v) = Some (reparsed v).
Proof.
  unfold parse.
  pose proof (parse_value_ser v EmptyString (2 * String.length (ser v) + 2) I) as H.
  assert (E : ser v ++ EmptyString = ser v).
  { generalize (ser v). intros s. induction s as [|c s IH]; simpl; [|rewrite IH]; reflexivity. }
  rewrite E in H. rewrite H by lia. reflexivity.
Qed.

End JsonFacts.

(* ================================================================== *)
(** ** The message of a refused request                               *)
(* ================================================================== *)

Import Examples Traces TraceFacts HomeTraceFacts Reparse JsonFacts.

Lemma final_message_structured (m : string) (response : Response) (details : value) :
  final_message (structured_error (Str m) response details)
  = m ++ " (Status: " ++ dec (status response) ++ ")".
Proof.
  unfold final_message, structured_error, JSON.stringify.
  rewrite parse_ser, reparsed_obj.
  destruct details; reflexivity.
Qed.

(** The message a response that is not OK is reported with: the text
    under [error.message] of its body, or the default text. *)
Lemma rejection_message (env : Env) (response : Response) (errorData e : value) :
  json response = Some errorData ->
  get errorData "error" = Normal e ->
  (forall m, get_opt e "message" = Str m -> m <> EmptyString ->
     final_message (rejection env response)
     = m ++ " (Status: " ++ dec (status response) ++ ")")
  /\ (truthy (get_opt e "message") = false ->
     final_message (rejection env response)
     = "API request failed with status " ++ dec (status response)
       ++ " (Status: " ++ dec (status response) ++ ")").
Proof.
  intros Hjson He. unfold rejection, error_envelope. rewrite Hjson, He. cbn [and_then].
  split.
  - intros m Hm Hne. rewrite Hm. cbn [truthy].
    destruct (String.eqb_spec m EmptyString) as [E|_]; [destruct (Hne E)|].
    cbn [negb fst snd]. apply final_message_structured.
  - intros Hfalsy. rewrite Hfalsy. cbn [fst snd].
    rewrite final_message_structured, append_assoc. reflexivity.
Qed.

Lemma imageOf_refused (env : Env) (response : Response) :
  ok response = false -> imageOf env (Normal response) = Throw (rejection env response).
Proof. intros H. unfold imageOf. rewrite H. reflexivity. Qed.

(** X15.  When the endpoint answers a request of [generateImages] with
    a status that is not OK and a JSON body that is not [null], the
    call fails with the text under [error.message] of that body,
    followed by [ (Status: <status>)]; when that text is missing or
    falsy, with [API request failed with status <status>], followed by
    the same suffix.  The body itself never shows in the message. *)
Theorem a_refused_request_is_reported_with_its_status
  (env : Env) (prompt url : string) (n : Z) (size quality : string) (s : State)
  (response : Response) (errorData e : value) :
  let o := generateImages env prompt url n size quality s in
  In (Normal response) (answers (log o)) ->
  ok response = false ->
  json response = Some errorData ->
  get errorData "error" = Normal e ->
  (forall m, get_opt e "message" = Str m -> m <> EmptyString ->
     result o = Throw (JsError (m ++ " (Status: " ++ dec (status response) ++ ")")))
  /\ (truthy (get_opt e "message") = false ->
      result o = Throw (JsError ("API request failed with status " ++ dec (status response)
                                 ++ " (Status: " ++ dec (status response) ++ ")"))).
Proof.
  cbv zeta. intros Hin Hok Hjson He.
  destruct (generateImages_failure env prompt url n size quality s
              (Normal response) (rejection env response) Hin (imageOf_refused env response Hok))
    as [Hr _].
  destruct (rejection_message env response errorData e Hjson He) as [Hgiven Hdefault].
  split.
  - intros m Hm Hne. rewrite Hr, (Hgiven m Hm Hne). reflexivity.
  - intros Hfalsy. rewrite Hr, (Hdefault Hfalsy). reflexivity.
Qed.

Lemma a_refused_request_is_reported_with_its_status_witness :
  result (generateImages (world_failing_from 6 (Normal rate_limited))
            "An ad" "iVBORw0KGgo=" 3 "1024x1024" "hd" initial)
  = Throw (JsError "Rate limit reached (Status: 429)").
Proof.
  assert (Hin : In (Normal rate_limited)
                  (answers (log (generateImages (world_failing_from 6 (Normal rate_limited))
                                   "An ad" "iVBORw0KGgo=" 3 "1024x1024" "hd" initial))))
    by (vm_compute; auto).
  destruct (a_refused_request_is_reported_with_its_status
              (world_failing_from 6 (Normal rate_limited))
              "An ad" "iVBORw0KGgo=" 3 "1024x1024" "hd" initial rate_limited
              (Obj [("error", Obj [("message", Str "Rate limit reached");
                                   ("type", Str "requests")])])
              (Obj [("message", Str "Rate limit reached"); ("type", Str "requests")])
              Hin eq_refl eq_refl eq_refl) as [Hgiven _].
  exact (Hgiven "Rate limit reached" eq_refl ltac:(discriminate)).
Defined.

(** X16.  When the endpoint answers a request of a top-level
    generation with a status that is not OK and a JSON body that is not
    [null], the run ends with the three fallback ads and
    [generationError] is the text under [error.message] of that body
    followed by [ (Status: <status>)], or, when that text is missing or
    falsy, [API request failed with status <status>] with the same
    suffix. *)
Theorem a_refusal_is_shown_with_its_status
  (env : Env) (description : string) (image : File) (s : State)
  (response : Response) (errorData e : value) :
  let o := generateAdVariations env description image s in
  In (Normal response) (answers (log o)) ->
  ok response = false ->
  json response = Some errorData ->
  get errorData "error" = Normal e ->
  generatedAds (ui (final o)) = fallbackAds
  /\ (forall m, get_opt e "message" = Str m -> m <> EmptyString ->
        generationError (ui (final o))
        = Some (m ++ " (Status: " ++ dec (status response) ++ ")"))
  /\ (truthy (get_opt e "message") = false ->
        generationError (ui (final o))
        = Some ("API request failed with status " ++ dec (status response)
                ++ " (Status: " ++ dec (status response) ++ ")")).
Proof.
  cbv zeta. intros Hin Hok Hjson He.
  destruct (generateAdVariations_failure env description image s
              (Normal response) (rejection env response) Hin (imageOf_refused env response Hok))
    as [Herr [Hads _]].
  destruct (rejection_message env response errorData e Hjson He) as [Hgiven Hdefault].
  split; [exact Hads|]. split.
  - intros m Hm Hne. rewrite Herr, (Hgiven m Hm Hne). reflexivity.
  - intros Hfalsy. rewrite Herr, (Hdefault Hfalsy). reflexivity.
Qed.

Lemma a_refusal_is_shown_with_its_status_witness :
  generatedAds (ui (final (generateAdVariations (world_failing_from 6 (Normal rate_limited))
                             mug photo initial)))
  = fallbackAds
  /\ generationError
       (ui (final (generateAdVariations (world_failing_from 6 (Normal rate_limited))
                     mug photo initial)))
     = Some "Rate limit reached (Status: 429)".
Proof.
  assert (Hin : In (Normal rate_limited)
                  (answers (log (generateAdVariations
                                   (world_failing_from 6 (Normal rate_limited))
                                   mug photo initial))))
    by (vm_compute; auto).
  destruct (a_refusal_is_shown_with_its_status
              (world_failing_from 6 (Normal rate_limited)) mug photo initial rate_limited
              (Obj [("error", Obj [("message", Str "Rate limit reached");
                                   ("type", Str "requests")])])
              (Obj [("message", Str "Rate limit reached"); ("type", Str "requests")])
              Hin eq_refl eq_refl eq_refl) as [Hads [Hgiven _]].
  split; [exact Hads|].
  exact (Hgiven "Rate limit reached" eq_refl ltac:(discriminate)).
Defined.

(** A body without [error]: the default text, with the status twice. *)
Example a_refusal_without_a_message :
  final_message (rejection (world key config_full image_url wall_clock)
                   {| status := 503; json := Some (Obj [("detail", Str "overloaded")]) |})
  = "API request failed with status 503 (Status: 503)".
Proof. vm_compute. reflexivity. Qed.

(* ================================================================== *)
(** ** Properties of the gallery                                      *)
(* ================================================================== *)

Import GenerationGallery.

Lemma own_rating_assign_same adId rating h : own_rating adId (assign adId rating h) = Some rating.
Proof.
  induction h as [|[k r] h IH]; simpl.
  - rewrite String.eqb_refl. reflexivity.
  - destruct (String.eqb k adId) eqn:E; simpl; rewrite E; auto.
Qed.

Lemma own_rating_assign_other adId other rating h :
  other <> adId -> own_rating other (assign adId rating h) = own_rating other h.
Proof.
  intros Hne. induction h as [|[k r] h IH]; simpl.
  - destruct (String.eqb_spec adId other); [congruence|reflexivity].
  - destruct (String.eqb_spec k adId) as [E|E]; simpl.
    + subst k. destruct (String.eqb_spec adId other); [congruence|reflexivity].
    + rewrite IH. reflexivity.
Qed.

Lemma own_rating_without_same adId h : own_rating adId (without adId h) = None.
Proof.
  unfold without. induction h as [|[k r] h IH]; simpl; [reflexivity|].
  destruct (String.eqb k adId) eqn:E; simpl; [exact IH|]. rewrite E. exact IH.
Qed.

Lemma own_rating_without_other adId other h :
  other <> adId -> own_rating other (without adId h) = own_rating other h.
Proof.
  intros Hne. unfold without. induction h as [|[k r] h IH]; simpl; [reflexivity|].
  destruct (String.eqb_spec k adId) as [E|E]; simpl.
  - subst k. destruct (String.eqb_spec adId other); [congruence|exact IH].
  - rewrite IH. reflexivity.
Qed.

(** X17.  The hovered ratings of the gallery behave as a map from ad
    ids to ratings: hovering a star of an ad records that rating for the
    ad and for no other; leaving the ad removes its entry, and no other;
    leaving after hovering is the same as leaving. *)
Theorem hovered_ratings_are_kept_by_ad
  (adId other : string) (rating : Z) (h : HoveredRatings) :
  read (handleRatingHover adId rating h) adId = Hovered rating
  /\ (other <> adId -> read (handleRatingHover adId rating h) other = read h other)
  /\ read (handleRatingLeave adId h) adId = (if inherited adId then Inherited else Missing)
  /\ (other <> adId -> read (handleRatingLeave adId h) other = read h other)
  /\ read (handleRatingLeave adId (handleRatingHover adId rating h)) other
     = read (handleRatingLeave adId h) other.
Proof.
  unfold read, handleRatingHover, handleRatingLeave.
  split; [rewrite own_rating_assign_same; reflexivity|].
  split; [intros H; rewrite own_rating_assign_other by exact H; reflexivity|].
  split; [rewrite own_rating_without_same; reflexivity|].
  split; [intros H; rewrite own_rating_without_other by exact H; reflexivity|].
  destruct (string_dec other adId) as [->|Hne].
  - rewrite !own_rating_without_same. reflexivity.
  - rewrite !own_rating_without_other by exact Hne.
    rewrite own_rating_assign_other by exact Hne. reflexivity.
Qed.

(** The rating a card has on show. *)
Lemma filled_up_to r (test : Z -> bool) :
  (forall star, In star stars -> test star = (star <=? r)%Z) ->
  filter test stars = firstn (Z.to_nat r) stars.
Proof.
  intros H. unfold stars in *. cbn [filter].
  rewrite !H by (simpl; tauto).
  destruct (Z.leb_spec 1 r) as [H1|H1].
  2:{ replace (Z.to_nat r) with 0%nat by lia.
      destruct (Z.leb_spec 2 r); [lia|]. destruct (Z.leb_spec 3 r); [lia|].
      destruct (Z.leb_spec 4 r); [lia|]. destruct (Z.leb_spec 5 r); [lia|]. reflexivity. }
  destruct (Z.leb_spec 2 r) as [H2|H2].
  2:{ replace (Z.to_nat r) with 1%nat by lia.
      destruct (Z.leb_spec 3 r); [lia|].
      destruct (Z.leb_spec 4 r); [lia|]. destruct (Z.leb_spec 5 r); [lia|]. reflexivity. }
  destruct (Z.leb_spec 3 r) as [H3|H3].
  2:{ replace (Z.to_nat r) with 2%nat by lia.
      destruct (Z.leb_spec 4 r); [lia|]. destruct (Z.leb_spec 5 r); [lia|]. reflexivity. }
  destruct (Z.leb_spec 4 r) as [H4|H4].
  2:{ replace (Z.to_nat r) with 3%nat by lia.
      destruct (Z.leb_spec 5 r); [lia|]. reflexivity. }
  destruct (Z.leb_spec 5 r) as [H5|H5].
  2:{ replace (Z.to_nat r) with 4%nat by lia. reflexivity. }
  symmetry. apply firstn_all2. simpl. lia.
Qed.

Lemma filledStars_shown (h : HoveredRatings) (ad : GeneratedAd) :
  filledStars h ad
  = firstn (Z.to_nat match read h (id ad) with
                     | Hovered r => r
                     | Inherited => 0%Z
                     | Missing => match rating ad with Some r => r | None => 0%Z end
                     end) stars.
Proof.
  unfold filledStars. apply filled_up_to. intros star Hstar. unfold starFilled, rating_or_zero.
  destruct (read h (id ad)) as [r| |]; [reflexivity| |].
  - unfold stars in Hstar. symmetry. apply Z.leb_gt. simpl in Hstar. lia.
  - destruct (rating ad) as [r|]; [|reflexivity].
    destruct (Z.eqb_spec r 0); [subst r|]; reflexivity.
Qed.

(** X18.  The stars painted on a card are the first [r] of the five,
    where [r] is the rating under the pointer while a star of the card is
    hovered, and the stored rating of the ad (none counts as 0)
    otherwise: none for a rating below 1, all five for a rating of 5 or
    more.  The stored rating does not show while the card is hovered.  An
    ad whose id is the name of a method every object inherits never shows
    a star unless it is hovered. *)
Theorem the_stars_painted_are_the_first_of_five (h : HoveredRatings) (ad : GeneratedAd) :
  filledStars h ad
  = firstn (Z.to_nat match read h (id ad) with
                     | Hovered r => r
                     | Inherited => 0%Z
                     | Missing => match rating ad with Some r => r | None => 0%Z end
                     end) stars
  /\ (List.length (filledStars h ad) <= 5)%nat.
Proof.
  split; [apply filledStars_shown|].
  rewrite filledStars_shown, length_firstn. simpl. lia.
Qed.

Lemma in_mapAd_rated target r ads ad :
  In ad (mapAd target (rated r) ads) -> id ad = target -> rating ad = Some r.
Proof.
  unfold mapAd. intros Hin Hid. apply in_map_iff in Hin. destruct Hin as [x [Hx _]].
  destruct (String.eqb_spec (id x) target) as [E|E]; subst ad; [reflexivity|].
  contradiction.
Qed.

(** X19.  A click on the star [k] of a card stores the rating through
    [handleRateAd], and the card then shows exactly the first [k] stars -
    while the pointer is still on that star and after it has left.  After
    a regeneration the card of the regenerated ad shows no star once the
    pointer has left. *)
Theorem the_stars_follow_the_stored_rating
  (env : Env) (regenerationPromptUrl : option string)
  (target : string) (star : Z) (s : State) (h : HoveredRatings) (ad : GeneratedAd) :
  (In ad (generatedAds (ui (final (handleRatingClick handleRateAd target star s)))) ->
   id ad = target ->
   read h target = Missing \/ read h target = Hovered star ->
   filledStars h ad = firstn (Z.to_nat star) stars)
  /\ (In ad (generatedAds
               (ui (final (handleRegenerateAd env regenerationPromptUrl target s)))) ->
      id ad = target ->
      read h target = Missing ->
      filledStars h ad = []).
Proof.
  split.
  - intros Hin Hid Hread. rewrite filledStars_shown, Hid.
    unfold handleRatingClick, handleRateAd in Hin. simpl in Hin.
    rewrite (in_mapAd_rated _ _ _ _ Hin Hid).
    destruct Hread as [-> | ->]; reflexivity.
  - intros Hin Hid Hread. rewrite filledStars_shown, Hid, Hread.
    pose proof (handleRegenerateAd_post env regenerationPromptUrl target s) as H.
    unfold post in H. destruct H as [_ [[Habsent [Hs _]]|[_ [ads [Hreg Hu]]]]].
    + rewrite Hs in Hin. exfalso. apply Habsent. rewrite <- Hid. apply in_map. exact Hin.
    + rewrite Hu in Hin. simpl in Hin.
      destruct (regenerated_settled _ _ _ Hreg ad Hin Hid) as [-> _]. reflexivity.
Qed.

Example five_stars_after_a_click :
  map (filledStars [])
      (generatedAds
         (ui (final (handleRatingClick handleRateAd
                       "gen-1714000025500-ecommerce-style-ad" 5 (showing rated_batch)))))
  = [[1; 2; 3; 4]; [1; 2]; [1; 2; 3; 4; 5]]%Z
  /\ map (filledStars [("gen-1714000010500-creative-concept-ad", 1%Z)])
         (generatedAds (ui (showing rated_batch)))
     = [[1]; [1; 2]; []]%Z.
Proof. split; reflexivity. Qed.

(** *** The buttons of a card *)

Lemma made_enabled env ads pairs :
  Forall2 (fun ad at_image => made_of env (fst at_image) (snd at_image) ad) ads pairs ->
  Forall (fun ad => buttonsDisabled ad = false) ads.
Proof.
  induction 1 as [|ad p ads pairs [_ [_ [_ Hflag]]] _ IH]; constructor; [|exact IH].
  unfold buttonsDisabled. rewrite Hflag. reflexivity.
Qed.

Lemma regenerated_enabled target ads ads' :
  regenerated target ads ads' ->
  Forall (fun ad => buttonsDisabled ad = false) ads ->
  Forall (fun ad => buttonsDisabled ad = false) ads'.
Proof.
  induction 1 as [|ad ad' ads ads' H _ IH]; intros Hall; [constructor|].
  inversion Hall as [|x l Hx Hl]; subst. constructor; [|auto].
  destruct (String.eqb (id ad) target); [destruct H as [image ->]; reflexivity|].
  subst ad'. exact Hx.
Qed.

Lemma perform_enabled env regenerationPromptUrl a s :
  Forall (fun ad => buttonsDisabled ad = false) (generatedAds (ui s)) ->
  Forall (fun ad => buttonsDisabled ad = false)
    (generatedAds (ui (final (perform env regenerationPromptUrl a s)))).
Proof.
  intros Hall. destruct a as [description image|target r|target]; cbn [perform].
  - unfold handleInputSubmit.
    rewrite final_after_update.
    pose proof (generateAdVariations_post env description image
                  {| tick := tick s; ui := withInput description image (ui s) |}) as H.
    unfold post in H. destruct H as [_ [Hearly|Hbatch]].
    + destruct Hearly as [e [value [m [own [k [Hu _]]]]]]. rewrite Hu. exact Hall.
    + destruct Hbatch as [s0 [l0 [basePrompt [imageDataUrl [adTypes [own Hb]]]]]].
      cbv zeta in Hb. destruct Hb as [_ [_ [_ [_ [_ [Hu _]]]]]]. rewrite Hu.
      pose proof (generateAds_trace env basePrompt imageDataUrl adTypes [] s0) as Ht.
      unfold post in Ht. destruct Ht as [_ [_ [_ Ht]]].
      destruct (result (generateAds env basePrompt imageDataUrl adTypes [] s0)) as [ads|e].
      * destruct Ht as [new [images [-> [_ [Hmade _]]]]]. simpl.
        eapply made_enabled. exact Hmade.
      * simpl. repeat constructor.
  - simpl. unfold mapAd. apply Forall_forall. intros ad Hin.
    apply in_map_iff in Hin. destruct Hin as [x [<- Hx]].
    rewrite Forall_forall in Hall.
    destruct (String.eqb (id x) target); [exact (Hall x Hx)|exact (Hall x Hx)].
  - pose proof (handleRegenerateAd_post env regenerationPromptUrl target s) as H.
    unfold post in H. destruct H as [_ [[_ [Hs _]]|[_ [ads [Hreg Hu]]]]].
    + rewrite Hs. exact Hall.
    + rewrite Hu. simpl. eapply regenerated_enabled; eassumption.
Qed.

(** X20.  No card of the gallery is left with its spinner on and its
    buttons disabled: if no ad is marked as regenerating, none is after
    any sequence of submissions, ratings and regenerations - whether the
    regenerations succeed, fall back to the placeholder or find no ad. *)
Theorem no_card_is_left_disabled
  (env : Env) (regenerationPromptUrl : option string) (actions : list action) (s : State) :
  Forall (fun ad => buttonsDisabled ad = false) (generatedAds (ui s)) ->
  Forall (fun ad => buttonsDisabled ad = false)
    (generatedAds (ui (run env regenerationPromptUrl actions s))).
Proof.
  revert s. induction actions as [|a rest IH]; intros s Hall; [exact Hall|].
  cbn [run]. apply IH. apply perform_enabled. exact Hall.
Qed.

Lemma no_card_is_left_disabled_witness :
  Forall (fun ad => buttonsDisabled ad = false) (generatedAds (ui initial))
  /\ Forall (fun ad => buttonsDisabled ad = false)
       (generatedAds
          (ui (run (world key unreachable gateway_error wall_clock) (Some gistUrl)
                 [Submit mug photo; Regenerate "2"; Rate "2" 4; Regenerate "7"] initial)))
  /\ List.length
       (generatedAds
          (ui (run (world key unreachable gateway_error wall_clock) (Some gistUrl)
                 [Submit mug photo; Regenerate "2"; Rate "2" 4; Regenerate "7"] initial)))
     = 3%nat.
Proof.
  assert (H : Forall (fun ad => buttonsDisabled ad = false) (generatedAds (ui initial)))
    by constructor.
  split; [exact H|]. split; [|vm_compute; reflexivity].
  exact (no_card_is_left_disabled (world key unreachable gateway_error wall_clock)
           (Some gistUrl) [Submit mug photo; Regenerate "2"; Rate "2" 4; Regenerate "7"]
           initial H).
Defined.

(* ================================================================== *)
(** ** Properties of the input form                                   *)
(* ================================================================== *)

Import InputSection.

Lemma handle_keeps_valid e st :
  match image st with Some f => acceptable f = true | None => True end ->
  match image (fst (handle e st)) with Some f => acceptable f = true | None => True end
  /\ match snd (handle e st) with
     | Some call => trim (fst call) <> EmptyString /\ acceptable (snd call) = true
     | None => True
     end.
Proof.
  intros Hst. destruct e as [acceptedFiles|text|]; cbn [handle fst snd].
  - split; [|exact I]. unfold onDrop.
    destruct acceptedFiles as [|f rest]; [exact Hst|].
    destruct (matches (file_type f) "image/png") eqn:E1;
      destruct (matches (file_type f) "image/jpeg") eqn:E2;
      destruct (matches (file_type f) "image/jpg") eqn:E3;
      cbn [negb andb];
      try exact Hst;
      (destruct (sizeLimit <? file_size f)%Z eqn:Es; [exact Hst|];
       cbn [snd setImage image]; unfold acceptable; rewrite E1, E2, E3;
       apply Z.ltb_ge in Es; apply Z.leb_le in Es; rewrite Es; reflexivity).
  - split; [exact Hst|exact I].
  - unfold handleSubmit.
    destruct (String.eqb_spec (description st) EmptyString) as [Hd|Hd];
      [split; [exact Hst|exact I]|].
    destruct (String.eqb_spec (trim (description st)) EmptyString) as [Ht|Ht];
      cbn [orb]; [split; [exact Hst|exact I]|].
    destruct (image st) as [f|] eqn:Hi; cbn [fst snd].
    + rewrite Hi. split; [exact Hst|]. split; [exact Ht|exact Hst].
    + cbn [setError image]. rewrite Hi. split; exact I.
Qed.

Lemma play_keeps_valid events : forall st,
  match image st with Some f => acceptable f = true | None => True end ->
  match image (fst (play events st)) with Some f => acceptable f = true | None => True end
  /\ Forall (fun call => trim (fst call) <> EmptyString /\ acceptable (snd call) = true)
       (snd (play events st)).
Proof.
  induction events as [|e rest IH]; intros st Hst; cbn [play].
  - split; [exact Hst|constructor].
  - pose proof (handle_keeps_valid e st Hst) as [H1 H2].
    destruct (handle e st) as [st1 call]. cbn [fst snd] in H1, H2.
    destruct (IH st1 H1) as [I1 I2].
    destruct (play rest st1) as [st2 calls]. cbn [fst snd] in *.
    split; [exact I1|]. destruct call; [constructor; assumption|exact I2].
Qed.

(** X21.  Whatever the user does with the input form - dropping files,
    typing, pressing the button, in any order - every call of [onSubmit]
    carries a description with something other than white space in it and
    an image that passed the check of [onDrop]: its type contains
    [image/png], [image/jpeg] or [image/jpg] and it has at most 15 MB.
    The image the form holds has always passed that check. *)
Theorem only_checked_inputs_are_submitted (events : list event) :
  Forall (fun call => trim (fst call) <> EmptyString
                      /\ (matches (file_type (snd call)) "image/png"
                          || matches (file_type (snd call)) "image/jpeg"
                          || matches (file_type (snd call)) "image/jpg") = true
                      /\ (file_size (snd call) <= 15 * 1024 * 1024)%Z)
    (snd (play events empty))
  /\ match image (fst (play events empty)) with
     | Some f => acceptable f = true
     | None => True
     end.
Proof.
  destruct (play_keeps_valid events empty I) as [H1 H2]. split; [|exact H1].
  eapply Forall_impl; [|exact H2]. cbv beta. intros call [Ht Ha].
  split; [exact Ht|]. unfold acceptable in Ha. apply andb_prop in Ha. destruct Ha as [Hm Hs].
  split; [exact Hm|]. apply Z.leb_le in Hs. exact Hs.
Qed.

Example a_session_with_the_form :
  play [ Press;
         Type_ "   ";
         Drop [ {| file := "mug.gif"; file_type := "image/gif"; file_size := 1000 |} ];
         Press;
         Type_ "Blue ceramic mug";
         Press;
         Drop [ {| file := "mug.png"; file_type := "image/png"; file_size := 2000000 |} ];
         Drop [ {| file := "huge.jpg"; file_type := "image/jpeg"; file_size := 16000000 |} ];
         Press ] empty
  = ({| description := "Blue ceramic mug";
        image := Some {| file := "mug.png"; file_type := "image/png";
                         file_size := 2000000 |};
        error := Some "Image size must be less than 15MB" |},
     [("Blue ceramic mug",
       {| file := "mug.png"; file_type := "image/png"; file_size := 2000000 |})]).
Proof. vm_compute. reflexivity. Qed.

(** X22.  A drop the form refuses - an empty list of files, a file of
    another type, a file above 15 MB - never takes away the image
    accepted before, nor the description: a press of the button after it
    submits exactly what a press before it would have submitted.  With an
    empty list the callback throws a TypeError (it reads [type] of
    [undefined]) and leaves no error message; with a refused file it
    returns and leaves one. *)
Theorem a_refused_drop_keeps_the_image (acceptedFiles : list Dropped) (st : Form) :
  match acceptedFiles with
  | [] => True
  | f :: _ => acceptable f = false
  end ->
  let after := snd (onDrop acceptedFiles st) in
  image after = image st
  /\ description after = description st
  /\ snd (handleSubmit after) = snd (handleSubmit st)
  /\ match acceptedFiles with
     | [] => fst (onDrop acceptedFiles st)
             = Throw (JsError "Cannot read properties of undefined (reading 'type')")
             /\ error after = None
     | _ :: _ => fst (onDrop acceptedFiles st) = Normal tt /\ error after <> None
     end.
Proof.
  intros Hrefused. cbv zeta.
  assert (Hsame : forall e,
             snd (handleSubmit (setError e (setError None st))) = snd (handleSubmit st)).
  { intros e. unfold handleSubmit. cbn [description image setError].
    destruct (String.eqb (description st) EmptyString
              || String.eqb (trim (description st)) EmptyString); [reflexivity|].
    destruct (image st); reflexivity. }
  destruct acceptedFiles as [|f rest].
  - unfold onDrop. cbn [fst snd].
    split; [reflexivity|]. split; [reflexivity|]. split; [|split; reflexivity].
    unfold handleSubmit. cbn [description image setError].
    destruct (String.eqb (description st) EmptyString
              || String.eqb (trim (description st)) EmptyString); [reflexivity|].
    destruct (image st); reflexivity.
  - unfold onDrop. unfold acceptable in Hrefused.
    destruct (matches (file_type f) "image/png");
      destruct (matches (file_type f) "image/jpeg");
      destruct (matches (file_type f) "image/jpg");
      cbn [negb andb orb] in *;
      try (cbn [fst snd]; split; [reflexivity|]; split; [reflexivity|];
           split; [apply Hsame|]; split; [reflexivity|discriminate]);
      (apply Z.leb_gt in Hrefused; apply Z.ltb_lt in Hrefused; rewrite Hrefused;
       cbn [fst snd]; split; [reflexivity|]; split; [reflexivity|];
       split; [apply Hsame|]; split; [reflexivity|discriminate]).
Qed.

Lemma a_refused_drop_keeps_the_image_witness :
  acceptable {| file := "huge.jpg"; file_type := "image/jpeg"; file_size := 16000000 |} = false
  /\ snd (handleSubmit
            (snd (onDrop
                    [ {| file := "huge.jpg"; file_type := "image/jpeg";
                         file_size := 16000000 |} ]
                    {| description := "Blue ceramic mug";
                       image := Some {| file := "mug.png"; file_type := "image/png";
                                        file_size := 2000000 |};
                       error := None |})))
     = Some ("Blue ceramic mug",
             {| file := "mug.png"; file_type := "image/png"; file_size := 2000000 |}).
Proof.
  assert (H : acceptable {| file := "huge.jpg"; file_type := "image/jpeg";
                            file_size := 16000000 |} = false) by reflexivity.
  split; [exact H|].
  destruct (a_refused_drop_keeps_the_image
              [ {| file := "huge.jpg"; file_type := "image/jpeg"; file_size := 16000000 |} ]
              {| description := "Blue ceramic mug";
                 image := Some {| file := "mug.png"; file_type := "image/png";
                                  file_size := 2000000 |};
                 error := None |} H) as [_ [_ [Hs _]]].
  rewrite Hs. reflexivity.
Defined.

(* ================================================================== *)
(** ** Properties of the two progress bars                            *)
(* ================================================================== *)

Import Animation.

Lemma calls_app k1 : forall k2 p,
  calls (k1 + k2) p = (calls k1 p ++ calls k2 (progressed k1 p))%list.
Proof.
  induction k1 as [|k1 IH]; intros k2 p; [reflexivity|].
  cbn [Nat.add calls progressed]. destruct (callback p) as [next painting]. cbn [fst].
  rewrite IH. reflexivity.
Qed.

Lemma calls_cleared k : calls k maxProgress = repeat Cleared k.
Proof.
  induction k as [|k IH]; [reflexivity|].
  assert (E : callback maxProgress = (maxProgress, Cleared)) by (vm_compute; reflexivity).
  cbn [calls repeat]. rewrite E, IH. reflexivity.
Qed.

(** X23.  The progress animation of a generation, left to itself: its
    interval callback paints 64 values, one every 200 ms, each larger
    than the one before, from 4.75 to exactly 95, and the five messages
    in the order of their thresholds; the 65th call clears the interval
    and every later call would do nothing.  Whatever the value of its
    variable, the callback never paints a value above 95: the last five
    percent are left to the end of the generation. *)
Theorem the_animation_stops_at_95_percent :
  List.length (values (animation 64)) = 64%nat
  /\ increasing (values (animation 64)) = true
  /\ hd S754_nan (values (animation 64)) = scaled 19 (-2)
  /\ last (values (animation 64)) S754_nan = integer 95
  /\ map painted_message (animation 64)
     = (repeat (Some "Uploading your image") 4
        ++ repeat (Some "Doing science") 6
        ++ repeat (Some "Doing quality assessment") 9
        ++ repeat (Some "Almost done...") 16
        ++ repeat (Some "Anytime now...") 29)%list
  /\ (forall k, animation (64 + k) = (animation 64 ++ repeat Cleared k)%list)
  /\ (forall currentProgress v message,
        snd (callback currentProgress) = Painted v message ->
        is_nan v = true \/ ge maxProgress v = true).
Proof.
  split; [vm_compute; reflexivity|].
  split; [vm_compute; reflexivity|].
  split; [vm_compute; reflexivity|].
  split; [vm_compute; reflexivity|].
  split; [vm_compute; reflexivity|].
  split.
  - intros k. unfold animation. rewrite calls_app.
    replace (progressed 64 (integer 0)) with maxProgress by (vm_compute; reflexivity).
    rewrite calls_cleared. reflexivity.
  - intros p v message. unfold callback.
    destruct (ge p maxProgress); [discriminate|]. cbv zeta. cbn [snd].
    intros H. injection H as Hv _. rewrite <- Hv. apply Math_min_bound.
Qed.

Import AnalysisProgress.

Lemma effect_bounds isAnalyzing progress a :
  (0 <= a <= 100)%Z ->
  (a <= effect isAnalyzing progress a <= 100)%Z.
Proof.
  intros H. unfold effect. destruct isAnalyzing; [|lia].
  destruct (a <? progress)%Z; lia.
Qed.

Lemma renders_bounds props : forall a,
  (0 <= a <= 100)%Z -> (a <= renders props a <= 100)%Z.
Proof.
  induction props as [|[isAnalyzing progress] rest IH]; intros a H; cbn [renders]; [lia|].
  pose proof (effect_bounds isAnalyzing progress a H) as He.
  assert (H' : (0 <= effect isAnalyzing progress a <= 100)%Z) by lia.
  specialize (IH _ H'). lia.
Qed.

Lemma renders_app props1 : forall props2 a,
  renders (props1 ++ props2) a = renders props2 (renders props1 a).
Proof.
  induction props1 as [|[b p] rest IH]; intros; cbn [app renders]; auto.
Qed.

Lemma renders_climb progress k : forall a,
  (0 <= a <= 100)%Z ->
  renders (repeat (true, progress) k) a
  = Z.max a (Z.min (a + Z.of_nat k) (Z.min progress 100)).
Proof.
  induction k as [|k IH]; intros a H; cbn [repeat renders]; [lia|].
  pose proof (effect_bounds true progress a H) as He.
  rewrite IH by lia. unfold effect.
  destruct (Z.ltb_spec a progress); lia.
Qed.

(** X24.  The bar of [AnalysisProgress], for integer props: it starts
    at 0 and, whatever props the renders bring, it never goes down and
    never leaves the range from 0 to 100 - also for a [progress] above
    100.  While analysing with a fixed [progress] it gains one percent
    per timeout of 20 ms until it has reached [progress] or 100; once
    [isAnalyzing] is false it is at 100. *)
Theorem the_bar_climbs_to_its_target (props : list (bool * Z)) (progress : Z) (k : nat) :
  (0 <= renders props 0 <= 100)%Z
  /\ (forall isAnalyzing p,
        (renders props 0 <= renders (props ++ [(isAnalyzing, p)]) 0)%Z)
  /\ renders (repeat (true, progress) k) 0
     = Z.max 0 (Z.min (Z.of_nat k) (Z.min progress 100))
  /\ renders (props ++ [(false, progress)]) 0 = 100%Z.
Proof.
  assert (H0 : (0 <= 0 <= 100)%Z) by lia.
  pose proof (renders_bounds props 0 H0) as Hb.
  split; [lia|]. split; [|split].
  - intros isAnalyzing p. rewrite renders_app. cbn [renders].
    apply effect_bounds. lia.
  - rewrite renders_climb by lia. reflexivity.
  - rewrite renders_app. reflexivity.
Qed.

(** X25.  The two chains of tests that draw a step of
    [AnalysisProgress] agree for every integer [currentStep]: a card has
    the check mark exactly when its border is green, the loader exactly
    when its border is the primary one, and its number exactly when its
    border is muted.  The steps before [currentStep] are checked, the
    step [currentStep] itself loads, the later ones are numbered; and the
    closing line shows exactly when all four steps are checked. *)
Theorem the_marks_and_the_borders_agree (currentStep : Z) :
  Forall (fun id =>
            match mark currentStep id, border currentStep id with
            | Checked, Green => (id < currentStep)%Z
            | Loading, Primary => currentStep = id
            | Numbered, Muted => (currentStep < id)%Z
            | _, _ => False
            end) steps
  /\ (complete currentStep = true
      <-> Forall (fun id => mark currentStep id = Checked) steps).
Proof.
  split.
  - apply Forall_forall. intros id _. unfold mark, border.
    destruct (Z.ltb_spec id currentStep); destruct (Z.eqb_spec currentStep id); lia.
  - unfold complete, steps, mark. cbn [List.length Z.of_nat]. split.
    + intros H. apply Z.leb_le in H.
      repeat constructor;
        match goal with
        | |- context [(?a <? ?b)%Z] => destruct (Z.ltb_spec a b); [reflexivity|lia]
        end.
    + intros H. apply Z.leb_le.
      inversion H as [|? ? _ H1]; subst. inversion H1 as [|? ? _ H2]; subst.
      inversion H2 as [|? ? _ H3]; subst. inversion H3 as [|? ? H4 _]; subst.
      destruct (Z.ltb_spec 3 currentStep); [lia|].
      destruct (currentStep =? 3)%Z; discriminate.
Qed.

(* ================================================================== *)
(** ** Properties of the download handler                             *)
(* ================================================================== *)

Import HomeView.

(** Ads that differ in image, rating and flag only. *)
Lemma download_name_kept env target ads ads' :
  Forall2 (fun ad ad' => id ad' = id ad /\ adType ad' = adType ad) ads ads' ->
  option_map download (onDownloadAd env ads' target)
  = option_map download (onDownloadAd env ads target).
Proof.
  unfold onDownloadAd.
  induction 1 as [|ad ad' ads ads' [Hid Htype] _ IH]; [reflexivity|].
  cbn [List.find]. rewrite Hid.
  destruct (String.eqb (id ad) target); [|exact IH].
  cbn [option_map download]. unfold downloadName, slug_or_id. rewrite Htype. reflexivity.
Qed.

Lemma mapAd_same_name target f ads :
  (forall ad, id (f ad) = id ad /\ adType (f ad) = adType ad) ->
  Forall2 (fun ad ad' => id ad' = id ad /\ adType ad' = adType ad) ads (mapAd target f ads).
Proof.
  intros Hf. unfold mapAd. induction ads as [|ad ads IH]; simpl; constructor; [|exact IH].
  destruct (String.eqb (id ad) target); [apply Hf|split; reflexivity].
Qed.

Lemma regenerated_same_name target ads ads' :
  regenerated target ads ads' ->
  Forall2 (fun ad ad' => id ad' = id ad /\ adType ad' = adType ad) ads ads'.
Proof.
  induction 1 as [|ad ad' ads ads' H _ IH]; constructor; [|exact IH].
  destruct (String.eqb (id ad) target); [destruct H as [image ->]|subst ad'];
    split; reflexivity.
Qed.

Lemma find_some_in target (ads : list GeneratedAd) ad :
  List.find (fun x => String.eqb (id x) target) ads = Some ad ->
  In ad ads /\ id ad = target.
Proof.
  intros H. apply find_some in H. destruct H as [Hin He].
  split; [exact Hin|]. apply String.eqb_eq. exact He.
Qed.

(** X26.  The download handler does nothing for an id that is not in
    the batch.  For an ad of the batch it offers the current image of the
    first ad with that id, under the name [ad-variation-], the ad type in
    lower case with dashes for white space, [.png] - or the id in place
    of the ad type when the ad has none or an empty one.  Neither a
    rating nor a regeneration changes the file name of any ad; after a
    regeneration the link of the regenerated ad points at its new
    image. *)
Theorem downloads_follow_the_batch
  (env : Env) (regenerationPromptUrl : option string) (target other : string)
  (r : Z) (s : State) :
  let ads := generatedAds (ui s) in
  let rated_ := generatedAds (ui (final (handleRateAd target r s))) in
  let regenerated_ :=
    generatedAds (ui (final (handleRegenerateAd env regenerationPromptUrl target s))) in
  (onDownloadAd env ads other = None <-> ~ In other (map id ads))
  /\ (forall link, onDownloadAd env ads other = Some link ->
        exists ad, In ad ads /\ id ad = other /\ href link = imageUrl ad
                   /\ download link
                      = "ad-variation-"
                        ++ match adType ad with
                           | Some type =>
                               if String.eqb (replace_spaces_by_dash (toLowerCase env type))
                                    EmptyString
                               then other
                               else replace_spaces_by_dash (toLowerCase env type)
                           | None => other
                           end ++ ".png")
  /\ option_map download (onDownloadAd env rated_ other)
     = option_map download (onDownloadAd env ads other)
  /\ option_map download (onDownloadAd env regenerated_ other)
     = option_map download (onDownloadAd env ads other)
  /\ (forall link, onDownloadAd env regenerated_ target = Some link ->
        exists ad, In ad regenerated_ /\ id ad = target /\ href link = imageUrl ad
                   /\ rating ad = None).
Proof.
  cbv zeta. split; [|split; [|split; [|split]]].
  - unfold onDownloadAd.
    destruct (List.find (fun ad => String.eqb (id ad) other) (generatedAds (ui s)))
      as [ad|] eqn:Hfind.
    + split; [discriminate|]. intros Habsent. apply find_absent in Habsent. congruence.
    + split; [intros _; apply find_absent; exact Hfind|reflexivity].
  - intros link. unfold onDownloadAd.
    destruct (List.find (fun ad => String.eqb (id ad) other) (generatedAds (ui s)))
      as [ad|] eqn:Hfind; [|discriminate].
    intros H. injection H as <-. destruct (find_some_in _ _ _ Hfind) as [Hin Hid].
    exists ad. repeat split; assumption.
  - apply download_name_kept. simpl. apply mapAd_same_name. intros ad. split; reflexivity.
  - apply download_name_kept.
    pose proof (handleRegenerateAd_post env regenerationPromptUrl target s) as H.
    unfold post in H. destruct H as [_ [[_ [Hs _]]|[_ [ads [Hreg Hu]]]]].
    + rewrite Hs. clear. induction (generatedAds (ui s)); constructor; auto.
    + rewrite Hu. simpl. apply regenerated_same_name with (target := target). exact Hreg.
  - intros link. unfold onDownloadAd.
    destruct (List.find (fun ad => String.eqb (id ad) target)
                (generatedAds
                   (ui (final (handleRegenerateAd env regenerationPromptUrl target s)))))
      as [ad|] eqn:Hfind; [|discriminate].
    intros H. injection H as <-. destruct (find_some_in _ _ _ Hfind) as [Hin Hid].
    exists ad. split; [exact Hin|]. split; [exact Hid|]. split; [reflexivity|].
    pose proof (handleRegenerateAd_post env regenerationPromptUrl target s) as H.
    unfold post in H. destruct H as [_ [[Habsent [Hs _]]|[_ [ads [Hreg Hu]]]]].
    + rewrite Hs in Hin. exfalso. apply Habsent. rewrite <- Hid. apply in_map. exact Hin.
    + rewrite Hu in Hin. simpl in Hin.
      destruct (regenerated_settled _ _ _ Hreg ad Hin Hid) as [Hr _]. exact Hr.
Qed.

Example download_of_the_second_ad :
  onDownloadAd (world key config_full image_url wall_clock) rated_batch
    "gen-1714000018000-benefit-highlight-ad"
  = Some {| href := Str "https://oaidalle.example/img-2.png";
            download := "ad-variation-benefit-highlight-ad.png" |}
  /\ onDownloadAd (world key config_full image_url wall_clock) rated_batch "2" = None.
Proof. split; reflexivity. Qed.
